(** * Urdu story generation: BPE tokenizer, trigram model and generation loop

    A shallow embedding of [backend/bpe_tokenizer.py],
    [backend/trigram_language_model.py] and the generator [generate_tokens]
    of [backend/main.py], followed by the properties established about them.

    Conventions of the embedding.
    - A Python [str] is a list of Unicode code points ([N]): the tokenizer
      splits words with [list(w)], i.e. per code point, and its special
      characters are single private-use code points.
    - A Python [dict] / [Counter] is an association list in insertion order
      with unique keys: [max(d, key=d.get)] and [Counter.most_common] break
      ties by that order.
    - Python [int] is [Z]; occurrence counts, which only ever grow from 0
      by additions of positive amounts, are [N].
    - A Python [float] is a binary64 value: a rational, or an infinity, or
      NaN; every operation rounds its exact result to the nearest binary64
      value, ties to even.
    - The implicit numpy random source is an explicit argument. *)

From Stdlib Require Import List Bool Arith NArith ZArith QArith Qround Qabs Qpower.
From Stdlib Require Import Lia Lqa String Ascii.
From Corelib Require Import PrimFloat SpecFloat FloatOps.
Import ListNotations.
Local Open Scope list_scope.

(** ** Python strings *)

Module PyStr.

(** A code point, and a string of them. *)
Abbreviation char := N (only parsing).
Abbreviation str := (list N) (only parsing).

(** ASCII literals of the source are written as Rocq strings. *)
Definition lit (s : string) : str :=
  List.map N_of_ascii (list_ascii_of_string s).

Fixpoint str_eqb (a b : str) : bool :=
  match a, b with
  | [], [] => true
  | x :: a', y :: b' => N.eqb x y && str_eqb a' b'
  | _, _ => false
  end.

Definition SPACE : char := 32%N.

(** [str.isspace] on one code point (CPython 3: the characters that
    [str.split()] treats as separators). *)
Definition isspace (c : char) : bool :=
  ((9 <=? c) && (c <=? 13) || (28 <=? c) && (c <=? 32)
   || (c =? 133) || (c =? 160) || (c =? 5760)
   || (8192 <=? c) && (c <=? 8202)
   || (c =? 8232) || (c =? 8233) || (c =? 8239) || (c =? 8287)
   || (c =? 12288))%N.

(** [s.split()]: maximal runs of non-whitespace characters. *)
Fixpoint split (s : str) : list str :=
  match s with
  | [] => []
  | c :: s' =>
      if isspace c then split s'
      else match s' with
           | [] => [[c]]
           | d :: _ =>
               if isspace d then [c] :: split s'
               else match split s' with
                    | w :: ws => (c :: w) :: ws
                    | [] => [[c]]
                    end
           end
  end.

(** [sep.join(xs)] *)
Fixpoint join (sep : str) (xs : list str) : str :=
  match xs with
  | [] => []
  | x :: rest =>
      match rest with
      | [] => x
      | _ :: _ => x ++ sep ++ join sep rest
      end
  end.

(** [list(w)]: the one-character strings of [w]. *)
Definition chars (w : str) : list str := List.map (fun c => [c]) w.

(** [s.startswith(p)] *)
Fixpoint startswith (p s : str) : bool :=
  match p, s with
  | [], _ => true
  | _ :: _, [] => false
  | a :: p', b :: s' => N.eqb a b && startswith p' s'
  end.

(** [s.replace(old, new)] for a non-empty [old]: occurrences are replaced
    from left to right without overlap.  [skip] counts the characters of
    the occurrence just replaced that are still to be dropped. *)
Fixpoint replace_from (old new : str) (skip : nat) (s : str) : str :=
  match s with
  | [] => []
  | c :: s' =>
      match skip with
      | S k => replace_from old new k s'
      | O =>
          if startswith old s
          then new ++ replace_from old new (Nat.pred (List.length old)) s'
          else c :: replace_from old new O s'
      end
  end.

(** [s.replace(old, new)]; with an empty [old], Python inserts [new]
    before every character and at the end. *)
Definition replace (old new s : str) : str :=
  match old with
  | [] => new ++ List.concat (List.map (fun c => c :: new) s)
  | _ :: _ => replace_from old new O s
  end.

Arguments replace : simpl never.

(** [old in s] *)
Fixpoint occurs (old s : str) : bool :=
  startswith old s ||
  match s with
  | [] => false
  | _ :: s' => occurs old s'
  end.

Fixpoint lstrip (s : str) : str :=
  match s with
  | [] => []
  | c :: s' => if isspace c then lstrip s' else s
  end.

Definition rstrip (s : str) : str := List.rev (lstrip (List.rev s)).

(** [s.strip()] *)
Definition strip (s : str) : str := rstrip (lstrip s).

(** A character that [split] keeps. *)
Definition visible (c : char) : bool := negb (isspace c).

(** No whitespace character. *)
Definition nospace (w : str) : Prop := Forall (fun c => isspace c = false) w.

(** A word: what [split] returns, a non-empty run without whitespace. *)
Definition word (w : str) : Prop := w <> [] /\ nospace w.

End PyStr.
Import PyStr.

(** ** Python dictionaries and counters *)

Module PyDict.

Section Dict.
Context {K V : Type}.
Variable eqb : K -> K -> bool.

Definition dict := list (K * V).

(** [d.get(k)] *)
Fixpoint get (d : dict) (k : K) : option V :=
  match d with
  | [] => None
  | (k', v) :: d' => if eqb k' k then Some v else get d' k
  end.

(** [k in d] *)
Definition mem (d : dict) (k : K) : bool :=
  match get d k with Some _ => true | None => false end.

(** [d.get(k, dflt)] *)
Definition get_default (d : dict) (k : K) (dflt : V) : V :=
  match get d k with Some v => v | None => dflt end.

(** [d[k] = v]: an existing key keeps its position, a new one goes last. *)
Fixpoint set (d : dict) (k : K) (v : V) : dict :=
  match d with
  | [] => [(k, v)]
  | (k', v') :: d' =>
      if eqb k' k then (k', v) :: d' else (k', v') :: set d' k v
  end.

(** [{key: value for key, value in items}] *)
Definition of_items (items : list (K * V)) : dict :=
  List.fold_left (fun d kv => set d (fst kv) (snd kv)) items [].

Definition keys (d : dict) : list K := List.map fst d.
Definition values (d : dict) : list V := List.map snd d.

End Dict.

Section Counter.
Context {K : Type}.
Variable eqb : K -> K -> bool.

Definition counter := @dict K N.

(** [c[k]] on a [Counter]: 0 for a missing key. *)
Definition count (c : counter) (k : K) : N := get_default eqb c k 0%N.

(** [c[k] += n] *)
Definition add (c : counter) (k : K) (n : N) : counter :=
  set eqb c k (count c k + n)%N.

(** [Counter(xs)] *)
Definition count_all (xs : list K) : counter :=
  List.fold_left (fun c x => add c x 1%N) xs [].

(** One step of a stable insertion sort by decreasing count: [x], which
    came before every element of [l], is placed before the first element
    whose count is not larger. *)
Fixpoint insert_desc (x : K * N) (l : list (K * N)) : list (K * N) :=
  match l with
  | [] => [x]
  | y :: l' =>
      if (snd x <? snd y)%N then y :: insert_desc x l' else x :: l
  end.

(** [sorted(c.items(), key=itemgetter(1), reverse=True)] *)
Fixpoint sort_desc (l : list (K * N)) : list (K * N) :=
  match l with
  | [] => []
  | x :: l' => insert_desc x (sort_desc l')
  end.

(** [c.most_common()] *)
Definition most_common_all (c : counter) : list (K * N) := sort_desc c.

(** [c.most_common(n)] *)
Definition most_common (c : counter) (n : nat) : list (K * N) :=
  List.firstn n (sort_desc c).

(** [max(c, key=c.get)] scanning with the best entry so far: a later key
    wins only with a strictly larger count. *)
Fixpoint max_from (best : K * N) (l : list (K * N)) : K :=
  match l with
  | [] => fst best
  | kv :: l' =>
      if (snd best <? snd kv)%N then max_from kv l' else max_from best l'
  end.

(** [max(c, key=c.get)]; [None] stands for the [ValueError] on an empty
    counter. *)
Definition max_key (c : counter) : option K :=
  match c with
  | [] => None
  | kv :: l => Some (max_from kv l)
  end.

End Counter.

End PyDict.
Import PyDict.

(** ** The BPE tokenizer ([backend/bpe_tokenizer.py]) *)

Module BPE.

Definition EOS_CHAR : str := [57344%N].   (* U+E000 *)
Definition EOP_CHAR : str := [57345%N].   (* U+E001 *)
Definition EOT_CHAR : str := [57346%N].   (* U+E002 *)

(** The end-of-word marker. *)
Definition EOW : str := lit "</w>".

Definition pair := (str * str)%type.

Definition pair_eqb (p q : pair) : bool :=
  str_eqb (fst p) (fst q) && str_eqb (snd p) (snd q).

(** The fields of a [BPETokenizer] that change after construction;
    [special_tokens] and [legacy_special_aliases] are the fixed tables
    below. *)
Record BPETokenizer := mkBPE {
  vocab_size : Z;
  vocab : @dict str Z;          (* token -> id *)
  merges : list pair            (* list of (a,b) *)
}.

Definition special_tokens : @dict str Z :=
  [ (lit "<PAD>", 0%Z); (lit "<UNK>", 1%Z);
    (EOS_CHAR, 2%Z); (EOP_CHAR, 3%Z); (EOT_CHAR, 4%Z) ].

Definition legacy_special_aliases : @dict str str :=
  [ (lit "<EOS>", EOS_CHAR); (lit "<EOP>", EOP_CHAR); (lit "<EOT>", EOT_CHAR) ].

(** [BPETokenizer(vocab_size)] *)
Definition init (vocab_size : Z) : BPETokenizer :=
  mkBPE vocab_size [] [].

Definition len {A} (l : list A) : Z := Z.of_nat (List.length l).

(** The pairs [(syms[i], syms[i+1])] for [i] in [range(len(syms) - 1)]. *)
Fixpoint adjacent (syms : list str) : list pair :=
  match syms with
  | [] => []
  | a :: rest =>
      match rest with
      | [] => []
      | b :: _ => (a, b) :: adjacent rest
      end
  end.

Definition _get_pair_stats (words : @dict str N) : @counter pair :=
  List.fold_left
    (fun pairs wf =>
       List.fold_left (fun pairs p => add pair_eqb pairs p (snd wf))
                      (adjacent (split (fst wf))) pairs)
    words [].

Definition _merge_vocab (p : pair) (words : @dict str N) : @dict str N :=
  let bigram := join [SPACE] [fst p; snd p] in
  let repl := fst p ++ snd p in
  of_items str_eqb
    (List.map (fun wf => (replace bigram repl (fst wf), snd wf)) words).

(** [" ".join(list(w)) + " </w>"] *)
Definition spell (w : str) : str := join [SPACE] (chars w) ++ lit " </w>".

(** [set.add] on a set kept as a duplicate-free list. *)
Definition set_add (s : list str) (x : str) : list str :=
  if List.existsb (str_eqb x) s then s else s ++ [x].

Definition set_of (xs : list str) : list str := List.fold_left set_add xs [].

(** [s in kept] *)
Definition set_mem (s : list str) (x : str) : bool := List.existsb (str_eqb x) s.

(** The merge loop of [train]: [n] iterations are left. *)
Fixpoint merge_loop (n : nat) (vocab_words : @dict str N) (ms : list pair)
  : @dict str N * list pair :=
  match n with
  | O => (vocab_words, ms)
  | S n' =>
      let pairs := _get_pair_stats vocab_words in
      match max_key pairs with
      | None => (vocab_words, ms)
      | Some best => merge_loop n' (_merge_vocab best vocab_words) (ms ++ [best])
      end
  end.

(** The final loop of [train] over [token_freq.most_common()]. *)
Fixpoint fill_vocab (size : Z) (toks : list (str * N))
  (voc : @dict str Z) (next_id slots : Z) : @dict str Z :=
  match toks with
  | [] => voc
  | (tok, _) :: rest =>
      let fresh := negb (mem str_eqb voc tok) && (0 <? slots)%Z in
      let voc' := if fresh then set str_eqb voc tok next_id else voc in
      let next_id' := if fresh then (next_id + 1)%Z else next_id in
      let slots' := if fresh then (slots - 1)%Z else slots in
      if (size <=? len voc')%Z then voc'
      else fill_vocab size rest voc' next_id' slots'
  end.

(** Weighted symbol frequencies: [c[s] += freq] for every symbol of every
    word. *)
Definition symbol_freq (words : @dict str N) : @counter str :=
  List.fold_left
    (fun c wf =>
       List.fold_left (fun c s => add str_eqb c s (snd wf)) (split (fst wf)) c)
    words [].

(** [train], from the text of the corpus file. *)
Definition train (self : BPETokenizer) (corpus : str) : BPETokenizer :=
  let word_freqs := count_all str_eqb (split corpus) in
  let vocab_words0 : @dict str N :=
    of_items str_eqb (List.map (fun wf => (spell (fst wf), snd wf)) word_freqs) in
  let symbols0 := set_of (List.concat (List.map split (keys vocab_words0))) in
  let available := (vocab_size self - len special_tokens)%Z in
  let '(vocab_words1, symbols) :=
    if (available <=? len symbols0)%Z then
      let sym_freq := symbol_freq vocab_words0 in
      let base_vocab_size := Z.min (len symbols0) (Z.max 1 (available - 50)) in
      let kept :=
        set_of (List.map fst
                  (most_common sym_freq (Z.to_nat base_vocab_size))) in
      (List.filter (fun wf => List.forallb (set_mem kept) (split (fst wf)))
                   vocab_words0,
       kept)
    else (vocab_words0, symbols0) in
  let num_merges0 := (available - len symbols)%Z in
  let num_merges := if (num_merges0 <=? 0)%Z then 1%Z else num_merges0 in
  let '(vocab_words, ms) :=
    merge_loop (Z.to_nat num_merges) vocab_words1 (merges self) in
  let token_freq := symbol_freq vocab_words in
  let slots := (vocab_size self - len special_tokens)%Z in
  mkBPE (vocab_size self)
        (fill_vocab (vocab_size self) (most_common_all token_freq)
                    special_tokens (len special_tokens) slots)
        ms.

Definition _separate_specials (text : str) : str :=
  let text :=
    List.fold_left (fun t lc => replace (fst lc) (snd lc) t)
                   legacy_special_aliases text in
  List.fold_left (fun t ch => replace ch ([SPACE] ++ ch ++ [SPACE]) t)
                 [EOS_CHAR; EOP_CHAR; EOT_CHAR] text.

Definition encode_word (self : BPETokenizer) (word : str) : list str :=
  let w := join [SPACE] (chars word) ++ lit " </w>" in
  split (List.fold_left
           (fun w ab => replace (fst ab ++ [SPACE] ++ snd ab) (fst ab ++ snd ab) w)
           (merges self) w).

(** [self.special_tokens["<UNK>"]] *)
Definition UNK_ID : Z := get_default str_eqb special_tokens (lit "<UNK>") 1%Z.

Definition encode_unit (self : BPETokenizer) (w0 : str) : list Z :=
  let w := get_default str_eqb legacy_special_aliases w0 w0 in
  match get str_eqb special_tokens w with
  | Some i => [i]
  | None =>
      List.map (fun tok => get_default str_eqb (vocab self) tok UNK_ID)
               (encode_word self w)
  end.

Definition encode (self : BPETokenizer) (text : str) : list Z :=
  List.concat (List.map (encode_unit self) (split (_separate_specials text))).

(** [{v: k for k, v in self.vocab.items()}] *)
Definition id_to_token (self : BPETokenizer) : @dict Z str :=
  of_items Z.eqb (List.map (fun kv => (snd kv, fst kv)) (vocab self)).

(** The text that [decode] writes for the end-of-sentence character, as it
    stands in the source file: U+00DB, U+201D and a space. *)
Definition EOS_TEXT : str := [219%N; 8221%N; SPACE].

(** [toks] in [decode]: an id without a token gives the empty string. *)
Definition decode_toks (self : BPETokenizer) (token_ids : list Z) : list str :=
  let inv := id_to_token self in
  List.map (fun i => get_default Z.eqb inv i []) token_ids.

Definition decode (self : BPETokenizer) (token_ids : list Z) : str :=
  let toks := decode_toks self token_ids in
  let text := replace EOW [SPACE] (List.concat toks) in
  let text := replace EOS_CHAR EOS_TEXT text in
  let text := replace EOP_CHAR [10%N; 10%N] text in
  let text := replace EOT_CHAR [] text in
  join [SPACE] (split text).

End BPE.

(** ** Binary64 arithmetic (Python [float], numpy [float64]) *)

Module Binary64.
Local Open Scope Q_scope.

(** A binary64 value.  The two zeros are not told apart: the program
    never divides by a zero and never prints one. *)
Inductive float64 :=
| Finite (x : Q)
| Infinite (negative : bool)
| NaN.

Definition pow2 (k : Z) : Q := 2 ^ k.

(** The integer nearest to [x], ties to the even one. *)
Definition rne (x : Q) : Z :=
  let f := Qfloor x in
  match Qcompare (x - inject_Z f) (1 # 2) with
  | Lt => f
  | Gt => (f + 1)%Z
  | Eq => if Z.even f then f else (f + 1)%Z
  end.

(** The integer part of the binary logarithm of [x > 0]:
    [2 ^ ilog2 x <= x < 2 ^ (ilog2 x + 1)]. *)
Definition ilog2 (x : Q) : Z :=
  let k := (Z.log2 (Qnum x) - Z.log2 (Zpos (Qden x)))%Z in
  if Qle_bool (pow2 k) x then k else (k - 1)%Z.

(** The exponent of the last of the 53 significant bits of [x > 0];
    below [2 ^ -1022] (subnormal values) it stays at -1074. *)
Definition ulp_exponent (x : Q) : Z := Z.max (ilog2 x - 52) (-1074).

Definition nearest_pos (x : Q) : Q :=
  let e := ulp_exponent x in inject_Z (rne (x / pow2 e)) * pow2 e.

(** Round to nearest, ties to even, with an unbounded exponent range
    above. *)
Definition nearest (x : Q) : Q :=
  let x := Qred x in
  match Qcompare x 0 with
  | Eq => 0
  | Gt => Qred (nearest_pos x)
  | Lt => Qred (- nearest_pos (- x))
  end.

Definition negative (x : Q) : bool := negb (Qle_bool 0 x).

(** The binary64 value of an exact result: what rounds to [2 ^ 1024] or
    beyond is an infinity. *)
Definition round (x : Q) : float64 :=
  let r := nearest x in
  if Qle_bool (pow2 1024) (Qabs r) then Infinite (negative r) else Finite r.

(** The value of one of the machine's binary64 numbers. *)
Definition of_prim (f : PrimFloat.float) : float64 :=
  match Prim2SF f with
  | S754_zero _ => Finite 0
  | S754_infinity s => Infinite s
  | S754_nan => NaN
  | S754_finite s m e =>
      Finite (Qred ((if s then - inject_Z (Zpos m) else inject_Z (Zpos m)) * pow2 e))
  end.

(** [a + b] *)
Definition fadd (a b : float64) : float64 :=
  match a, b with
  | Finite x, Finite y => round (x + y)
  | NaN, _ | _, NaN => NaN
  | Infinite s, Infinite s' => if Bool.eqb s s' then Infinite s else NaN
  | Infinite s, Finite _ | Finite _, Infinite s => Infinite s
  end.

(** [a * b] *)
Definition fmul (a b : float64) : float64 :=
  match a, b with
  | Finite x, Finite y => round (x * y)
  | NaN, _ | _, NaN => NaN
  | Infinite s, Infinite s' => Infinite (xorb s s')
  | Infinite s, Finite y | Finite y, Infinite s =>
      if Qeq_bool y 0 then NaN else Infinite (xorb s (negative y))
  end.

(** [a / b].  The divisions of the program by a Python float are guarded
    against a zero divisor; for a zero divisor this is the quotient of
    numpy, which does not raise. *)
Definition fdiv (a b : float64) : float64 :=
  match a, b with
  | Finite x, Finite y =>
      if Qeq_bool y 0
      then if Qeq_bool x 0 then NaN else Infinite (negative x)
      else round (x / y)
  | NaN, _ | _, NaN => NaN
  | Infinite _, Infinite _ => NaN
  | Infinite s, Finite y => Infinite (xorb s (negative y))
  | Finite _, Infinite _ => Finite 0
  end.

(** [float(n)] for an [int]. *)
Definition of_int (n : Z) : float64 := round (inject_Z n).

(** [a / b] for two [int]s, [b] not 0: Python rounds the exact quotient.
    (A quotient beyond the binary64 range raises [OverflowError] in
    Python; it cannot arise from a count that is at most its total.) *)
Definition truediv (a b : Z) : float64 := round (inject_Z a / inject_Z b).

(** [a == 0] *)
Definition is_zero (a : float64) : bool :=
  match a with
  | Finite x => Qeq_bool x 0
  | _ => false
  end.

(** [a <= u] for a finite [u] *)
Definition fle (a : float64) (u : Q) : bool :=
  match a with
  | Finite x => Qle_bool x u
  | Infinite s => s
  | NaN => false
  end.

End Binary64.

(** ** The trigram language model ([backend/trigram_language_model.py]) *)

Module Trigram.
Import Binary64.

Definition ctx_eqb (a b : Z * Z) : bool :=
  Z.eqb (fst a) (fst b) && Z.eqb (snd a) (snd b).

Record TrigramLanguageModel := mkLM {
  unigram_counts : @counter Z;
  bigram_counts : @dict Z (@counter Z);          (* w1 -> Counter(w2) *)
  trigram_counts : @dict (Z * Z) (@counter Z);   (* (w1,w2) -> Counter(w3) *)
  total_unigrams : N;
  total_bigrams : @dict Z N;                     (* w1 -> total *)
  total_trigrams : @dict (Z * Z) N;              (* (w1,w2) -> total *)
  lambda1 : float64;
  lambda2 : float64;
  lambda3 : float64
}.

(** [bigram_counts], [trigram_counts], [total_bigrams] and
    [total_trigrams] are [defaultdict]s: reading a missing key stores the
    default (an empty [Counter], or 0) under it.  A stored default reads
    back as the default and adds no candidate, so reads are modelled
    without the store. *)

Definition pad_id : Z := 0.
Definition unk_id : Z := 1.
Definition eos_id : Z := 2.
Definition eop_id : Z := 3.
Definition eot_id : Z := 4.

(** [TrigramLanguageModel()]; the literals [0.1], [0.3] and [0.6] stand
    for the binary64 values nearest to them. *)
Definition init : TrigramLanguageModel :=
  mkLM [] [] [] 0%N [] [] (round (1 # 10)) (round (3 # 10)) (round (6 # 10)).

(** The same three literals as the machine's binary64 numbers. *)
Definition binary64_weights : float * float * float :=
  (0x1.999999999999ap-4, 0x1.3333333333333p-2, 0x1.3333333333333p-1)%float.

(** [d[k][x] += 1] on a [defaultdict(Counter)] *)
Definition add_nested {K} (eqb : K -> K -> bool)
  (d : @dict K (@counter Z)) (k : K) (x : Z) : @dict K (@counter Z) :=
  set eqb d k (add Z.eqb (get_default eqb d k []) x 1%N).

(** [d[k] += 1] on a [defaultdict(int)] *)
Definition bump {K} (eqb : K -> K -> bool) (d : @dict K N) (k : K) : @dict K N :=
  set eqb d k (get_default eqb d k 0%N + 1)%N.

Fixpoint train_unigrams (ids : list Z) (c : @counter Z) (total : N)
  : @counter Z * N :=
  match ids with
  | [] => (c, total)
  | t :: rest => train_unigrams rest (add Z.eqb c t 1%N) (total + 1)%N
  end.

Fixpoint train_bigrams (ids : list Z) (c : @dict Z (@counter Z)) (tot : @dict Z N)
  : @dict Z (@counter Z) * @dict Z N :=
  match ids with
  | w1 :: rest =>
      match rest with
      | w2 :: _ =>
          train_bigrams rest (add_nested Z.eqb c w1 w2) (bump Z.eqb tot w1)
      | [] => (c, tot)
      end
  | [] => (c, tot)
  end.

Fixpoint train_trigrams (ids : list Z) (c : @dict (Z * Z) (@counter Z))
  (tot : @dict (Z * Z) N) : @dict (Z * Z) (@counter Z) * @dict (Z * Z) N :=
  match ids with
  | w1 :: rest =>
      match rest with
      | w2 :: w3 :: _ =>
          train_trigrams rest (add_nested ctx_eqb c (w1, w2) w3)
                         (bump ctx_eqb tot (w1, w2))
      | _ => (c, tot)
      end
  | [] => (c, tot)
  end.

Definition train (self : TrigramLanguageModel) (token_ids : list Z)
  : TrigramLanguageModel :=
  let '(uni, total) := train_unigrams token_ids [] 0%N in
  let '(bi, bitot) := train_bigrams token_ids [] [] in
  let '(tri, tritot) := train_trigrams token_ids [] [] in
  mkLM uni bi tri total bitot tritot
       (lambda1 self) (lambda2 self) (lambda3 self).

(** [count / total], the true division of two [int]s. *)
Definition ratio (c total : N) : float64 :=
  truediv (Z.of_N c) (Z.of_N total).

Definition _p1 (self : TrigramLanguageModel) (w : Z) : float64 :=
  if (total_unigrams self =? 0)%N then Finite 0
  else ratio (count Z.eqb (unigram_counts self) w) (total_unigrams self).

Definition _p2 (self : TrigramLanguageModel) (w1 w2 : Z) : float64 :=
  let denom := get_default Z.eqb (total_bigrams self) w1 0%N in
  if (denom =? 0)%N then Finite 0
  else ratio (count Z.eqb (get_default Z.eqb (bigram_counts self) w1 []) w2) denom.

Definition _p3 (self : TrigramLanguageModel) (w1 w2 w3 : Z) : float64 :=
  let ctx := (w1, w2) in
  let denom := get_default ctx_eqb (total_trigrams self) ctx 0%N in
  if (denom =? 0)%N then Finite 0
  else ratio (count Z.eqb (get_default ctx_eqb (trigram_counts self) ctx []) w3)
             denom.

Definition get_interpolated_prob (self : TrigramLanguageModel) (w1 w2 w3 : Z)
  : float64 :=
  fadd (fadd (fmul (lambda1 self) (_p1 self w3))
             (fmul (lambda2 self) (_p2 self w2 w3)))
       (fmul (lambda3 self) (_p3 self w1 w2 w3)).

(** A [set] of ids, kept as a duplicate-free list. *)
Definition set_insert (s : list Z) (x : Z) : list Z :=
  if List.existsb (Z.eqb x) s then s else s ++ [x].

(** [s.update(xs)] *)
Definition set_update (s : list Z) (xs : list Z) : list Z :=
  List.fold_left set_insert xs s.

(** [s.discard(x)] *)
Definition set_discard (s : list Z) (x : Z) : list Z :=
  List.filter (fun y => negb (Z.eqb y x)) s.

(** The candidate set of [generate_next_token], after PAD and UNK have
    been discarded. *)
Definition candidates (self : TrigramLanguageModel) (context : Z * Z) : list Z :=
  let w2 := snd context in
  let c0 : list Z := [] in
  let c1 :=
    match get ctx_eqb (trigram_counts self) context with
    | Some cnt => set_update c0 (keys cnt)
    | None => c0
    end in
  let c2 :=
    match get Z.eqb (bigram_counts self) w2 with
    | Some cnt => set_update c1 (keys cnt)
    | None => c1
    end in
  let c3 := set_update c2 (List.map fst (most_common (unigram_counts self) 50)) in
  set_discard (set_discard c3 pad_id) unk_id.

(** [sum(probs)]: the additions are made from left to right, starting
    from 0.  (Since CPython 3.12 [sum] carries a correction term: its
    result can differ from this one in the last bit, and for probabilities
    that are not negative it is 0 in the same cases.) *)
Definition fsum (l : list float64) : float64 := List.fold_left fadd l (Finite 0).

(** [p.cumsum()] *)
Fixpoint cumsum_from (acc : float64) (probs : list float64) : list float64 :=
  match probs with
  | [] => []
  | p :: rest => fadd acc p :: cumsum_from (fadd acc p) rest
  end.

Definition cumsum (probs : list float64) : list float64 :=
  match probs with
  | [] => []
  | p :: rest => p :: cumsum_from p rest
  end.

(** [cdf.searchsorted(u, side='right')] on a sorted array: the number of
    entries up to [u]. *)
Fixpoint searchsorted_right (cdf : list float64) (u : Q) : nat :=
  match cdf with
  | [] => O
  | c :: rest => if fle c u then S (searchsorted_right rest u) else O
  end.

(** The type numpy finds for one Python [int]: int64 when it fits, else
    uint64 when it fits, else a Python object. *)
Definition in_int64 (x : Z) : bool := ((- 2 ^ 63 <=? x) && (x <? 2 ^ 63))%Z.
Definition in_uint64 (x : Z) : bool := ((2 ^ 63 <=? x) && (x <? 2 ^ 64))%Z.

(** [int(np.array(tokens)[i])] for the entry [x].  The array has the
    common type of its entries: int64 or uint64 when all are of that type
    and the ids are stored as they are; float64 when both types occur, and
    the ids are rounded; an array of Python objects when an id has neither
    type. *)
Definition numpy_int (tokens : list Z) (x : Z) : Z :=
  if List.forallb in_int64 tokens then x
  else if List.forallb in_uint64 tokens then x
  else if List.forallb (fun t => in_int64 t || in_uint64 t) tokens
  then match of_int x with
       | Finite r => Qfloor r
       | _ => x
       end
  else x.

(** [int(np.random.choice(t0 :: rest, p=probs))] driven by the uniform
    draw [u] of numpy: the entry at the first index whose cumulative
    probability, normalised by the last one, exceeds [u].  numpy draws [u]
    below 1 and raises for probabilities that are NaN, negative or do not
    sum to 1; where it would find no index the last entry stands. *)
Definition choice (t0 : Z) (rest : list Z) (probs : list float64) (u : Q) : Z :=
  let tokens := t0 :: rest in
  let cdf := cumsum probs in
  let cdf := List.map (fun c => fdiv c (List.last cdf NaN)) cdf in
  let idx := searchsorted_right cdf u in
  numpy_int tokens (List.nth idx tokens (List.last rest t0)).

(** [generate_next_token(context)], with the random draw [u] explicit. *)
Definition generate_next_token (self : TrigramLanguageModel)
  (context : Z * Z) (u : Q) : Z :=
  let '(w1, w2) := context in
  match candidates self context with
  | [] => eos_id
  | t0 :: rest =>
      let tokens := t0 :: rest in
      let probs := List.map (get_interpolated_prob self w1 w2) tokens in
      let s := fsum probs in
      let probs :=
        if is_zero s
        then List.map
               (fun _ => fdiv (Finite 1) (of_int (Z.of_nat (List.length tokens))))
               tokens
        else List.map (fun p => fdiv p s) probs in
      choice t0 rest probs u
  end.

(** The relative frequency the specification speaks of, as an exact
    rational: the count divided by the context total, or 0 when that total
    is 0. *)
Definition relative_frequency (c total : N) : Q :=
  if (total =? 0)%N then 0
  else inject_Z (Z.of_N c) / inject_Z (Z.of_N total).

Definition total_of (c : @counter Z) : N :=
  List.fold_right N.add 0%N (values c).

(** Every total is the sum of the counts below it. *)
Definition consistent (self : TrigramLanguageModel) : Prop :=
  total_unigrams self = total_of (unigram_counts self) /\
  (forall w1, get_default Z.eqb (total_bigrams self) w1 0%N =
              total_of (get_default Z.eqb (bigram_counts self) w1 [])) /\
  (forall ctx, get_default ctx_eqb (total_trigrams self) ctx 0%N =
               total_of (get_default ctx_eqb (trigram_counts self) ctx [])).

End Trigram.

(** ** The generation loop ([generate_tokens] in [backend/main.py]) *)

Module Generator.
Import BPE Trigram.

(** The events yielded by [generate_tokens]: the [event] field, with the
    JSON payload of [data] reduced to the string it carries. *)
Inductive event :=
| Ev_error (msg : str)
| Ev_token (token : str)
| Ev_done.

Definition is_error (e : event) : bool :=
  match e with Ev_error _ => true | _ => false end.

Definition is_token (e : event) : bool :=
  match e with Ev_token _ => true | _ => false end.

(** The variables of the loop, and what has been yielded so far. *)
Record gen_state := mkGen {
  ctx : list Z;
  generated_ids : list Z;
  consecutive_special : Z;
  emitted : list event
}.

Inductive flow := Continue | Break.

(** [l[-k]] for [k >= 1]; the loop only indexes [ctx], which always holds
    at least two ids. *)
Definition from_end (l : list Z) (k : nat) : Z :=
  List.nth (List.length l - k) l 0%Z.

(** [l[-2:]] *)
Definition last_two (l : list Z) : list Z :=
  List.skipn (List.length l - 2) l.

Definition SENTENCE_END : str := [SPACE; 1748%N].      (* " " + U+06D4 *)
Definition PARAGRAPH_BREAK : str := [10%N; 10%N].

Definition yield (st : gen_state) (e : event) : gen_state :=
  mkGen (ctx st) (generated_ids st) (consecutive_special st) (emitted st ++ [e]).

Definition set_special (st : gen_state) (n : Z) : gen_state :=
  mkGen (ctx st) (generated_ids st) n (emitted st).

(** The body of the [for step in range(max_length)] loop, from the point
    where [next_id] has been sampled. *)
Definition loop_body (tokenizer : BPETokenizer) (st : gen_state) (next_id : Z)
  : gen_state * flow :=
  if (next_id =? eot_id)%Z then (st, Break)
  else if ((next_id =? pad_id) || (next_id =? unk_id))%Z then (st, Continue)
  else
    let st := mkGen (ctx st ++ [next_id]) (generated_ids st ++ [next_id])
                    (consecutive_special st) (emitted st) in
    let token_text := decode tokenizer [next_id] in
    if (next_id =? eos_id)%Z then
      let st := set_special st (consecutive_special st + 1) in
      if (3 <=? consecutive_special st)%Z then (st, Break)
      else (yield st (Ev_token SENTENCE_END), Continue)
    else if (next_id =? eop_id)%Z then
      let st := set_special st (consecutive_special st + 1) in
      if (3 <=? consecutive_special st)%Z then (st, Break)
      else (yield st (Ev_token PARAGRAPH_BREAK), Continue)
    else
      let st := set_special st 0 in
      match strip token_text with
      | [] => (st, Continue)
      | _ :: _ => (yield st (Ev_token ([SPACE] ++ strip token_text)), Continue)
      end.

(** The end-of-sentence and end-of-paragraph ids, which the loop counts. *)
Definition special (x : Z) : Prop := x = eos_id \/ x = eop_id.

(** An id that is none of the five special ones. *)
Definition ordinary (x : Z) : Prop :=
  x <> pad_id /\ x <> unk_id /\ x <> eos_id /\ x <> eop_id /\ x <> eot_id.

Section Loop.

(** The sampler the loop calls at each step: the step number and the
    context pair give the next id. *)
Variable sample : nat -> Z * Z -> Z.
Variable tokenizer : BPETokenizer.

(** [n] iterations are left, [step] have been made. *)
Fixpoint gen_loop (n step : nat) (st : gen_state) : gen_state :=
  match n with
  | O => st
  | S n' =>
      let next_id := sample step (from_end (ctx st) 2, from_end (ctx st) 1) in
      match loop_body tokenizer st next_id with
      | (st', Break) => st'
      | (st', Continue) => gen_loop n' (S step) st'
      end
  end.

(** The ids the sampler returned during the same run, in order. *)
Fixpoint sampled (n step : nat) (st : gen_state) : list Z :=
  match n with
  | O => []
  | S n' =>
      let next_id := sample step (from_end (ctx st) 2, from_end (ctx st) 1) in
      match loop_body tokenizer st next_id with
      | (_, Break) => [next_id]
      | (st', Continue) => next_id :: sampled n' (S step) st'
      end
  end.

(** The state when the loop is entered. *)
Definition start (prefix : str) : gen_state :=
  let prefix_ids := encode tokenizer prefix in
  let ctx :=
    match prefix_ids with
    | [] => [eos_id; eos_id]
    | [x] => [eos_id; x]
    | _ => last_two prefix_ids
    end in
  mkGen ctx prefix_ids 0 [Ev_token prefix].

End Loop.

Definition MODEL_NOT_LOADED : str := lit "Model not loaded. Check backend logs.".

(** The sampler of the served model: [rnd step] is the uniform draw that
    numpy makes at that step. *)
Definition model_sample (model : TrigramLanguageModel) (rnd : nat -> Q)
  : nat -> Z * Z -> Z :=
  fun step context => generate_next_token model context (rnd step).

(** [generate_tokens(prefix, max_length)]: the events it yields when it is
    consumed to the end. *)
Definition generate_tokens (tokenizer : BPETokenizer)
  (model : TrigramLanguageModel) (rnd : nat -> Q)
  (prefix : str) (max_length : Z) : list event :=
  if (total_unigrams model =? 0)%N then [Ev_error MODEL_NOT_LOADED]
  else
    let st := gen_loop (model_sample model rnd) tokenizer
                       (Z.to_nat max_length) O (start tokenizer prefix) in
    emitted st ++ [Ev_done].

End Generator.

(** ** Generation without the server ([generate_story], [generate_from_prefix]) *)

Module Story.
Import Trigram Generator.

(** The loop of [generate_story]: [n] iterations are left, [step] have been
    made; [rnd step] is the uniform draw of that step. *)
Fixpoint story_loop (self : TrigramLanguageModel) (rnd : nat -> Q)
  (n step : nat) (generated : list Z) : list Z :=
  match n with
  | O => generated
  | S n' =>
      let nxt :=
        generate_next_token self (from_end generated 2, from_end generated 1)
                            (rnd step) in
      let generated := generated ++ [nxt] in
      if (nxt =? eot_id)%Z then generated
      else story_loop self rnd n' (S step) generated
  end.

(** [generate_story(max_length)]; the [temperature] argument is unused in
    the source. *)
Definition generate_story (self : TrigramLanguageModel) (rnd : nat -> Q)
  (max_length : Z) : list Z :=
  List.skipn 2 (story_loop self rnd (Z.to_nat max_length) O [eos_id; eos_id]).

(** The loop of [generate_from_prefix], on its two lists. *)
Fixpoint prefix_loop (self : TrigramLanguageModel) (rnd : nat -> Q)
  (n step : nat) (ctx_seq out : list Z) : list Z :=
  match n with
  | O => out
  | S n' =>
      let nxt :=
        generate_next_token self (from_end ctx_seq 2, from_end ctx_seq 1)
                            (rnd step) in
      let out := out ++ [nxt] in
      let ctx_seq := ctx_seq ++ [nxt] in
      if (nxt =? eot_id)%Z then out
      else prefix_loop self rnd n' (S step) ctx_seq out
  end.

(** [generate_from_prefix(prefix_ids, max_length)] *)
Definition generate_from_prefix (self : TrigramLanguageModel) (rnd : nat -> Q)
  (prefix_ids : list Z) (max_length : Z) : list Z :=
  let ctx_seq :=
    match prefix_ids with
    | [] => [eos_id; eos_id]
    | [x] => [eos_id; x]
    | _ => last_two prefix_ids
    end in
  prefix_loop self rnd (Z.to_nat max_length) O ctx_seq prefix_ids.

End Story.

(** ** The merges file of [BPETokenizer.save] and [BPETokenizer.load] *)

Module MergesFile.
Import BPE.

Definition LF : char := 10%N.
Definition CR : char := 13%N.

(** The text that [save] writes to [merges.txt]: one line [a b] per
    merge. *)
Definition merges_text (self : BPETokenizer) : str :=
  List.concat
    (List.map (fun ab => fst ab ++ [SPACE] ++ snd ab ++ [LF]) (merges self)).

(** A code point that the utf-8 codec of the file accepts: any but the
    surrogates U+D800 to U+DFFF. *)
Definition encodable (c : char) : bool :=
  ((c <? 55296) || (57343 <? c) && (c <? 1114112))%N.

(** The content of [merges.txt] after [save]; [None] stands for the
    [UnicodeEncodeError] of a text that cannot be encoded. *)
Definition save_merges (self : BPETokenizer) : option str :=
  if List.forallb encodable (merges_text self)
  then Some (merges_text self) else None.

(** Reading a file opened in text mode: a carriage return, alone or
    before a line feed, arrives as a line feed. *)
Fixpoint universal_newlines (s : str) : str :=
  match s with
  | [] => []
  | c :: s' =>
      if N.eqb c CR then
        match s' with
        | d :: s'' => if N.eqb d LF then LF :: universal_newlines s''
                      else LF :: universal_newlines s'
        | [] => [LF]
        end
      else c :: universal_newlines s'
  end.

(** [for line in f]: the lines of the text, each with its line feed. *)
Fixpoint file_lines (s : str) : list str :=
  match s with
  | [] => []
  | c :: s' =>
      if N.eqb c LF then [c] :: file_lines s'
      else match file_lines s' with
           | l :: ls => (c :: l) :: ls
           | [] => [[c]]
           end
  end.

(** The merge table that [load] reads from the text of [merges.txt]: the
    lines with exactly two parts. *)
Definition load_merges (text : str) : list pair :=
  List.flat_map
    (fun line =>
       match split (strip line) with
       | [a; b] => [(a, b)]
       | _ => []
       end)
    (file_lines (universal_newlines text)).

End MergesFile.

(** ** The [/generate] endpoint of [backend/main.py] *)

Module Endpoint.
Import BPE Trigram Generator.

(** What [generate] answers: the HTTP error it raises, or the event
    stream it returns. *)
Inductive response :=
| Http_error (status_code : Z) (detail : str)
| Event_stream (events : list event).

Definition generate (tokenizer : BPETokenizer) (model : TrigramLanguageModel)
  (rnd : nat -> Q) (prefix : str) (max_length : Z) : response :=
  match strip prefix with
  | [] => Http_error 400 (lit "Prefix cannot be empty.")
  | _ :: _ =>
      Event_stream (generate_tokens tokenizer model rnd (strip prefix) max_length)
  end.

End Endpoint.

(** ** Vocabulary of the properties *)

Module Counting.

(** How often [w] occurs in [ids]. *)
Definition occurrences (w : Z) (ids : list Z) : N :=
  N.of_nat (List.count_occ Z.eq_dec ids w).

(** How often [w1] is directly followed by [w2] in [ids]. *)
Fixpoint pair_occurrences (w1 w2 : Z) (ids : list Z) : N :=
  match ids with
  | [] => 0
  | a :: rest =>
      match rest with
      | [] => 0
      | b :: _ =>
          ((if Z.eqb a w1 && Z.eqb b w2 then 1 else 0)
           + pair_occurrences w1 w2 rest)%N
      end
  end.

(** How often [w1], [w2], [w3] occur in a row in [ids]. *)
Fixpoint triple_occurrences (w1 w2 w3 : Z) (ids : list Z) : N :=
  match ids with
  | [] => 0
  | a :: rest =>
      match rest with
      | b :: c :: _ =>
          ((if Z.eqb a w1 && Z.eqb b w2 && Z.eqb c w3 then 1 else 0)
           + triple_occurrences w1 w2 w3 rest)%N
      | _ => 0
      end
  end.

(** The ids that the generation loop appends to its context: all but PAD,
    UNK and end-of-text. *)
Definition accepted (x : Z) : bool :=
  negb (Z.eqb x Trigram.pad_id || Z.eqb x Trigram.unk_id || Z.eqb x Trigram.eot_id).

(** A whitespace-only text. *)
Definition blank (s : str) : Prop := Forall (fun c => isspace c = true) s.

(** The events that the generation loop can yield: the sentence-end
    glyph, a paragraph break, or a space and the stripped, non-empty text
    of an ordinary id. *)
Definition fragment (tokenizer : BPE.BPETokenizer) (e : Generator.event) : Prop :=
  e = Generator.Ev_token Generator.SENTENCE_END \/
  e = Generator.Ev_token Generator.PARAGRAPH_BREAK \/
  exists x,
    Generator.ordinary x /\
    strip (BPE.decode tokenizer [x]) <> [] /\
    e = Generator.Ev_token ([SPACE] ++ strip (BPE.decode tokenizer [x])).

End Counting.

(** * Properties *)

(** ** Facts about the string primitives *)

Module PyStrFacts.

Lemma str_eqb_refl (a : str) : str_eqb a a = true.
Proof.
  induction a as [|x a IH]; simpl; [reflexivity|].
  now rewrite N.eqb_refl, IH.
Qed.

Lemma str_eqb_eq (a b : str) : str_eqb a b = true <-> a = b.
Proof.
  split.
  - revert b; induction a as [|x a IH]; intros [|y b]; simpl; try discriminate; auto.
    intros H. apply andb_true_iff in H as [Hx Hab].
    apply N.eqb_eq in Hx. f_equal; auto.
  - intros ->. apply str_eqb_refl.
Qed.

(** *** [startswith] and [occurs] *)

Lemma startswith_app (p s : str) :
  startswith p s = true <-> exists rest, s = p ++ rest.
Proof.
  split.
  - revert s; induction p as [|a p IH]; intros s H.
    + now exists s.
    + destruct s as [|b s]; simpl in H; [discriminate|].
      apply andb_true_iff in H as [Hab H]. apply N.eqb_eq in Hab. subst b.
      destruct (IH _ H) as [rest ->]. now exists rest.
  - intros [rest ->]. induction p as [|a p IH]; simpl; [reflexivity|].
    now rewrite N.eqb_refl.
Qed.

Lemma startswith_refl (p : str) : startswith p p = true.
Proof. apply startswith_app. exists []. now rewrite app_nil_r. Qed.

Lemma startswith_nil_r (p : str) : startswith p [] = true -> p = [].
Proof. destruct p; simpl; [reflexivity|discriminate]. Qed.

Lemma occurs_cons (p : str) (c : char) (s : str) :
  occurs p (c :: s) = startswith p (c :: s) || occurs p s.
Proof. reflexivity. Qed.

Lemma occurs_nil (p : str) : occurs p [] = startswith p [].
Proof. simpl. now rewrite orb_false_r. Qed.

Lemma occurs_startswith (p s : str) : startswith p s = true -> occurs p s = true.
Proof. intros H. destruct s; simpl in *; now rewrite H. Qed.

Lemma occurs_tail (p : str) (c : char) (s : str) :
  occurs p s = true -> occurs p (c :: s) = true.
Proof. intros H. rewrite occurs_cons, H. apply orb_true_r. Qed.

Lemma occurs_false_cons (p : str) (c : char) (s : str) :
  occurs p (c :: s) = false ->
  startswith p (c :: s) = false /\ occurs p s = false.
Proof. rewrite occurs_cons. apply orb_false_iff. Qed.

(** An occurrence is a decomposition [s = before ++ p ++ after]. *)
Lemma occurs_iff (p s : str) :
  occurs p s = true <-> exists before after, s = before ++ p ++ after.
Proof.
  split.
  - induction s as [|c s IH]; intros H.
    + rewrite occurs_nil in H. apply startswith_nil_r in H. subst.
      now exists [], [].
    + rewrite occurs_cons in H. apply orb_true_iff in H as [H|H].
      * apply startswith_app in H as [rest ->]. now exists [], rest.
      * destruct (IH H) as (b & a & ->). now exists (c :: b), a.
  - intros (b & a & ->). induction b as [|c b IH]; simpl app.
    + apply occurs_startswith, startswith_app. now exists a.
    + now apply occurs_tail.
Qed.

Lemma occurs_app_l (p a b : str) : occurs p a = true -> occurs p (a ++ b) = true.
Proof.
  intros H. apply occurs_iff in H as (x & y & ->). apply occurs_iff.
  exists x, (y ++ b). now rewrite <- !app_assoc.
Qed.

Lemma occurs_app_r (p a b : str) : occurs p b = true -> occurs p (a ++ b) = true.
Proof.
  intros H. apply occurs_iff in H as (x & y & ->). apply occurs_iff.
  exists (a ++ x), y. now rewrite <- !app_assoc.
Qed.

Lemma occurs_refl (p : str) : occurs p p = true.
Proof. apply occurs_startswith, startswith_refl. Qed.

(** A one-character pattern occurs exactly when the character is there. *)
Lemma occurs_char (c : char) (s : str) : occurs [c] s = true <-> In c s.
Proof.
  induction s as [|d s IH].
  - simpl. split; [discriminate|tauto].
  - rewrite occurs_cons. simpl startswith. rewrite orb_true_iff, IH, andb_true_r.
    rewrite N.eqb_eq. simpl. split; intros [H|H]; auto.
Qed.

Lemma not_occurs_char (c : char) (s : str) : occurs [c] s = false <-> ~ In c s.
Proof.
  rewrite <- occurs_char. destruct (occurs [c] s); split; congruence.
Qed.

(** A pattern that starts a text cut by a character foreign to it lies
    before the cut. *)
Lemma startswith_before (p a : str) (c : char) (b : str) :
  ~ In c p -> startswith p (a ++ c :: b) = true -> startswith p a = true.
Proof.
  revert a; induction p as [|x p IH]; intros a Hc H; [reflexivity|].
  destruct a as [|y a]; simpl in *.
  - apply andb_true_iff in H as [H _]. apply N.eqb_eq in H. subst. tauto.
  - apply andb_true_iff in H as [-> H]. simpl. apply IH with (a := a); tauto.
Qed.

Lemma occurs_cut (p a : str) (c : char) (b : str) :
  p <> [] -> ~ In c p ->
  occurs p (a ++ c :: b) = true -> occurs p a = true \/ occurs p b = true.
Proof.
  intros Hp Hc. induction a as [|y a IH]; simpl app; intros H.
  - rewrite occurs_cons in H. apply orb_true_iff in H as [H|H]; [|now right].
    destruct p as [|x p]; [congruence|]. simpl in H.
    apply andb_true_iff in H as [H _]. apply N.eqb_eq in H. subst. simpl in Hc. tauto.
  - rewrite occurs_cons in H. apply orb_true_iff in H as [H|H].
    + left. apply occurs_startswith.
      now apply (startswith_before p (y :: a) c b).
    + destruct (IH H) as [H'|H']; [left|now right]. now apply occurs_tail.
Qed.

(** *** [replace] *)

Lemma replace_from_skip (old new : str) (k : nat) (s : str) :
  replace_from old new k s = replace_from old new 0 (skipn k s).
Proof.
  revert k; induction s as [|c s IH]; intros [|k]; try reflexivity.
  simpl skipn. simpl replace_from at 1. apply IH.
Qed.

(** The defining equations of [replace] at an occurrence and elsewhere. *)
Lemma replace_hit (a : char) (old new rest : str) :
  replace (a :: old) new ((a :: old) ++ rest) = new ++ replace (a :: old) new rest.
Proof.
  unfold replace. simpl app. cbn [replace_from].
  assert (H : startswith (a :: old) (a :: old ++ rest) = true).
  { apply startswith_app. now exists rest. }
  rewrite H. f_equal. simpl length. simpl Nat.pred.
  rewrite replace_from_skip. f_equal.
  clear H. induction old as [|x old IH]; simpl; auto.
Qed.

Lemma replace_miss (old new : str) (c : char) (s : str) :
  old <> [] -> startswith old (c :: s) = false ->
  replace old new (c :: s) = c :: replace old new s.
Proof.
  intros Hold H. destruct old as [|a old]; [congruence|].
  unfold replace. cbn [replace_from]. now rewrite H.
Qed.

Lemma replace_nil (old new : str) : old <> [] -> replace old new [] = [].
Proof. destruct old; [congruence|reflexivity]. Qed.

(** Induction along the scan that [replace] makes. *)
Lemma replace_ind (old : str) (P : str -> Prop) :
  old <> [] ->
  P [] ->
  (forall rest, P rest -> P (old ++ rest)) ->
  (forall c s, startswith old (c :: s) = false -> P s -> P (c :: s)) ->
  forall s, P s.
Proof.
  intros Hold Hnil Hhit Hmiss s.
  assert (H : forall n s, (List.length s <= n)%nat -> P s).
  { clear s. induction n as [|n IH]; intros s Hlen.
    - destruct s; [exact Hnil|simpl in Hlen; lia].
    - destruct s as [|c s]; [exact Hnil|].
      destruct (startswith old (c :: s)) eqn:E.
      + apply startswith_app in E as [rest E]. rewrite E. apply Hhit, IH.
        assert (L : List.length (c :: s) = (List.length old + List.length rest)%nat)
          by (rewrite E; apply length_app).
        destruct old; [congruence|]. simpl in *. lia.
      + apply Hmiss; [exact E|]. apply IH. simpl in Hlen. lia. }
  apply (H (List.length s)). lia.
Qed.

Lemma replace_absent (old new s : str) :
  old <> [] -> occurs old s = false -> replace old new s = s.
Proof.
  intros Hold. induction s as [|c s IH]; intros H.
  - now apply replace_nil.
  - apply occurs_false_cons in H as [H1 H2].
    rewrite replace_miss by assumption. now rewrite IH.
Qed.

(** Replacing one character is a character-wise substitution. *)
Lemma replace_char (x : char) (new s : str) :
  replace [x] new s = flat_map (fun c => if N.eqb x c then new else [c]) s.
Proof.
  induction s as [|c s IH]; [reflexivity|].
  simpl flat_map. destruct (N.eqb x c) eqn:E.
  - apply N.eqb_eq in E. subst c.
    change (x :: s) with ([x] ++ s). now rewrite replace_hit, IH.
  - rewrite replace_miss; [now rewrite IH|discriminate|].
    simpl. now rewrite E.
Qed.

Lemma in_replace_char (x : char) (new s : str) (c : char) :
  In c (replace [x] new s) -> In c new \/ (c <> x /\ In c s).
Proof.
  rewrite replace_char. induction s as [|d s IH]; simpl; [tauto|].
  rewrite in_app_iff. intros [H|H].
  - destruct (N.eqb x d) eqn:E; [now left|].
    right. apply N.eqb_neq in E. destruct H as [->|[]]. split; auto.
  - destruct (IH H) as [?|[? ?]]; auto.
Qed.

Lemma in_replace (old new s : str) (c : char) :
  old <> [] -> In c (replace old new s) -> In c new \/ In c s.
Proof.
  intros Hold. revert s. refine (replace_ind old _ Hold _ _ _); cbv beta.
  - rewrite replace_nil by assumption. tauto.
  - intros rest IH. destruct old as [|a old]; [congruence|].
    rewrite replace_hit, !in_app_iff. intros [H|H]; [now left|].
    destruct (IH H); auto.
  - intros d s Hm IH. rewrite replace_miss by assumption.
    simpl. intros [H|H]; [auto|]. destruct (IH H); auto.
Qed.

(** *** [split] and [join] *)

Lemma split_nonempty (d : char) (s : str) :
  isspace d = false -> split (d :: s) <> [].
Proof.
  intros Hd. simpl. rewrite Hd. destruct s as [|e s]; [discriminate|].
  destruct (isspace e); [discriminate|].
  destruct (split (e :: s)); discriminate.
Qed.

(** Induction along the cases of [split]. *)
Lemma split_ind (P : str -> list str -> Prop) :
  P [] [] ->
  (forall c s, isspace c = true -> P s (split s) -> P (c :: s) (split s)) ->
  (forall c, isspace c = false -> P [c] [[c]]) ->
  (forall c d s, isspace c = false -> isspace d = true ->
     P (d :: s) (split (d :: s)) -> P (c :: d :: s) ([c] :: split (d :: s))) ->
  (forall c d s w ws, isspace c = false -> isspace d = false ->
     split (d :: s) = w :: ws -> P (d :: s) (w :: ws) ->
     P (c :: d :: s) ((c :: w) :: ws)) ->
  forall s, P s (split s).
Proof.
  intros Hnil Hsp Hlast Hsep Hglue. induction s as [|c s IH]; [exact Hnil|].
  destruct (isspace c) eqn:Ec.
  - replace (split (c :: s)) with (split s) by (simpl; now rewrite Ec).
    now apply Hsp.
  - destruct s as [|d s].
    + replace (split [c]) with [[c]] by (simpl; now rewrite Ec). now apply Hlast.
    + destruct (isspace d) eqn:Ed.
      * replace (split (c :: d :: s)) with ([c] :: split (d :: s))
          by (cbn [split]; now rewrite Ec, Ed).
        now apply Hsep.
      * destruct (split (d :: s)) as [|w ws] eqn:E.
        { exfalso. now apply (split_nonempty d s). }
        replace (split (c :: d :: s)) with ((c :: w) :: ws).
        { now apply Hglue. }
        change (split (c :: d :: s)) with
          (if isspace c then split (d :: s)
           else if isspace d then [c] :: split (d :: s)
                else match split (d :: s) with
                     | w :: ws => (c :: w) :: ws
                     | [] => [[c]]
                     end).
        now rewrite Ec, Ed, E.
Qed.

(** The words of a text, put end to end, are its non-whitespace
    characters. *)
Lemma concat_split (s : str) :
  List.concat (split s) = List.filter (fun c => negb (isspace c)) s.
Proof.
  apply (split_ind (fun s ws =>
    List.concat ws = List.filter (fun c => negb (isspace c)) s)).
  - reflexivity.
  - intros c t Hc IH. simpl. now rewrite Hc.
  - intros c Hc. simpl. now rewrite Hc.
  - intros c d t Hc Hd IH. cbn [List.concat List.filter] in *.
    rewrite Hc. simpl negb. cbv iota. rewrite IH. reflexivity.
  - intros c d t w ws Hc Hd E IH. cbn [List.concat List.filter] in *.
    rewrite Hc. simpl negb. cbv iota. simpl. now rewrite <- IH.
Qed.

Lemma split_words (s : str) : Forall word (split s).
Proof.
  apply (split_ind (fun _ ws => Forall word ws)).
  - constructor.
  - auto.
  - intros c Hc. repeat constructor; [discriminate|assumption].
  - intros c d t Hc Hd IH. constructor; [|assumption].
    split; [discriminate|]. now repeat constructor.
  - intros c d t w ws Hc Hd E IH. inversion IH as [|? ? [Hw1 Hw2] Hws]; subst.
    constructor; [|assumption]. split; [discriminate|]. now constructor.
Qed.

(** The first word of a text that starts with a non-whitespace character
    is a prefix of the text. *)
Lemma split_head (s : str) :
  forall w ws, split s = w :: ws -> isspace (hd SPACE s) = false ->
  exists after, s = w ++ after.
Proof.
  apply (split_ind (fun s l => forall w ws, l = w :: ws ->
    isspace (hd SPACE s) = false -> exists after, s = w ++ after)).
  - discriminate.
  - intros c t Hc _ w ws _ H. simpl in H. congruence.
  - intros c Hc w ws [= <- <-] _. now exists [].
  - intros c d t Hc Hd _ w ws [= <- _] _. now exists (d :: t).
  - intros c d t w ws Hc Hd E IH w' ws' [= <- <-] _.
    destruct (IH w ws eq_refl Hd) as [after Ha].
    exists after. simpl. now rewrite Ha.
Qed.

(** Every word of [split s] is a contiguous piece of [s]. *)
Lemma split_piece (s w : str) :
  In w (split s) -> exists before after, s = before ++ w ++ after.
Proof.
  revert w.
  apply (split_ind (fun s l => forall w, In w l ->
    exists before after, s = before ++ w ++ after)).
  - intros w [].
  - intros c t Hc IH w Hw. destruct (IH w Hw) as (b & a & ->).
    now exists (c :: b), a.
  - intros c Hc w [<-|[]]. now exists [], [].
  - intros c d t Hc Hd IH w [<-|Hw].
    + now exists [], (d :: t).
    + destruct (IH w Hw) as (b & a & E). exists (c :: b), a.
      simpl. now rewrite E.
  - intros c d t w0 ws Hc Hd E IH w [<-|Hw].
    + destruct (split_head (d :: t) w0 ws E Hd) as [after Ha].
      exists [], after. simpl. now rewrite Ha.
    + destruct (IH w (or_intror Hw)) as (b & a & E'). exists (c :: b), a.
      simpl. now rewrite E'.
Qed.

Lemma split_occurs (p s w : str) :
  In w (split s) -> occurs p w = true -> occurs p s = true.
Proof.
  intros Hw Hp. destruct (split_piece s w Hw) as (b & a & ->).
  apply occurs_app_r, occurs_app_l, Hp.
Qed.

Lemma split_in (s w : str) (c : char) : In w (split s) -> In c w -> In c s.
Proof.
  intros Hw Hc. destruct (split_piece s w Hw) as (b & a & ->).
  rewrite !in_app_iff. auto.
Qed.

Lemma split_eq (c d : char) (s : str) :
  split (c :: d :: s) =
  if isspace c then split (d :: s)
  else if isspace d then [c] :: split (d :: s)
       else match split (d :: s) with
            | w :: ws => (c :: w) :: ws
            | [] => [[c]]
            end.
Proof. reflexivity. Qed.

Lemma split_word (w : str) : word w -> split w = [w].
Proof.
  intros [Hne Hns]. induction w as [|c w IH]; [congruence|].
  inversion Hns as [|? ? Hc Hw]; subst.
  destruct w as [|d w].
  - simpl. now rewrite Hc.
  - inversion Hw as [|? ? Hd _]; subst.
    rewrite split_eq, Hc, Hd, IH; [reflexivity|discriminate|assumption].
Qed.

(** A word followed by one space still splits into that word. *)
Lemma split_word_space (w : str) : word w -> split (w ++ [SPACE]) = [w].
Proof.
  intros [Hne Hns]. induction w as [|c w IH]; [congruence|].
  inversion Hns as [|? ? Hc Hw]; subst.
  destruct w as [|d w].
  - simpl. now rewrite Hc.
  - inversion Hw as [|? ? Hd _]; subst.
    simpl app in *. rewrite split_eq, Hc, Hd, IH; [reflexivity|discriminate|assumption].
Qed.

Lemma in_join (ws : list str) (c : char) :
  In c (join [SPACE] ws) -> c = SPACE \/ exists w, In w ws /\ In c w.
Proof.
  induction ws as [|w ws IH]; [intros []|].
  destruct ws as [|w' ws].
  - simpl. intros H. right. exists w. auto.
  - change (join [SPACE] (w :: w' :: ws)) with (w ++ [SPACE] ++ join [SPACE] (w' :: ws)).
    rewrite !in_app_iff. intros [H|[[H|[]]|H]].
    + right. exists w. simpl. auto.
    + now left.
    + destruct (IH H) as [?|(x & Hx & Hc)]; [now left|].
      right. exists x. simpl in *. tauto.
Qed.

Lemma occurs_join (p : str) (ws : list str) :
  p <> [] -> ~ In SPACE p ->
  occurs p (join [SPACE] ws) = true -> exists w, In w ws /\ occurs p w = true.
Proof.
  intros Hp Hs. induction ws as [|w ws IH].
  - simpl. rewrite orb_false_r. intros H. apply startswith_nil_r in H. congruence.
  - destruct ws as [|w' ws].
    + simpl join. intros H. exists w. simpl. auto.
    + change (join [SPACE] (w :: w' :: ws))
        with (w ++ SPACE :: join [SPACE] (w' :: ws)).
      intros H. apply occurs_cut in H; try assumption.
      destruct H as [H|H].
      * exists w. simpl. auto.
      * destruct (IH H) as (x & Hx & Hox). exists x. simpl in *. tauto.
Qed.

(** *** The shape of [" ".join(text.split())] *)

Lemma join_words_head (ws : list str) :
  Forall word ws -> startswith [SPACE] (join [SPACE] ws) = false.
Proof.
  intros H. destruct H as [|w ws [Hne Hns] _]; [reflexivity|].
  destruct w as [|c w]; [congruence|]. inversion Hns as [|? ? Hc _]; subst.
  assert (E : exists t, join [SPACE] ((c :: w) :: ws) = c :: t).
  { destruct ws; simpl; eauto. }
  destruct E as [t E]. rewrite E. cbn [startswith]. rewrite andb_true_r.
  apply N.eqb_neq. intros <-. discriminate.
Qed.

Lemma lstrip_join_words (ws : list str) :
  Forall word ws -> lstrip (join [SPACE] ws) = join [SPACE] ws.
Proof.
  intros H. destruct H as [|w ws [Hne Hns] _]; [reflexivity|].
  destruct w as [|c w]; [congruence|]. inversion Hns as [|? ? Hc _]; subst.
  assert (E : exists t, join [SPACE] ((c :: w) :: ws) = c :: t).
  { destruct ws; simpl; eauto. }
  destruct E as [t E]. rewrite E. simpl. now rewrite Hc.
Qed.

Lemma lstrip_rev_word (w t : str) :
  word w -> lstrip (List.rev w ++ t) = List.rev w ++ t.
Proof.
  intros [Hne Hns]. destruct (List.rev w) as [|c r] eqn:E.
  - apply (f_equal (@List.rev char)) in E. rewrite rev_involutive in E.
    simpl in E. congruence.
  - assert (Hc : isspace c = false).
    { unfold nospace in Hns. rewrite Forall_forall in Hns. apply Hns.
      apply in_rev. rewrite E. now left. }
    simpl. now rewrite Hc.
Qed.

Lemma rstrip_join_words (ws : list str) :
  Forall word ws -> rstrip (join [SPACE] ws) = join [SPACE] ws.
Proof.
  intros H. unfold rstrip.
  assert (E : lstrip (List.rev (join [SPACE] ws)) = List.rev (join [SPACE] ws)).
  { induction H as [|w ws Hw Hws IH]; [reflexivity|].
    destruct ws as [|w' ws].
    - simpl join. rewrite <- (app_nil_r (List.rev w)). now apply lstrip_rev_word.
    - change (join [SPACE] (w :: w' :: ws))
        with (w ++ [SPACE] ++ join [SPACE] (w' :: ws)).
      rewrite !rev_app_distr.
      destruct (List.rev (join [SPACE] (w' :: ws))) as [|c r] eqn:Er.
      + inversion Hws as [|? ? [Hne _] _]; subst.
        apply (f_equal (@List.rev char)) in Er. rewrite rev_involutive in Er.
        simpl in Er. destruct w' as [|x w']; [congruence|].
        destruct ws; simpl in Er; discriminate.
      + simpl in IH |- *. destruct (isspace c) eqn:Ec; [|reflexivity].
        exfalso. clear -IH.
        assert (L : (List.length (lstrip r) <= List.length r)%nat).
        { clear. induction r as [|x r IH]; simpl; [lia|].
          destruct (isspace x); simpl; lia. }
        rewrite IH in L. simpl in L. lia. }
  now rewrite E, rev_involutive.
Qed.

Lemma join_words_spaces (ws : list str) (c : char) :
  Forall word ws -> In c (join [SPACE] ws) -> isspace c = true -> c = SPACE.
Proof.
  intros H Hin Hc. apply in_join in Hin as [?|(w & Hw & Hcw)]; [assumption|].
  rewrite Forall_forall in H. destruct (H w Hw) as [_ Hns].
  unfold nospace in Hns. rewrite Forall_forall in Hns.
  rewrite (Hns c Hcw) in Hc. discriminate.
Qed.

Lemma no_double_space_word (w r : str) :
  nospace w -> startswith [SPACE] r = false ->
  occurs [SPACE; SPACE] r = false ->
  occurs [SPACE; SPACE] (w ++ SPACE :: r) = false.
Proof.
  intros Hns Hr1 Hr2. induction Hns as [|x w Hx Hw IH].
  - simpl app. rewrite occurs_cons, Hr2, orb_false_r.
    change (startswith [SPACE; SPACE] (SPACE :: r))
      with (N.eqb SPACE SPACE && startswith [SPACE] r).
    now rewrite Hr1, andb_false_r.
  - simpl app. rewrite occurs_cons, IH, orb_false_r.
    cbn [startswith]. replace (N.eqb SPACE x) with false; [reflexivity|].
    symmetry. apply N.eqb_neq. intros <-. discriminate.
Qed.

Lemma no_double_space_nospace (w : str) :
  nospace w -> occurs [SPACE; SPACE] w = false.
Proof.
  intros Hns. induction Hns as [|x w Hx Hw IH]; [reflexivity|].
  rewrite occurs_cons, IH, orb_false_r.
  cbn [startswith]. replace (N.eqb SPACE x) with false; [reflexivity|].
  symmetry. apply N.eqb_neq. intros <-. discriminate.
Qed.

Lemma join_words_single_spaces (ws : list str) :
  Forall word ws -> occurs [SPACE; SPACE] (join [SPACE] ws) = false.
Proof.
  intros H. induction H as [|w ws Hw Hws IH]; [reflexivity|].
  destruct ws as [|w' ws].
  - simpl join. apply no_double_space_nospace, Hw.
  - change (join [SPACE] (w :: w' :: ws))
      with (w ++ SPACE :: join [SPACE] (w' :: ws)).
    apply no_double_space_word; [apply Hw| |exact IH].
    now apply join_words_head.
Qed.

(** *** Occurrences of a pattern after a replacement *)

(** Replacing a pattern by a separator foreign to it leaves no occurrence
    of the pattern. *)
Lemma startswith_replace_sep (p : str) (sep : char) (s : str) :
  p <> [] ->
  forall q, ~ In sep q ->
  startswith q (replace p [sep] s) = true -> startswith q s = true.
Proof.
  intros Hp. revert s.
  refine (replace_ind p _ Hp _ _ _); cbv beta.
  - intros q _. now rewrite replace_nil.
  - intros rest _ q Hq. destruct p as [|a p]; [congruence|].
    rewrite replace_hit. destruct q as [|b q]; [reflexivity|].
    simpl app. cbn [startswith]. intros H.
    apply andb_true_iff in H as [H _]. apply N.eqb_eq in H. subst.
    simpl in Hq. tauto.
  - intros c s Hm IH q Hq. rewrite replace_miss by assumption.
    destruct q as [|b q]; [reflexivity|]. cbn [startswith]. intros H.
    apply andb_true_iff in H as [-> H]. simpl. apply IH; [|assumption].
    simpl in Hq. tauto.
Qed.

Lemma occurs_replace_sep (p : str) (sep : char) (s : str) :
  p <> [] -> ~ In sep p -> occurs p (replace p [sep] s) = false.
Proof.
  intros Hp Hsep. revert s.
  refine (replace_ind p _ Hp _ _ _); cbv beta.
  - rewrite replace_nil by assumption. rewrite occurs_nil.
    destruct p; [congruence|reflexivity].
  - intros rest IH. destruct p as [|a p]; [congruence|].
    rewrite replace_hit. simpl app. rewrite occurs_cons, IH, orb_false_r.
    cbn [startswith]. replace (N.eqb a sep) with false; [reflexivity|].
    symmetry. apply N.eqb_neq. intros <-. simpl in Hsep. tauto.
  - intros c s Hm IH. rewrite replace_miss by assumption.
    rewrite occurs_cons, IH, orb_false_r.
    destruct (startswith p (c :: replace p [sep] s)) eqn:E; [|reflexivity].
    rewrite <- Hm. destruct p as [|a p]; [congruence|].
    cbn [startswith] in E |- *. apply andb_true_iff in E as [-> E].
    simpl. symmetry. apply (startswith_replace_sep (a :: p) sep s); auto.
    simpl in Hsep. tauto.
Qed.

(** Substituting, for one character, a non-empty text that shares no
    character with the pattern creates no occurrence of the pattern. *)
Section Substitution.
Variable x : char.
Variable new : str.
Variable p : str.
Hypothesis new_nonempty : new <> [].
Hypothesis foreign : forall c, In c new -> ~ In c p.

Let sub := fun c : char => if N.eqb x c then new else [c].

Lemma startswith_subst (q s : str) :
  (forall c, In c q -> In c p) ->
  startswith q (flat_map sub s) = true -> startswith q s = true.
Proof.
  revert s; induction q as [|a q IH]; intros s Hq; [reflexivity|].
  destruct s as [|c s]; [simpl; discriminate|].
  cbn [flat_map]. unfold sub at 1. destruct (N.eqb x c) eqn:E.
  - destruct new as [|r new']; [congruence|]. simpl app. cbn [startswith].
    intros H. apply andb_true_iff in H as [H _]. apply N.eqb_eq in H. subst r.
    exfalso. apply (foreign a); [simpl; auto|]. apply Hq. simpl. auto.
  - simpl app. cbn [startswith]. intros H.
    apply andb_true_iff in H as [-> H]. simpl. apply IH; [|assumption].
    intros d Hd. apply Hq. simpl. auto.
Qed.

Lemma occurs_foreign_prefix (r g : str) :
  p <> [] -> (forall c, In c r -> ~ In c p) ->
  occurs p (r ++ g) = true -> occurs p g = true.
Proof.
  intros Hp. induction r as [|c r IH]; intros Hr; [auto|].
  simpl app. rewrite occurs_cons. intros H.
  apply orb_true_iff in H as [H|H].
  - destruct p as [|a p']; [congruence|]. cbn [startswith] in H.
    apply andb_true_iff in H as [H _]. apply N.eqb_eq in H. subst c.
    exfalso. apply (Hr a); simpl; auto.
  - apply IH; [|assumption]. intros d Hd. apply Hr. simpl. auto.
Qed.

Lemma occurs_subst (s : str) :
  p <> [] -> occurs p (flat_map sub s) = true -> occurs p s = true.
Proof.
  intros Hp. induction s as [|c s IH]; [auto|].
  cbn [flat_map]. unfold sub at 1. destruct (N.eqb x c) eqn:E.
  - intros H. apply occurs_tail, IH.
    now apply (occurs_foreign_prefix new).
  - simpl app. rewrite !occurs_cons. intros H.
    apply orb_true_iff in H as [H|H].
    + apply orb_true_iff. left. apply (startswith_subst p (c :: s)); [auto|].
      cbn [flat_map]. unfold sub at 1. rewrite E. exact H.
    + rewrite (IH H). apply orb_true_r.
Qed.

End Substitution.

Lemma occurs_replace_char (x : char) (new p s : str) :
  new <> [] -> (forall c, In c new -> ~ In c p) -> p <> [] ->
  occurs p (replace [x] new s) = true -> occurs p s = true.
Proof.
  intros Hn Hf Hp. rewrite replace_char. now apply occurs_subst.
Qed.

End PyStrFacts.

(** ** Facts about dictionaries *)

Module PyDictFacts.

Section DictFacts.
Context {K V : Type}.
Variable eqb : K -> K -> bool.
Hypothesis eqb_spec : forall a b, eqb a b = true <-> a = b.

Lemma eqb_refl (a : K) : eqb a a = true.
Proof. now apply eqb_spec. Qed.

Lemma get_app (a b : @dict K V) (k : K) :
  get eqb (a ++ b) k =
  match get eqb a k with Some v => Some v | None => get eqb b k end.
Proof.
  induction a as [|[k' v'] a IH]; simpl; [reflexivity|].
  destruct (eqb k' k); auto.
Qed.

Lemma get_set (d : @dict K V) (k k' : K) (v : V) :
  get eqb (set eqb d k v) k' = if eqb k k' then Some v else get eqb d k'.
Proof.
  induction d as [|[k0 v0] d IH]; simpl.
  - reflexivity.
  - destruct (eqb k0 k) eqn:E0; simpl.
    + apply eqb_spec in E0. subst k0. destruct (eqb k k'); reflexivity.
    + rewrite IH. destruct (eqb k0 k') eqn:E1; [|reflexivity].
      apply eqb_spec in E1. subst k0.
      destruct (eqb k k') eqn:E2; [|reflexivity].
      apply eqb_spec in E2. subst k'. rewrite eqb_refl in E0. discriminate.
Qed.

Lemma get_In (d : @dict K V) (k : K) (v : V) :
  get eqb d k = Some v -> In (k, v) d.
Proof.
  induction d as [|[k' v'] d IH]; simpl; [discriminate|].
  destruct (eqb k' k) eqn:E.
  - apply eqb_spec in E. intros [= ->]. subst. now left.
  - auto.
Qed.

Lemma get_value (d : @dict K V) (k : K) (v : V) :
  get eqb d k = Some v -> In v (values d).
Proof.
  intros H. apply get_In in H. unfold values.
  change v with (snd (k, v)). now apply in_map.
Qed.

Lemma get_None (d : @dict K V) (k : K) :
  get eqb d k = None <-> ~ In k (keys d).
Proof.
  induction d as [|[k' v'] d IH]; simpl.
  - tauto.
  - destruct (eqb k' k) eqn:E.
    + apply eqb_spec in E. split; [discriminate|]. intros H. exfalso. auto.
    + rewrite IH. split.
      * intros H [H'|H']; [|tauto]. subst. now rewrite eqb_refl in E.
      * tauto.
Qed.

Lemma get_unique (d : @dict K V) (k : K) (v : V) :
  NoDup (keys d) -> In (k, v) d -> get eqb d k = Some v.
Proof.
  induction d as [|[k' v'] d IH]; simpl; [tauto|].
  intros Hnd [H|H].
  - injection H as -> ->. now rewrite eqb_refl.
  - inversion Hnd as [|? ? Hk Hd]; subst.
    destruct (eqb k' k) eqn:E; [|auto].
    apply eqb_spec in E. subst k'. exfalso. apply Hk.
    change k with (fst (k, v)). now apply in_map.
Qed.

Lemma set_absent (d : @dict K V) (k : K) (v : V) :
  get eqb d k = None -> set eqb d k v = d ++ [(k, v)].
Proof.
  induction d as [|[k' v'] d IH]; simpl; [reflexivity|].
  destruct (eqb k' k); [discriminate|]. intros H. now rewrite IH.
Qed.

Lemma get_fold_set (items : list (K * V)) (d : @dict K V) (k : K) :
  get eqb (List.fold_left (fun d kv => set eqb d (fst kv) (snd kv)) items d) k =
  match get eqb (List.rev items) k with
  | Some v => Some v
  | None => get eqb d k
  end.
Proof.
  revert d; induction items as [|[k0 v0] items IH]; intros d; simpl.
  - reflexivity.
  - rewrite IH, get_app, get_set. simpl.
    destruct (get eqb (List.rev items) k); [reflexivity|].
    destruct (eqb k0 k); reflexivity.
Qed.

(** A dictionary built from items looks a key up in the last item that
    carries it. *)
Lemma get_of_items (items : list (K * V)) (k : K) :
  get eqb (of_items eqb items) k = get eqb (List.rev items) k.
Proof.
  unfold of_items. rewrite get_fold_set. simpl.
  destruct (get eqb (List.rev items) k); reflexivity.
Qed.

Lemma keys_app (a b : @dict K V) : keys (a ++ b) = keys a ++ keys b.
Proof. apply map_app. Qed.

Lemma values_app (a b : @dict K V) : values (a ++ b) = values a ++ values b.
Proof. apply map_app. Qed.

End DictFacts.

Lemma ctx_eqb_spec (a b : Z * Z) : Trigram.ctx_eqb a b = true <-> a = b.
Proof.
  destruct a as [a1 a2], b as [b1 b2]. unfold Trigram.ctx_eqb. simpl.
  rewrite andb_true_iff, !Z.eqb_eq. split; [intros [-> ->]|intros [= -> ->]]; auto.
Qed.

End PyDictFacts.

(** ** The trained vocabulary *)

Module BPEFacts.
Import BPE PyStrFacts PyDictFacts.

Lemma len_app {A} (a b : list A) : len (a ++ b) = (len a + len b)%Z.
Proof. unfold len. rewrite length_app. lia. Qed.

Lemma len_nonneg {A} (a : list A) : (0 <= len a)%Z.
Proof. unfold len. lia. Qed.

(** [fill_vocab] only appends entries; their ids are new, distinct and
    count at most the free slots. *)
Lemma fill_vocab_shape (size : Z) (toks : list (str * N)) :
  forall voc next_id slots,
  exists extra,
    fill_vocab size toks voc next_id slots = voc ++ extra /\
    Forall (fun i => (next_id <= i)%Z) (values extra) /\
    NoDup (values extra) /\
    (len extra <= Z.max 0 slots)%Z.
Proof.
  induction toks as [|[tok n] rest IH]; intros voc next_id slots.
  - exists []. rewrite app_nil_r. repeat split; try constructor.
    unfold len. simpl. lia.
  - cbn [fill_vocab].
    destruct (negb (mem str_eqb voc tok) && (0 <? slots)%Z) eqn:Efresh.
    + apply andb_true_iff in Efresh as [Hmem Hslots].
      apply Z.ltb_lt in Hslots.
      assert (Hset : set str_eqb voc tok next_id = voc ++ [(tok, next_id)]).
      { apply set_absent. unfold mem in Hmem.
        destruct (get str_eqb voc tok); [discriminate|reflexivity]. }
      rewrite Hset.
      destruct (size <=? len (voc ++ [(tok, next_id)]))%Z.
      * exists [(tok, next_id)]. repeat split.
        -- repeat constructor. simpl. lia.
        -- repeat constructor. simpl. tauto.
        -- unfold len. simpl. lia.
      * destruct (IH (voc ++ [(tok, next_id)]) (next_id + 1)%Z (slots - 1)%Z)
          as (extra & E & Hge & Hnd & Hlen).
        exists ((tok, next_id) :: extra). repeat split.
        -- now rewrite E, <- app_assoc.
        -- simpl. constructor; [lia|].
           eapply Forall_impl; [|exact Hge]. simpl. intros; lia.
        -- simpl. constructor; [|assumption].
           intros Hin. rewrite Forall_forall in Hge. apply Hge in Hin. lia.
        -- change ((tok, next_id) :: extra) with ([(tok, next_id)] ++ extra).
           rewrite len_app. change (len [(tok, next_id)]) with 1%Z. lia.
    + destruct (size <=? len voc)%Z.
      * exists []. rewrite app_nil_r. repeat split; try constructor.
        unfold len. simpl. lia.
      * destruct (IH voc next_id slots) as (extra & E & Hge & Hnd & Hlen).
        exists extra. auto.
Qed.

(** The vocabulary that [train] leaves is the special-token table followed
    by entries with distinct ids from 5 on, at most [vocab_size - 5] of
    them. *)
Lemma train_vocab_shape (self : BPETokenizer) (corpus : str) :
  exists extra,
    vocab (train self corpus) = special_tokens ++ extra /\
    Forall (fun i => (5 <= i)%Z) (values extra) /\
    NoDup (values extra) /\
    (len extra <= Z.max 0 (vocab_size self - 5))%Z.
Proof.
  unfold train.
  destruct (if (vocab_size self - len special_tokens <=? _)%Z then _ else _)
    as [vocab_words1 symbols].
  destruct (merge_loop _ _ _) as [vocab_words ms]. cbn [vocab].
  apply fill_vocab_shape.
Qed.

Lemma train_vocab_size (self : BPETokenizer) (corpus : str) :
  vocab_size (train self corpus) = vocab_size self.
Proof.
  unfold train.
  destruct (if (vocab_size self - len special_tokens <=? _)%Z then _ else _)
    as [vocab_words1 symbols].
  now destruct (merge_loop _ _ _) as [vocab_words ms].
Qed.

(** No two tokens of a trained vocabulary share an id. *)
Lemma train_vocab_ids_distinct (self : BPETokenizer) (corpus : str) :
  NoDup (values (vocab (train self corpus))).
Proof.
  destruct (train_vocab_shape self corpus) as (extra & E & Hge & Hnd & _).
  rewrite E, values_app. apply NoDup_app; [|assumption|].
  - repeat constructor; simpl; intuition discriminate.
  - rewrite Forall_forall in Hge.
    intros i Hs He. apply Hge in He.
    simpl in Hs. intuition lia.
Qed.

(** With distinct ids, the inverse dictionary of [decode] undoes the
    vocabulary. *)
Lemma id_to_token_get (self : BPETokenizer) (tok : str) (i : Z) :
  NoDup (values (vocab self)) ->
  get str_eqb (vocab self) tok = Some i ->
  get Z.eqb (id_to_token self) i = Some tok.
Proof.
  intros Hnd H. unfold id_to_token.
  rewrite (get_of_items Z.eqb Z.eqb_eq).
  apply (get_unique Z.eqb Z.eqb_eq).
  - unfold keys. rewrite map_rev, map_map. simpl.
    apply NoDup_rev. exact Hnd.
  - rewrite <- in_rev. apply (get_In str_eqb str_eqb_eq) in H.
    change (i, tok) with ((fun kv : str * Z => (snd kv, fst kv)) (tok, i)).
    now apply in_map.
Qed.

(** [decode] finds a token for exactly the ids of the vocabulary. *)
Lemma id_to_token_defined (self : BPETokenizer) (i : Z) :
  get Z.eqb (id_to_token self) i <> None <-> In i (values (vocab self)).
Proof.
  unfold id_to_token. rewrite (get_of_items Z.eqb Z.eqb_eq).
  rewrite (get_None Z.eqb Z.eqb_eq).
  unfold keys, values. rewrite map_rev, map_map. simpl.
  rewrite <- in_rev. split; [|tauto].
  intros H. destruct (in_dec Z.eq_dec i (List.map snd (vocab self))); tauto.
Qed.

End BPEFacts.

(** ** Codec: what [encode] emits and what [decode] returns *)

Module CodecFacts.
Import BPE PyStrFacts PyDictFacts BPEFacts.

Lemma train_has_specials (self : BPETokenizer) (corpus : str) :
  incl (values special_tokens) (values (vocab (train self corpus))).
Proof.
  destruct (train_vocab_shape self corpus) as (extra & E & _).
  rewrite E, values_app. intros i Hi. apply in_or_app. now left.
Qed.

Lemma encode_unit_ids (self : BPETokenizer) (w : str) (i : Z) :
  In i (encode_unit self w) ->
  In i (values special_tokens) \/ In i (values (vocab self)).
Proof.
  unfold encode_unit.
  destruct (get str_eqb special_tokens _) as [j|] eqn:E.
  - intros [<-|[]]. left. eapply get_value; [apply str_eqb_eq|exact E].
  - rewrite in_map_iff. intros (tok & <- & _). unfold get_default.
    destruct (get str_eqb (vocab self) tok) as [v|] eqn:Ev.
    + right. eapply get_value; [apply str_eqb_eq|exact Ev].
    + left. simpl. auto.
Qed.

Lemma encode_ids (self : BPETokenizer) (text : str) (i : Z) :
  In i (encode self text) ->
  In i (values special_tokens) \/ In i (values (vocab self)).
Proof.
  unfold encode. rewrite in_concat. intros (l & Hl & Hi).
  apply in_map_iff in Hl as (w & <- & _). eapply encode_unit_ids, Hi.
Qed.

(** The text that [decode] normalises at the end. *)
Lemma decode_unfold (self : BPETokenizer) (ids : list Z) :
  decode self ids =
  join [SPACE]
    (split (replace EOT_CHAR []
              (replace EOP_CHAR [10%N; 10%N]
                 (replace EOS_CHAR EOS_TEXT
                    (replace EOW [SPACE] (List.concat (decode_toks self ids))))))).
Proof. reflexivity. Qed.

Lemma decode_words (self : BPETokenizer) (ids : list Z) :
  exists ws, decode self ids = join [SPACE] ws /\ Forall word ws.
Proof. rewrite decode_unfold. eexists. split; [reflexivity|apply split_words]. Qed.

Lemma decode_no_special (self : BPETokenizer) (ids : list Z) (c : char) :
  In c (EOS_CHAR ++ EOP_CHAR ++ EOT_CHAR) -> ~ In c (decode self ids).
Proof.
  intros Hc Hin. rewrite decode_unfold in Hin.
  apply in_join in Hin as [->|(w & Hw & Hcw)].
  { simpl in Hc. intuition discriminate. }
  apply (split_in _ _ c Hw) in Hcw.
  apply in_replace_char in Hcw as [[]|[H3 Hcw]].
  apply in_replace_char in Hcw as [Hcw|[H2 Hcw]].
  { simpl in Hc, Hcw. intuition (subst; discriminate). }
  apply in_replace_char in Hcw as [Hcw|[H1 Hcw]].
  { simpl in Hc, Hcw. intuition (subst; discriminate). }
  simpl in Hc. intuition congruence.
Qed.

Lemma decode_no_marker (self : BPETokenizer) (ids : list Z) :
  ~ In 57346%N (List.concat (decode_toks self ids)) ->
  occurs EOW (decode self ids) = false.
Proof.
  intros Heot. destruct (occurs EOW (decode self ids)) eqn:E; [|reflexivity].
  exfalso. rewrite decode_unfold in E.
  set (t0 := List.concat (decode_toks self ids)) in *.
  set (t1 := replace EOW [SPACE] t0) in *.
  set (t2 := replace EOS_CHAR EOS_TEXT t1) in *.
  set (t3 := replace EOP_CHAR [10%N; 10%N] t2) in *.
  assert (H3 : ~ In 57346%N t3).
  { intros H. subst t3 t2 t1.
    apply in_replace_char in H as [H|[_ H]]; [simpl in H; intuition discriminate|].
    apply in_replace_char in H as [H|[_ H]].
    { unfold EOS_TEXT, SPACE in H. simpl in H. intuition discriminate. }
    apply in_replace in H; [|discriminate].
    destruct H as [H|H]; [|tauto].
    unfold SPACE in H. simpl in H. intuition discriminate. }
  rewrite (replace_absent EOT_CHAR [] t3) in E;
    [|discriminate|now apply not_occurs_char].
  apply occurs_join in E as (w & Hw & E);
    [|discriminate|unfold EOW, SPACE; simpl; intuition discriminate].
  apply (split_occurs _ _ _ Hw) in E. subst t3 t2.
  apply occurs_replace_char in E;
    [|discriminate| |discriminate].
  2:{ intros c Hc. unfold EOW. simpl in *. intuition (subst; discriminate). }
  apply occurs_replace_char in E;
    [|discriminate| |discriminate].
  2:{ intros c Hc. unfold EOW, EOS_TEXT, SPACE in *. simpl in *.
      intuition (subst; discriminate). }
  subst t1. rewrite occurs_replace_sep in E; [discriminate|discriminate|].
  unfold EOW, SPACE. simpl. intuition discriminate.
Qed.

End CodecFacts.

(** ** Round trip of a single word *)

Module RoundTrip.
Import BPE PyStrFacts PyDictFacts BPEFacts CodecFacts.

Lemma filter_nospace (w : str) : nospace w -> List.filter visible w = w.
Proof.
  intros H. induction H as [|c w Hc Hw IH]; [reflexivity|].
  simpl. unfold visible at 1. now rewrite Hc, IH.
Qed.

(** A replacement that only drops whitespace keeps the visible
    characters. *)
Lemma filter_replace (old new s : str) :
  old <> [] -> List.filter visible new = List.filter visible old ->
  List.filter visible (replace old new s) = List.filter visible s.
Proof.
  intros Hold Hf. revert s. refine (replace_ind old _ Hold _ _ _); cbv beta.
  - now rewrite replace_nil.
  - intros rest IH. destruct old as [|a old]; [congruence|].
    now rewrite replace_hit, !filter_app, IH, Hf.
  - intros c s Hm IH. rewrite replace_miss by assumption.
    simpl. now rewrite IH.
Qed.

Lemma filter_merge (a b s : str) :
  List.filter visible (replace (a ++ [SPACE] ++ b) (a ++ b) s) =
  List.filter visible s.
Proof.
  apply filter_replace.
  - destruct a; discriminate.
  - now rewrite !filter_app.
Qed.

Lemma filter_merges (ms : list pair) (s : str) :
  List.filter visible
    (List.fold_left
       (fun w ab => replace (fst ab ++ [SPACE] ++ snd ab) (fst ab ++ snd ab) w)
       ms s) = List.filter visible s.
Proof.
  revert s; induction ms as [|[a b] ms IH]; intros s; [reflexivity|].
  simpl fold_left. rewrite IH. apply filter_merge.
Qed.

Lemma filter_join_chars (w : str) :
  nospace w -> List.filter visible (join [SPACE] (chars w)) = w.
Proof.
  intros H. induction H as [|c w Hc Hw IH]; [reflexivity|].
  destruct w as [|d w].
  - simpl. unfold visible. now rewrite Hc.
  - change (join [SPACE] (chars (c :: d :: w)))
      with (c :: SPACE :: join [SPACE] (chars (d :: w))).
    cbn [List.filter]. unfold visible at 1 2. rewrite Hc.
    change (isspace SPACE) with true. simpl negb. cbv iota. now rewrite IH.
Qed.

(** The tokens of a word, put end to end, spell the word and the
    end-of-word marker, whatever the merge table. *)
Lemma encode_word_concat (self : BPETokenizer) (w : str) :
  nospace w -> List.concat (encode_word self w) = w ++ EOW.
Proof.
  intros H. unfold encode_word.
  rewrite concat_split. fold visible. rewrite filter_merges, filter_app.
  now rewrite filter_join_chars.
Qed.

(** *** The marker at the end of a word *)

Lemma marker_border (w : str) :
  startswith EOW (w ++ EOW) = true -> w = [] \/ startswith EOW w = true.
Proof.
  change EOW with [60; 47; 119; 62]%N.
  destruct w as [|c1 [|c2 [|c3 [|c4 w]]]]; [now left| | | |]; intros H; right;
    cbn [app startswith] in *;
    repeat match type of H with
           | (?x && _ = true) =>
               let H1 := fresh in
               apply andb_true_iff in H as [H1 H];
               try (apply N.eqb_eq in H1; try discriminate H1; subst)
           end;
    try discriminate; try reflexivity.
Qed.

Lemma replace_marker_suffix (w : str) :
  occurs EOW w = false -> replace EOW [SPACE] (w ++ EOW) = w ++ [SPACE].
Proof.
  induction w as [|c w IH]; intros H.
  - simpl app. rewrite <- (app_nil_r EOW) at 2.
    change EOW with [60; 47; 119; 62]%N. now rewrite replace_hit.
  - apply occurs_false_cons in H as [H1 H2]. simpl app.
    rewrite replace_miss, IH; [reflexivity|assumption|discriminate|].
    destruct (startswith EOW (c :: w ++ EOW)) eqn:E; [|reflexivity].
    apply (marker_border (c :: w)) in E as [E|E]; [discriminate|congruence].
Qed.

(** *** The units of [encode] *)

Lemma occurs_false_neq (a w : str) : occurs a w = false -> str_eqb a w = false.
Proof.
  intros H. destruct (str_eqb a w) eqn:E; [|reflexivity].
  apply str_eqb_eq in E. subst. now rewrite occurs_refl in H.
Qed.

(** A word without special characters or aliases reaches [encode_unit]
    unchanged. *)
Lemma separate_specials_plain (w : str) :
  occurs (lit "<EOS>") w = false -> occurs (lit "<EOP>") w = false ->
  occurs (lit "<EOT>") w = false ->
  ~ In 57344%N w -> ~ In 57345%N w -> ~ In 57346%N w ->
  _separate_specials w = w.
Proof.
  intros A1 A2 A3 S1 S2 S3. unfold _separate_specials, legacy_special_aliases.
  cbn [List.fold_left fst snd].
  rewrite (replace_absent (lit "<EOS>")) by (discriminate || assumption).
  rewrite (replace_absent (lit "<EOP>")) by (discriminate || assumption).
  rewrite (replace_absent (lit "<EOT>")) by (discriminate || assumption).
  rewrite (replace_absent EOS_CHAR) by (discriminate || now apply not_occurs_char).
  rewrite (replace_absent EOP_CHAR) by (discriminate || now apply not_occurs_char).
  rewrite (replace_absent EOT_CHAR) by (discriminate || now apply not_occurs_char).
  reflexivity.
Qed.

Lemma legacy_alias_plain (w : str) :
  occurs (lit "<EOS>") w = false -> occurs (lit "<EOP>") w = false ->
  occurs (lit "<EOT>") w = false ->
  get_default str_eqb legacy_special_aliases w w = w.
Proof.
  intros A1 A2 A3. unfold get_default, legacy_special_aliases. cbn [get].
  now rewrite !occurs_false_neq.
Qed.

(** Looking up the tokens of the vocabulary and back. *)
Lemma decode_toks_lookup (self : BPETokenizer) (toks : list str) :
  NoDup (values (vocab self)) ->
  Forall (fun tok => mem str_eqb (vocab self) tok = true) toks ->
  decode_toks self
    (List.map (fun tok => get_default str_eqb (vocab self) tok UNK_ID) toks) = toks.
Proof.
  intros Hnd H. unfold decode_toks. rewrite map_map.
  induction H as [|tok toks Ht Hts IH]; [reflexivity|].
  simpl. rewrite IH. f_equal. unfold mem in Ht. unfold get_default at 2.
  destruct (get str_eqb (vocab self) tok) as [i|] eqn:E; [|discriminate].
  unfold get_default. now rewrite (id_to_token_get self tok i Hnd E).
Qed.

(** The text [decode] starts from, for the ids of one plain word: the word
    itself when it names a special token, the word and the marker
    otherwise. *)
Lemma decode_toks_word (self : BPETokenizer) (corpus : str) (w : str) :
  let tk := train self corpus in
  nospace w ->
  occurs (lit "<EOS>") w = false -> occurs (lit "<EOP>") w = false ->
  occurs (lit "<EOT>") w = false ->
  Forall (fun tok => mem str_eqb (vocab tk) tok = true) (encode_word tk w) ->
  List.concat (decode_toks tk (encode_unit tk w)) = w \/
  List.concat (decode_toks tk (encode_unit tk w)) = w ++ EOW.
Proof.
  intros tk Hns A1 A2 A3 Hvoc. unfold encode_unit.
  rewrite legacy_alias_plain by assumption.
  destruct (get str_eqb special_tokens w) as [i|] eqn:E.
  - left. unfold decode_toks. simpl. rewrite app_nil_r.
    assert (Hget : get str_eqb (vocab tk) w = Some i).
    { destruct (train_vocab_shape self corpus) as (extra & Ev & _).
      subst tk. rewrite Ev, get_app, E. reflexivity. }
    unfold get_default.
    now rewrite (id_to_token_get tk w i (train_vocab_ids_distinct self corpus) Hget).
  - right. rewrite decode_toks_lookup.
    + now apply encode_word_concat.
    + apply train_vocab_ids_distinct.
    + exact Hvoc.
Qed.

(** The last steps of [decode] on a plain word, with or without a
    trailing space. *)
Lemma normalise_plain (t w : str) :
  word w -> ~ In 57344%N w -> ~ In 57345%N w -> ~ In 57346%N w ->
  t = w \/ t = w ++ [SPACE] ->
  join [SPACE]
    (split (replace EOT_CHAR []
              (replace EOP_CHAR [10%N; 10%N] (replace EOS_CHAR EOS_TEXT t)))) = w.
Proof.
  intros Hw S1 S2 S3 Ht.
  assert (N : forall c, c <> SPACE -> ~ In c w -> ~ In c t).
  { intros c Hc Hn. destruct Ht as [->| ->]; [assumption|].
    rewrite in_app_iff. simpl. intuition congruence. }
  rewrite (replace_absent EOS_CHAR)
    by (discriminate || (apply not_occurs_char, N; [discriminate|assumption])).
  rewrite (replace_absent EOP_CHAR)
    by (discriminate || (apply not_occurs_char, N; [discriminate|assumption])).
  rewrite (replace_absent EOT_CHAR)
    by (discriminate || (apply not_occurs_char, N; [discriminate|assumption])).
  destruct Ht as [->| ->]; [now rewrite split_word|now rewrite split_word_space].
Qed.

End RoundTrip.

(** ** Binary64 rounding *)

Module Binary64Facts.
Import Binary64.
Local Open Scope Q_scope.

(** *** Powers of two *)

Lemma pow2_pos (k : Z) : 0 < pow2 k.
Proof. apply Qpower_0_lt. reflexivity. Qed.

Lemma pow2_add (a b : Z) : pow2 (a + b) == pow2 a * pow2 b.
Proof. apply Qpower_plus. discriminate. Qed.

Lemma pow2_le (a b : Z) : (a <= b)%Z -> pow2 a <= pow2 b.
Proof. intros H. apply Qpower_le_compat_l; [exact H|discriminate]. Qed.

Lemma pow2_lt (a b : Z) : (a < b)%Z -> pow2 a < pow2 b.
Proof. intros H. apply Qpower_lt_compat_l; [exact H|reflexivity]. Qed.

Lemma pow2_lt_inv (a b : Z) : pow2 a < pow2 b -> (a < b)%Z.
Proof. intros H. apply (Qpower_lt_compat_l_inv 2); [exact H|reflexivity]. Qed.

Lemma pow2_Z (k : Z) : (0 <= k)%Z -> pow2 k == inject_Z (2 ^ k).
Proof. intros H. unfold pow2. now rewrite Zpower_Qpower. Qed.

Lemma pow2_sub (a b : Z) : pow2 (a - b) == pow2 a / pow2 b.
Proof. apply Qpower_minus. discriminate. Qed.

(** *** Rounding to an integer *)

Lemma rne_cases (x : Q) :
  (rne x = Qfloor x /\ x - inject_Z (Qfloor x) <= 1 # 2) \/
  (rne x = (Qfloor x + 1)%Z /\ 1 # 2 <= x - inject_Z (Qfloor x)).
Proof.
  unfold rne. destruct (Qcompare_spec (x - inject_Z (Qfloor x)) (1 # 2)) as [E|E|E].
  - destruct (Z.even (Qfloor x)); [left|right]; split; try reflexivity;
      rewrite E; apply Qle_refl.
  - left. split; [reflexivity|]. now apply Qlt_le_weak.
  - right. split; [reflexivity|]. now apply Qlt_le_weak.
Qed.

Lemma rne_comp (x y : Q) : x == y -> rne x = rne y.
Proof.
  intros E. unfold rne. rewrite (Qfloor_comp x y E).
  assert (E' : x - inject_Z (Qfloor y) == y - inject_Z (Qfloor y))
    by (rewrite E; reflexivity).
  now rewrite (Qcompare_comp _ _ E' _ _ (Qeq_refl (1 # 2))).
Qed.

Lemma rne_Z (z : Z) : rne (inject_Z z) = z.
Proof.
  unfold rne. rewrite Qfloor_Z.
  assert (E : inject_Z z - inject_Z z == 0) by ring.
  rewrite (Qcompare_comp _ _ E _ _ (Qeq_refl (1 # 2))). reflexivity.
Qed.

Lemma rne_le (x y : Q) : x <= y -> (rne x <= rne y)%Z.
Proof.
  intros H. pose proof (Qfloor_resp_le x y H) as Hf.
  destruct (Z.eq_dec (Qfloor x) (Qfloor y)) as [E|N].
  - unfold rne. rewrite E.
    destruct (Qcompare_spec (x - inject_Z (Qfloor y)) (1 # 2)) as [Ex|Ex|Ex];
    destruct (Qcompare_spec (y - inject_Z (Qfloor y)) (1 # 2)) as [Ey|Ey|Ey];
      destruct (Z.even (Qfloor y)); try lia; exfalso; lra.
  - destruct (rne_cases x) as [[-> _]|[-> _]], (rne_cases y) as [[-> _]|[-> _]]; lia.
Qed.

Lemma rne_err (x : Q) : Qabs (inject_Z (rne x) - x) <= 1 # 2.
Proof.
  pose proof (Qfloor_le x) as L. pose proof (Qlt_floor x) as U.
  rewrite inject_Z_plus in U. change (inject_Z 1) with 1 in U.
  apply Qabs_Qle_condition.
  destruct (rne_cases x) as [[E H]|[E H]]; rewrite E;
    [|rewrite inject_Z_plus; change (inject_Z 1) with 1]; split; lra.
Qed.

(** *** The binary logarithm *)

Lemma Zlog2_Q (n : Z) :
  (0 < n)%Z -> pow2 (Z.log2 n) <= inject_Z n /\ inject_Z n < pow2 (Z.log2 n + 1).
Proof.
  intros H. destruct (Z.log2_spec n H) as [L U].
  rewrite !pow2_Z by (pose proof (Z.log2_nonneg n); lia).
  rewrite <- Zle_Qle, <- Zlt_Qlt. replace (Z.log2 n + 1)%Z with (Z.succ (Z.log2 n)) by lia.
  auto.
Qed.

Lemma ilog2_spec (x : Q) :
  0 < x -> pow2 (ilog2 x) <= x /\ x < pow2 (ilog2 x + 1).
Proof.
  intros Hx. destruct x as [n d]. unfold ilog2. cbn [Qnum Qden].
  assert (Hn : (0 < n)%Z) by (unfold Qlt in Hx; simpl in Hx; lia).
  destruct (Zlog2_Q n Hn) as [Ln Un].
  destruct (Zlog2_Q (Zpos d)) as [Ld Ud]; [lia|].
  set (a := Z.log2 n) in *. set (b := Z.log2 (Zpos d)) in *.
  assert (Ex : n # d == inject_Z n / inject_Z (Zpos d)) by apply Qmake_Qdiv.
  assert (Hd : 0 < inject_Z (Zpos d)) by reflexivity.
  pose proof (pow2_pos a) as Pa. pose proof (pow2_pos b) as Pb.
  assert (Lo : pow2 (a - b - 1) <= n # d).
  { rewrite Ex. apply Qle_shift_div_l; [exact Hd|].
    assert (E1 : pow2 (a - b - 1) * pow2 (b + 1) == pow2 a).
    { rewrite <- pow2_add. now replace (a - b - 1 + (b + 1))%Z with a by lia. }
    pose proof (pow2_pos (a - b - 1)) as P.
    apply Qle_trans with (pow2 (a - b - 1) * pow2 (b + 1)); [|lra].
    apply Qmult_le_l; [exact P|lra]. }
  assert (Hi : n # d < pow2 (a - b + 1)).
  { rewrite Ex. apply Qlt_shift_div_r; [exact Hd|].
    assert (E1 : pow2 (a - b + 1) * pow2 b == pow2 (a + 1)).
    { rewrite <- pow2_add. now replace (a - b + 1 + b)%Z with (a + 1)%Z by lia. }
    pose proof (pow2_pos (a - b + 1)) as P.
    apply Qlt_le_trans with (pow2 (a - b + 1) * pow2 b); [lra|].
    apply Qmult_le_l; [exact P|lra]. }
  destruct (Qle_bool (pow2 (a - b)) (n # d)) eqn:E.
  - apply Qle_bool_iff in E. split; [exact E|exact Hi].
  - split; [exact Lo|].
    replace (a - b - 1 + 1)%Z with (a - b)%Z by lia.
    apply Qnot_le_lt. intros C. apply Qle_bool_iff in C. congruence.
Qed.

Lemma ilog2_unique (x : Q) (k : Z) :
  pow2 k <= x -> x < pow2 (k + 1) -> ilog2 x = k.
Proof.
  intros L U. assert (Hx : 0 < x) by (pose proof (pow2_pos k); lra).
  destruct (ilog2_spec x Hx) as [L' U'].
  assert (A : (k < ilog2 x + 1)%Z) by (apply pow2_lt_inv; lra).
  assert (B : (ilog2 x < k + 1)%Z) by (apply pow2_lt_inv; lra).
  lia.
Qed.

Lemma ilog2_le (x y : Q) : 0 < x -> x <= y -> (ilog2 x <= ilog2 y)%Z.
Proof.
  intros Hx H. assert (Hy : 0 < y) by lra.
  destruct (ilog2_spec x Hx) as [L _], (ilog2_spec y Hy) as [_ U].
  assert (A : (ilog2 x < ilog2 y + 1)%Z) by (apply pow2_lt_inv; lra).
  lia.
Qed.

(** *** Rounding to the nearest binary64 value *)

Lemma ulp_exponent_le (x y : Q) :
  0 < x -> x <= y -> (ulp_exponent x <= ulp_exponent y)%Z.
Proof.
  intros Hx H. unfold ulp_exponent. pose proof (ilog2_le x y Hx H). lia.
Qed.

Lemma rne_nonneg (x : Q) : 0 <= x -> (0 <= rne x)%Z.
Proof. intros H. rewrite <- (rne_Z 0). now apply rne_le. Qed.

Lemma nearest_pos_nonneg (x : Q) : 0 <= x -> 0 <= nearest_pos x.
Proof.
  intros H. unfold nearest_pos. pose proof (pow2_pos (ulp_exponent x)) as P.
  apply Qmult_le_0_compat; [|lra].
  change 0 with (inject_Z 0). rewrite <- Zle_Qle. apply rne_nonneg.
  apply Qle_shift_div_l; [exact P|lra].
Qed.

(** Scaling to the grid of exponent [e]. *)
Lemma scaled_le (x y : Q) (e : Z) : x <= y -> x / pow2 e <= y / pow2 e.
Proof.
  intros H. pose proof (pow2_pos e) as P.
  apply Qle_shift_div_l; [exact P|].
  unfold Qdiv. rewrite <- Qmult_assoc, (Qmult_comm (/ pow2 e)), Qmult_inv_r; lra.
Qed.

Lemma scaled_pow2 (k e : Z) :
  (e <= k)%Z -> pow2 k / pow2 e == inject_Z (2 ^ (k - e)).
Proof.
  intros H. rewrite <- pow2_sub. apply pow2_Z. lia.
Qed.

Lemma nearest_pos_le (x y : Q) :
  0 < x -> x <= y -> nearest_pos x <= nearest_pos y.
Proof.
  intros Hx H. assert (Hy : 0 < y) by lra.
  pose proof (ulp_exponent_le x y Hx H) as He. unfold nearest_pos.
  set (ex := ulp_exponent x) in *. set (ey := ulp_exponent y) in *.
  pose proof (pow2_pos ex) as Px. pose proof (pow2_pos ey) as Py.
  destruct (Z.eq_dec ex ey) as [E|N].
  - rewrite E. apply Qmult_le_compat_r; [|lra].
    rewrite <- Zle_Qle. apply rne_le. now apply scaled_le.
  - (* the power of two between them belongs to both grids *)
    assert (Hey : ey = (ilog2 y - 52)%Z).
    { unfold ey, ex, ulp_exponent in *. lia. }
    assert (Hex : (ilog2 x - 52 <= ex)%Z).
    { unfold ex, ulp_exponent. lia. }
    destruct (ilog2_spec x Hx) as [_ Ux]. destruct (ilog2_spec y Hy) as [Ly _].
    set (k := (ey + 52)%Z).
    assert (Hk : pow2 k <= y) by (unfold k; rewrite Hey;
      now replace (ilog2 y - 52 + 52)%Z with (ilog2 y) by lia).
    assert (Hk' : x <= pow2 k).
    { apply Qle_trans with (pow2 (ilog2 x + 1)); [lra|]. apply pow2_le. unfold k. lia. }
    apply Qle_trans with (pow2 k).
    + assert (L : (rne (x / pow2 ex) <= 2 ^ (k - ex))%Z).
      { rewrite <- (rne_Z (2 ^ (k - ex))).
        rewrite <- (rne_comp _ _ (scaled_pow2 k ex ltac:(unfold k; lia))).
        apply rne_le. now apply scaled_le. }
      apply Qle_trans with (inject_Z (2 ^ (k - ex)) * pow2 ex).
      * apply Qmult_le_compat_r; [|lra]. now rewrite <- Zle_Qle.
      * rewrite <- pow2_Z by (unfold k; lia). rewrite <- pow2_add.
        replace (k - ex + ex)%Z with k by lia. apply Qle_refl.
    + assert (L : (2 ^ (k - ey) <= rne (y / pow2 ey))%Z).
      { rewrite <- (rne_Z (2 ^ (k - ey))).
        rewrite <- (rne_comp _ _ (scaled_pow2 k ey ltac:(unfold k; lia))).
        apply rne_le. now apply scaled_le. }
      apply Qle_trans with (inject_Z (2 ^ (k - ey)) * pow2 ey).
      * rewrite <- pow2_Z by (unfold k; lia). rewrite <- pow2_add.
        replace (k - ey + ey)%Z with k by lia. apply Qle_refl.
      * apply Qmult_le_compat_r; [|lra]. now rewrite <- Zle_Qle.
Qed.

Lemma nearest_pos_err (x : Q) :
  Qabs (nearest_pos x - x) <= (1 # 2) * pow2 (ulp_exponent x).
Proof.
  unfold nearest_pos. set (e := ulp_exponent x).
  pose proof (pow2_pos e) as P. pose proof (rne_err (x / pow2 e)) as H.
  assert (E : inject_Z (rne (x / pow2 e)) * pow2 e - x ==
              (inject_Z (rne (x / pow2 e)) - x / pow2 e) * pow2 e)
    by (field; lra).
  rewrite E, Qabs_Qmult, (Qabs_pos (pow2 e)) by lra.
  apply Qmult_le_compat_r; [exact H|lra].
Qed.

Lemma nearest_comp (x y : Q) : x == y -> nearest x = nearest y.
Proof. intros E. unfold nearest. now rewrite (Qred_complete x y E). Qed.

Lemma nearest_cases (x : Q) :
  (x < 0 /\ nearest x == - nearest_pos (- Qred x)) \/
  (x == 0 /\ nearest x = 0) \/
  (0 < x /\ nearest x == nearest_pos (Qred x)).
Proof.
  unfold nearest. pose proof (Qred_correct x) as E.
  destruct (Qcompare_spec (Qred x) 0) as [H|H|H].
  - right. left. split; [lra|reflexivity].
  - left. split; [lra|]. apply Qred_correct.
  - right. right. split; [lra|]. apply Qred_correct.
Qed.

Lemma nearest_nonneg (x : Q) : 0 <= x -> 0 <= nearest x.
Proof.
  intros H. pose proof (Qred_correct x) as E.
  destruct (nearest_cases x) as [[C _]|[[_ ->]|[C ->]]]; [lra|lra|].
  apply nearest_pos_nonneg. lra.
Qed.

Lemma nearest_le (x y : Q) : x <= y -> nearest x <= nearest y.
Proof.
  intros H. pose proof (Qred_correct x) as Ex. pose proof (Qred_correct y) as Ey.
  destruct (nearest_cases x) as [[Cx Nx]|[[Cx Nx]|[Cx Nx]]];
  destruct (nearest_cases y) as [[Cy Ny]|[[Cy Ny]|[Cy Ny]]];
    rewrite Nx, Ny; try (exfalso; lra).
  - assert (L : nearest_pos (- Qred y) <= nearest_pos (- Qred x))
      by (apply nearest_pos_le; lra). lra.
  - pose proof (nearest_pos_nonneg (- Qred x)). lra.
  - pose proof (nearest_pos_nonneg (- Qred x)).
    pose proof (nearest_pos_nonneg (Qred y)). lra.
  - lra.
  - apply nearest_pos_nonneg. lra.
  - apply nearest_pos_le; lra.
Qed.

(** Up to 1 the grid is at least as fine as 2^-53, and 1 is on it. *)
Lemma nearest_err_unit (x : Q) :
  0 <= x -> x <= 1 -> Qabs (nearest x - x) <= pow2 (-54).
Proof.
  intros H0 H1. pose proof (Qred_correct x) as E.
  pose proof (pow2_pos (-54)) as P54.
  destruct (nearest_cases x) as [[C _]|[[C ->]|[C ->]]]; [lra| |].
  - apply Qabs_Qle_condition. split; lra.
  - destruct (Qlt_le_dec x 1) as [L|G].
    + eapply Qle_trans; [|].
      * assert (E' : nearest_pos (Qred x) - x == nearest_pos (Qred x) - Qred x)
          by lra.
        rewrite E'. apply nearest_pos_err.
      * assert (He : (ulp_exponent (Qred x) <= -53)%Z).
        { unfold ulp_exponent.
          assert (A : (ilog2 (Qred x) < 0)%Z).
          { apply pow2_lt_inv. destruct (ilog2_spec (Qred x)) as [Lo _]; [lra|].
            change (pow2 0) with 1. lra. }
          lia. }
        apply Qle_trans with ((1 # 2) * pow2 (-53)).
        -- apply Qmult_le_l; [reflexivity|]. now apply pow2_le.
        -- change (-53)%Z with (1 + -54)%Z. rewrite pow2_add.
           change (pow2 1) with 2. lra.
    + assert (X : x == 1) by lra.
      assert (N : nearest_pos (Qred x) == 1).
      { rewrite (Qred_complete x 1 X). vm_compute. reflexivity. }
      apply Qabs_Qle_condition. split; lra.
Qed.

Lemma nearest_0 : nearest 0 = 0.
Proof. reflexivity. Qed.

Lemma nearest_1 : nearest 1 = 1.
Proof. vm_compute. reflexivity. Qed.

(** *** Binary64 results *)

Lemma round_comp (x y : Q) : x == y -> round x = round y.
Proof. intros E. unfold round. now rewrite (nearest_comp x y E). Qed.

Lemma round_finite (x : Q) :
  Qabs (nearest x) < pow2 1024 -> round x = Finite (nearest x).
Proof.
  intros H. unfold round.
  destruct (Qle_bool (pow2 1024) (Qabs (nearest x))) eqn:E; [|reflexivity].
  apply Qle_bool_iff in E. lra.
Qed.

Lemma round_0 : round 0 = Finite 0.
Proof. vm_compute. reflexivity. Qed.

(** A result between 0 and 1 stays there, and is finite. *)
Lemma round_unit (x : Q) :
  0 <= x -> x <= 1 ->
  round x = Finite (nearest x) /\ 0 <= nearest x /\ nearest x <= 1.
Proof.
  intros H0 H1. pose proof (nearest_nonneg x H0) as L.
  pose proof (nearest_le x 1 H1) as U. rewrite nearest_1 in U.
  split; [|split; assumption].
  apply round_finite. rewrite Qabs_pos by exact L.
  apply Qle_lt_trans with 1; [exact U|].
  change 1 with (pow2 0). now apply pow2_lt.
Qed.

End Binary64Facts.

(** ** The trigram model *)

Module TrigramFacts.
Import Binary64 Trigram PyDictFacts Binary64Facts.

(** *** Totals and counts *)

Lemma total_of_add (c : @counter Z) (k : Z) (n : N) :
  total_of (add Z.eqb c k n) = (total_of c + n)%N.
Proof.
  unfold add, count, get_default, total_of.
  induction c as [|[k' v'] c IH]; simpl.
  - lia.
  - destruct (Z.eqb k' k) eqn:E; simpl.
    + lia.
    + destruct (get Z.eqb c k); simpl in *; rewrite IH; lia.
Qed.

Lemma count_le_total (c : @counter Z) (w : Z) :
  (count Z.eqb c w <= total_of c)%N.
Proof.
  unfold count, get_default, total_of.
  induction c as [|[k v] c IH]; simpl; [lia|].
  destruct (Z.eqb k w); [lia|].
  destruct (get Z.eqb c w); simpl in *; lia.
Qed.

Section Nested.
Context {K : Type}.
Variable eqb : K -> K -> bool.
Hypothesis eqb_spec : forall a b, eqb a b = true <-> a = b.

(** One counting step keeps a table of totals in line with its table of
    counters. *)
Lemma nested_step (c : @dict K (@counter Z)) (tot : @dict K N) (k : K) (x : Z) :
  (forall w, get_default eqb tot w 0%N = total_of (get_default eqb c w [])) ->
  forall w, get_default eqb (bump eqb tot k) w 0%N =
            total_of (get_default eqb (add_nested eqb c k x) w []).
Proof.
  intros H w. unfold bump, add_nested, get_default in *.
  rewrite !(get_set eqb eqb_spec).
  destruct (eqb k w) eqn:E; [|apply H].
  rewrite total_of_add. specialize (H k).
  destruct (get eqb tot k), (get eqb c k);
    change (total_of []) with 0%N in *; simpl in *; lia.
Qed.

End Nested.

Lemma train_unigrams_total (ids : list Z) :
  forall c total c' total',
  train_unigrams ids c total = (c', total') ->
  total = total_of c -> total' = total_of c'.
Proof.
  induction ids as [|t ids IH]; intros c total c' total' E H; simpl in E.
  - now injection E as <- <-.
  - apply (IH _ _ _ _ E). rewrite total_of_add. lia.
Qed.

Lemma train_bigrams_total (ids : list Z) :
  forall c tot c' tot',
  train_bigrams ids c tot = (c', tot') ->
  (forall w, get_default Z.eqb tot w 0%N = total_of (get_default Z.eqb c w [])) ->
  forall w, get_default Z.eqb tot' w 0%N = total_of (get_default Z.eqb c' w []).
Proof.
  induction ids as [|w1 ids IH]; intros c tot c' tot' E H.
  - now injection E as <- <-.
  - destruct ids as [|w2 ids]; [now injection E as <- <-|].
    change (train_bigrams (w1 :: w2 :: ids) c tot)
      with (train_bigrams (w2 :: ids) (add_nested Z.eqb c w1 w2) (bump Z.eqb tot w1))
      in E.
    apply (IH _ _ _ _ E). now apply (nested_step Z.eqb Z.eqb_eq).
Qed.

Lemma train_trigrams_total (ids : list Z) :
  forall c tot c' tot',
  train_trigrams ids c tot = (c', tot') ->
  (forall w, get_default ctx_eqb tot w 0%N = total_of (get_default ctx_eqb c w [])) ->
  forall w, get_default ctx_eqb tot' w 0%N = total_of (get_default ctx_eqb c' w []).
Proof.
  induction ids as [|w1 ids IH]; intros c tot c' tot' E H.
  - now injection E as <- <-.
  - destruct ids as [|w2 ids]; [now injection E as <- <-|].
    destruct ids as [|w3 ids]; [now injection E as <- <-|].
    change (train_trigrams (w1 :: w2 :: w3 :: ids) c tot)
      with (train_trigrams (w2 :: w3 :: ids) (add_nested ctx_eqb c (w1, w2) w3)
                           (bump ctx_eqb tot (w1, w2)))
      in E.
    apply (IH _ _ _ _ E). now apply (nested_step ctx_eqb ctx_eqb_spec).
Qed.

(** The tables that [train] builds are consistent. *)
Lemma train_consistent (self : TrigramLanguageModel) (ids : list Z) :
  consistent (train self ids).
Proof.
  unfold train.
  destruct (train_unigrams ids [] 0%N) as [uni total] eqn:E1.
  destruct (train_bigrams ids [] []) as [bi bitot] eqn:E2.
  destruct (train_trigrams ids [] []) as [tri tritot] eqn:E3.
  split; [|split]; cbn [total_unigrams unigram_counts total_bigrams
                        bigram_counts total_trigrams trigram_counts].
  - now apply (train_unigrams_total _ _ _ _ _ E1).
  - apply (train_bigrams_total _ _ _ _ _ E2). reflexivity.
  - apply (train_trigrams_total _ _ _ _ _ E3). reflexivity.
Qed.

(** *** Probabilities *)

Lemma relative_frequency_bounds (c total : N) :
  (c <= total)%N -> 0 <= relative_frequency c total <= 1.
Proof.
  intros Hle. unfold relative_frequency.
  destruct (total =? 0)%N eqn:E.
  - split; [apply Qle_refl|discriminate].
  - apply N.eqb_neq in E.
    assert (Hpos : 0 < inject_Z (Z.of_N total)).
    { change 0 with (inject_Z 0). rewrite <- Zlt_Qlt. lia. }
    split.
    + apply Qle_shift_div_l; [exact Hpos|]. rewrite Qmult_0_l.
      change 0 with (inject_Z 0). rewrite <- Zle_Qle. lia.
    + apply Qle_shift_div_r; [exact Hpos|]. rewrite Qmult_1_l.
      rewrite <- Zle_Qle. lia.
Qed.

(** Each factor of the code is the relative frequency, rounded once. *)
Lemma probability_rounds (c total : N) :
  (if (total =? 0)%N then Finite 0 else ratio c total) =
  round (relative_frequency c total).
Proof.
  unfold relative_frequency, ratio, truediv.
  destruct (total =? 0)%N; [now rewrite round_0|reflexivity].
Qed.

Lemma get_interpolated_prob_rounds (self : TrigramLanguageModel) (w1 w2 w3 : Z) :
  get_interpolated_prob self w1 w2 w3 =
  fadd (fadd (fmul (lambda1 self)
                (round (relative_frequency
                   (count Z.eqb (unigram_counts self) w3) (total_unigrams self))))
             (fmul (lambda2 self)
                (round (relative_frequency
                   (count Z.eqb (get_default Z.eqb (bigram_counts self) w2 []) w3)
                   (get_default Z.eqb (total_bigrams self) w2 0%N)))))
       (fmul (lambda3 self)
          (round (relative_frequency
             (count Z.eqb
                (get_default ctx_eqb (trigram_counts self) (w1, w2) []) w3)
             (get_default ctx_eqb (total_trigrams self) (w1, w2) 0%N)))).
Proof.
  unfold get_interpolated_prob, _p1, _p2, _p3. now rewrite !probability_rounds.
Qed.

(** The weights of the constructor: the binary64 values nearest to 0.1, 0.3
    and 0.6. *)
Lemma init_weights :
  lambda1 init = Finite (3602879701896397 # 36028797018963968) /\
  lambda2 init = Finite (5404319552844595 # 18014398509481984) /\
  lambda3 init = Finite (5404319552844595 # 9007199254740992).
Proof. vm_compute. auto. Qed.

(** They are the machine's binary64 numbers for these literals. *)
Lemma init_weights_binary64 :
  let '(l1, l2, l3) := binary64_weights in
  lambda1 init = of_prim l1 /\ lambda2 init = of_prim l2 /\
  lambda3 init = of_prim l3.
Proof. vm_compute. auto. Qed.

(** In binary64 arithmetic the weights of the constructor add up to
    exactly 1. *)
Lemma init_weights_sum :
  fadd (fadd (lambda1 init) (lambda2 init)) (lambda3 init) = Finite 1.
Proof. vm_compute. reflexivity. Qed.

(** The same sum on the machine's own binary64 numbers. *)
Lemma binary64_weights_sum :
  let '(l1, l2, l3) := binary64_weights in
  PrimFloat.eqb (PrimFloat.add (PrimFloat.add l1 l2) l3) 1%float = true.
Proof. vm_compute. reflexivity. Qed.

(** The rounding of this development and the machine's agree on the
    operations of [get_interpolated_prob], on a quotient that is not
    exact, on a sum that rounds up, on a tie in the subnormal range and on
    an overflow. *)
Lemma binary64_agreement :
  let '(l1, l2, l3) := binary64_weights in
  of_prim (l1 * (1 / 8) + l2 * (1 / 3) + l3 * (1 / 1))%float =
    fadd (fadd (fmul (of_prim l1) (truediv 1 8)) (fmul (of_prim l2) (truediv 1 3)))
         (fmul (of_prim l3) (truediv 1 1)) /\
  of_prim (l1 / l2)%float = fdiv (of_prim l1) (of_prim l2) /\
  of_prim (l1 + 0x1.999999999999ap-3)%float =
    fadd (of_prim l1) (of_prim 0x1.999999999999ap-3) /\
  of_prim (0x1p-1074 * 0x1p-1)%float =
    fmul (of_prim 0x1p-1074) (of_prim 0x1p-1) /\
  of_prim (0x3p-1074 * 0x1p-1)%float =
    fmul (of_prim 0x3p-1074) (of_prim 0x1p-1) /\
  of_prim (0x1.fffffffffffffp1023 + 0x1p970)%float =
    fadd (of_prim 0x1.fffffffffffffp1023) (of_prim 0x1p970).
Proof. vm_compute. repeat split. Qed.

Ltac unit_interval H :=
  apply Qabs_Qle_condition in H;
  change (pow2 (-54)) with (1 # 18014398509481984) in H.

(** The interpolation of three values between 0 and 1 with the weights of
    the constructor: five roundings, each in the unit interval. *)
Lemma interpolation_unit (u b t : Q) :
  0 <= u <= 1 -> 0 <= b <= 1 -> 0 <= t <= 1 ->
  exists p,
    fadd (fadd (fmul (lambda1 init) (round u)) (fmul (lambda2 init) (round b)))
         (fmul (lambda3 init) (round t)) = Finite p /\
    0 <= p <= 1 /\
    Qabs (p - ((1 # 10) * u + (3 # 10) * b + (6 # 10) * t)) <= pow2 (-51) /\
    (pow2 (-63) <= u -> 0 < p).
Proof.
  intros [U0 U1] [B0 B1] [T0 T1].
  destruct init_weights as (-> & -> & ->).
  destruct (round_unit u U0 U1) as (-> & Pu0 & Pu1).
  destruct (round_unit b B0 B1) as (-> & Pb0 & Pb1).
  destruct (round_unit t T0 T1) as (-> & Pt0 & Pt1).
  pose proof (nearest_err_unit u U0 U1) as Eu.
  pose proof (nearest_err_unit b B0 B1) as Eb.
  pose proof (nearest_err_unit t T0 T1) as Et.
  assert (Mu : pow2 (-63) <= u -> (1 # 9223372036854775808) <= nearest u).
  { intros H. apply nearest_le in H.
    assert (E : nearest (pow2 (-63)) = (1 # 9223372036854775808))
      by (vm_compute; reflexivity).
    now rewrite E in H. }
  set (pu := nearest u) in *. set (pb := nearest b) in *.
  set (pt := nearest t) in *. clearbody pu pb pt.
  cbn [fmul].
  (* the three products *)
  set (x1 := (3602879701896397 # 36028797018963968) * pu).
  set (x2 := (5404319552844595 # 18014398509481984) * pb).
  set (x3 := (5404319552844595 # 9007199254740992) * pt).
  assert (X1 : 0 <= x1 /\ x1 <= 3602879701896397 # 36028797018963968)
    by (unfold x1; split; lra).
  assert (X2 : 0 <= x2 /\ x2 <= 5404319552844595 # 18014398509481984)
    by (unfold x2; split; lra).
  assert (X3 : 0 <= x3 /\ x3 <= 5404319552844595 # 9007199254740992)
    by (unfold x3; split; lra).
  destruct (round_unit x1) as (-> & A1 & _); [lra|lra|].
  destruct (round_unit x2) as (-> & A2 & _); [lra|lra|].
  destruct (round_unit x3) as (-> & A3 & _); [lra|lra|].
  pose proof (nearest_err_unit x1 ltac:(lra) ltac:(lra)) as E1.
  pose proof (nearest_err_unit x2 ltac:(lra) ltac:(lra)) as E2.
  pose proof (nearest_err_unit x3 ltac:(lra) ltac:(lra)) as E3.
  pose proof (nearest_le x1 _ (proj2 X1)) as M1.
  pose proof (nearest_le x2 _ (proj2 X2)) as M2.
  pose proof (nearest_le x3 _ (proj2 X3)) as M3.
  assert (N1 : nearest (3602879701896397 # 36028797018963968)
               = (3602879701896397 # 36028797018963968)) by (vm_compute; reflexivity).
  assert (N2 : nearest (5404319552844595 # 18014398509481984)
               = (5404319552844595 # 18014398509481984)) by (vm_compute; reflexivity).
  assert (N3 : nearest (5404319552844595 # 9007199254740992)
               = (5404319552844595 # 9007199254740992)) by (vm_compute; reflexivity).
  rewrite N1 in M1. rewrite N2 in M2. rewrite N3 in M3.
  assert (Ma : pow2 (-63) <= u ->
               (3602879701896397 # 332306998946228968225951765070086144) <= nearest x1).
  { intros H. apply Mu in H.
    assert (L : (3602879701896397 # 332306998946228968225951765070086144) <= x1)
      by (unfold x1; lra).
    apply nearest_le in L.
    assert (E : nearest (3602879701896397 # 332306998946228968225951765070086144)
                = (3602879701896397 # 332306998946228968225951765070086144))
      by (vm_compute; reflexivity).
    now rewrite E in L. }
  set (a1 := nearest x1) in *. set (a2 := nearest x2) in *.
  set (a3 := nearest x3) in *. clearbody a1 a2 a3.
  cbn [fadd].
  (* the first sum *)
  assert (S0 : 0 <= a1 + a2 /\ a1 + a2 <= 1) by (split; lra).
  destruct (round_unit (a1 + a2)) as (-> & S1 & _); [lra|lra|].
  pose proof (nearest_err_unit (a1 + a2) ltac:(lra) ltac:(lra)) as E4.
  assert (M4 : nearest (a1 + a2) <= 3602879701896397 # 9007199254740992).
  { assert (L : a1 + a2 <= (3602879701896397 # 36028797018963968)
                           + (5404319552844595 # 18014398509481984)) by lra.
    apply nearest_le in L.
    assert (E : nearest ((3602879701896397 # 36028797018963968)
                         + (5404319552844595 # 18014398509481984))
                = (3602879701896397 # 9007199254740992)) by (vm_compute; reflexivity).
    now rewrite E in L. }
  assert (Ms : pow2 (-63) <= u ->
               (3602879701896397 # 332306998946228968225951765070086144)
                 <= nearest (a1 + a2)).
  { intros H. apply Ma in H.
    assert (L : (3602879701896397 # 332306998946228968225951765070086144) <= a1 + a2)
      by lra.
    apply nearest_le in L.
    assert (E : nearest (3602879701896397 # 332306998946228968225951765070086144)
                = (3602879701896397 # 332306998946228968225951765070086144))
      by (vm_compute; reflexivity).
    now rewrite E in L. }
  set (s := nearest (a1 + a2)) in *. clearbody s.
  cbn [fadd].
  (* the second sum *)
  destruct (round_unit (s + a3)) as (-> & P0 & P1); [lra|lra|].
  pose proof (nearest_err_unit (s + a3) ltac:(lra) ltac:(lra)) as E5.
  exists (nearest (s + a3)). split; [reflexivity|]. split; [split; assumption|].
  split.
  - unit_interval Eu. unit_interval Eb. unit_interval Et.
    unit_interval E1. unit_interval E2. unit_interval E3.
    unit_interval E4. unit_interval E5.
    apply Qabs_Qle_condition. change (pow2 (-51)) with (1 # 2251799813685248).
    unfold x1, x2, x3 in *. split; lra.
  - intros H. apply Ms in H.
    assert (L : (3602879701896397 # 332306998946228968225951765070086144) <= s + a3)
      by lra.
    apply nearest_le in L.
    assert (E : nearest (3602879701896397 # 332306998946228968225951765070086144)
                = (3602879701896397 # 332306998946228968225951765070086144))
      by (vm_compute; reflexivity).
    rewrite E in L. lra.
Qed.

(** *** The sampler *)

(** Rounding to binary64 turns no other id into PAD or UNK. *)
Lemma numpy_int_allowed (tokens : list Z) (x : Z) :
  x <> pad_id -> x <> unk_id ->
  numpy_int tokens x <> pad_id /\ numpy_int tokens x <> unk_id.
Proof.
  unfold pad_id, unk_id. intros H0 H1. unfold numpy_int.
  destruct (List.forallb in_int64 tokens); [auto|].
  destruct (List.forallb in_uint64 tokens); [auto|].
  destruct (List.forallb _ tokens); [|auto].
  unfold of_int, round.
  destruct (Qle_bool _ _); [auto|].
  destruct (Z_lt_le_dec x 0) as [L|G].
  - assert (Hx : inject_Z x <= inject_Z (-1)) by (rewrite <- Zle_Qle; lia).
    apply nearest_le, Qfloor_resp_le in Hx.
    assert (E : nearest (inject_Z (-1)) = inject_Z (-1)) by (vm_compute; reflexivity).
    rewrite E, Qfloor_Z in Hx. lia.
  - assert (Hx : inject_Z 2 <= inject_Z x) by (rewrite <- Zle_Qle; lia).
    apply nearest_le, Qfloor_resp_le in Hx.
    assert (E : nearest (inject_Z 2) = inject_Z 2) by (vm_compute; reflexivity).
    rewrite E, Qfloor_Z in Hx. lia.
Qed.

(** Ids that all fit in 64 signed bits come back as they are. *)
Lemma numpy_int_int64 (tokens : list Z) (x : Z) :
  List.forallb in_int64 tokens = true -> numpy_int tokens x = x.
Proof. intros H. unfold numpy_int. now rewrite H. Qed.

Lemma choice_in (t0 : Z) (rest : list Z) (probs : list float64) (u : Q) :
  exists x, In x (t0 :: rest) /\ choice t0 rest probs u = numpy_int (t0 :: rest) x.
Proof.
  unfold choice.
  set (idx := searchsorted_right _ u).
  exists (List.nth idx (t0 :: rest) (List.last rest t0)). split; [|reflexivity].
  destruct (nth_in_or_default idx (t0 :: rest) (List.last rest t0)) as [H|H];
    [exact H|].
  rewrite H. destruct rest as [|t1 rest]; [now left|]. right.
  pose proof (@app_removelast_last Z (t1 :: rest) t0 ltac:(discriminate)) as E.
  set (x := List.last (t1 :: rest) t0) in *.
  rewrite E. apply in_or_app. right. now left.
Qed.

Lemma candidates_allowed (self : TrigramLanguageModel) (context : Z * Z) (x : Z) :
  In x (candidates self context) -> x <> pad_id /\ x <> unk_id.
Proof.
  unfold candidates, set_discard. rewrite !filter_In.
  intros [[_ H0] H1].
  apply negb_true_iff, Z.eqb_neq in H0, H1. auto.
Qed.

Lemma generate_next_token_cases (self : TrigramLanguageModel)
  (context : Z * Z) (u : Q) :
  (candidates self context = [] /\ generate_next_token self context u = eos_id) \/
  exists x,
    In x (candidates self context) /\
    generate_next_token self context u = numpy_int (candidates self context) x.
Proof.
  unfold generate_next_token. destruct context as [w1 w2].
  destruct (candidates self (w1, w2)) as [|t0 rest].
  - now left.
  - right. apply choice_in.
Qed.

Lemma sampler_allowed (self : TrigramLanguageModel) (context : Z * Z) (u : Q) :
  generate_next_token self context u <> pad_id /\
  generate_next_token self context u <> unk_id.
Proof.
  destruct (generate_next_token_cases self context u) as [[_ ->]|(x & Hin & ->)].
  - split; discriminate.
  - apply candidates_allowed in Hin as [H0 H1]. now apply numpy_int_allowed.
Qed.

End TrigramFacts.

(** ** The generation loop *)

Module GeneratorFacts.
Import BPE Trigram Generator.

Lemma loop_body_skip (tokenizer : BPETokenizer) (st : gen_state) (x : Z) :
  x = pad_id \/ x = unk_id -> loop_body tokenizer st x = (st, Continue).
Proof. intros [->| ->]; reflexivity. Qed.

Lemma loop_body_eot (tokenizer : BPETokenizer) (st : gen_state) :
  loop_body tokenizer st eot_id = (st, Break).
Proof. reflexivity. Qed.

(** What a sampled end-of-sentence or end-of-paragraph id does. *)
Lemma loop_body_special (tokenizer : BPETokenizer) (st : gen_state) (x : Z) :
  special x ->
  let st' := mkGen (ctx st ++ [x]) (generated_ids st ++ [x])
                   (consecutive_special st + 1) (emitted st) in
  (loop_body tokenizer st x = (st', Break) /\
   (3 <= consecutive_special st + 1)%Z) \/
  (exists fragment,
     loop_body tokenizer st x = (yield st' (Ev_token fragment), Continue) /\
     (consecutive_special st + 1 < 3)%Z).
Proof.
  intros [->| ->] st'; unfold loop_body; simpl Z.eqb; cbv iota;
    cbn [set_special consecutive_special ctx generated_ids emitted];
    fold st';
    (destruct (3 <=? consecutive_special st + 1)%Z eqn:E;
     [left; split; [reflexivity|now apply Z.leb_le]
     |right; eexists; split; [reflexivity|now apply Z.leb_gt]]).
Qed.

Lemma loop_body_ordinary (tokenizer : BPETokenizer) (st : gen_state) (x : Z) :
  ordinary x ->
  consecutive_special (fst (loop_body tokenizer st x)) = 0%Z /\
  snd (loop_body tokenizer st x) = Continue.
Proof.
  intros (H0 & H1 & H2 & H3 & H4). unfold loop_body.
  apply Z.eqb_neq in H0, H1, H2, H3, H4. rewrite H4, H0, H1, H2, H3. simpl orb. cbv iota.
  destruct (strip (decode tokenizer [x])); auto.
Qed.

(** A step only ever adds token events, and none when it ends the loop. *)
Lemma loop_body_emitted (tokenizer : BPETokenizer) (st : gen_state) (x : Z) :
  exists fragments,
    emitted (fst (loop_body tokenizer st x)) = emitted st ++ fragments /\
    List.forallb is_token fragments = true /\
    (snd (loop_body tokenizer st x) = Break -> fragments = []).
Proof.
  unfold loop_body.
  destruct (x =? eot_id)%Z; [exists []; now rewrite app_nil_r|].
  destruct ((x =? pad_id) || (x =? unk_id))%Z; [exists []; now rewrite app_nil_r|].
  destruct (x =? eos_id)%Z.
  { cbn [set_special consecutive_special emitted].
    destruct (3 <=? _)%Z; [exists []; now rewrite app_nil_r|].
    eexists [_]. repeat split. discriminate. }
  destruct (x =? eop_id)%Z.
  { cbn [set_special consecutive_special emitted].
    destruct (3 <=? _)%Z; [exists []; now rewrite app_nil_r|].
    eexists [_]. repeat split. discriminate. }
  destruct (strip (decode tokenizer [x])).
  - exists []. now rewrite app_nil_r.
  - eexists [_]. repeat split. discriminate.
Qed.

Lemma loop_body_counter (tokenizer : BPETokenizer) (st : gen_state) (x : Z) :
  (0 <= consecutive_special st)%Z ->
  (0 <= consecutive_special (fst (loop_body tokenizer st x)))%Z.
Proof.
  intros H. unfold loop_body.
  destruct (x =? eot_id)%Z; [exact H|].
  destruct ((x =? pad_id) || (x =? unk_id))%Z; [exact H|].
  destruct (x =? eos_id)%Z.
  { cbn [set_special consecutive_special].
    destruct (3 <=? _)%Z; simpl; lia. }
  destruct (x =? eop_id)%Z.
  { cbn [set_special consecutive_special].
    destruct (3 <=? _)%Z; simpl; lia. }
  destruct (strip (decode tokenizer [x])); simpl; lia.
Qed.

Section LoopFacts.
Variable sample : nat -> Z * Z -> Z.
Variable tokenizer : BPETokenizer.

(** The id sampled at [step] in state [st]. *)
Let drawn (step : nat) (st : gen_state) : Z :=
  sample step (from_end (ctx st) 2, from_end (ctx st) 1).

Lemma gen_loop_continue (n step : nat) (st st' : gen_state) :
  loop_body tokenizer st (drawn step st) = (st', Continue) ->
  gen_loop sample tokenizer (S n) step st = gen_loop sample tokenizer n (S step) st' /\
  sampled sample tokenizer (S n) step st =
    drawn step st :: sampled sample tokenizer n (S step) st'.
Proof. intros H. unfold drawn in *. cbn [gen_loop sampled]. now rewrite H. Qed.

Lemma gen_loop_break (n step : nat) (st st' : gen_state) :
  loop_body tokenizer st (drawn step st) = (st', Break) ->
  gen_loop sample tokenizer (S n) step st = st' /\
  sampled sample tokenizer (S n) step st = [drawn step st].
Proof. intros H. unfold drawn in *. cbn [gen_loop sampled]. now rewrite H. Qed.

(** The first id of the log is the one drawn, and the log goes on only
    after a step that continues. *)
Lemma sampled_inv (n step : nat) (st : gen_state) (x : Z) (l : list Z) :
  sampled sample tokenizer n step st = x :: l ->
  exists n', n = S n' /\ x = drawn step st /\
    ((exists st', loop_body tokenizer st x = (st', Break) /\ l = []) \/
     (exists st', loop_body tokenizer st x = (st', Continue) /\
                  l = sampled sample tokenizer n' (S step) st')).
Proof.
  destruct n as [|n']; [discriminate|]. intros H. exists n'. split; [reflexivity|].
  destruct (loop_body tokenizer st (drawn step st)) as [st' [|]] eqn:E.
  - destruct (gen_loop_continue n' step st st' E) as [_ Hs].
    rewrite Hs in H. injection H as Hx Hl. subst x. split; [reflexivity|].
    right. exists st'. auto.
  - destruct (gen_loop_break n' step st st' E) as [_ Hs].
    rewrite Hs in H. injection H as Hx Hl. subst x. split; [reflexivity|].
    left. exists st'. auto.
Qed.

(** Three end-of-sentence or end-of-paragraph ids sampled in a row: the
    third ends the loop, and nothing is emitted beyond what the loop had
    emitted after the second. *)
Lemma three_specials_stop (pre : list Z) :
  forall n step st a b c post,
  (0 <= consecutive_special st)%Z ->
  sampled sample tokenizer n step st = pre ++ a :: b :: c :: post ->
  special a -> special b -> special c ->
  post = [] /\
  emitted (gen_loop sample tokenizer n step st) =
  emitted (gen_loop sample tokenizer (List.length pre + 2) step st).
Proof.
  induction pre as [|x pre IH]; intros n step st a b c post Hcs Hs Ha Hb Hc.
  - simpl app in Hs. simpl List.length. simpl Nat.add.
    apply sampled_inv in Hs as (n1 & -> & Hxa & [(st1 & E1 & Hl)|(st1 & E1 & Hl)]);
      [discriminate|].
    symmetry in Hl.
    apply sampled_inv in Hl as (n2 & -> & Hxb & [(st2 & E2 & Hl)|(st2 & E2 & Hl)]);
      [discriminate|].
    symmetry in Hl.
    apply sampled_inv in Hl as (n3 & -> & Hxc & Hl).
    destruct (loop_body_special tokenizer st a Ha) as [[E1' _]|(f1 & E1' & L1)];
      [congruence|].
    rewrite E1' in E1. injection E1 as <-.
    destruct (loop_body_special tokenizer (yield
        {| ctx := ctx st ++ [a]; generated_ids := generated_ids st ++ [a];
           consecutive_special := consecutive_special st + 1;
           emitted := emitted st |} (Ev_token f1)) b Hb)
      as [[E2' _]|(f2 & E2' & L2)]; [congruence|].
    rewrite E2' in E2. injection E2 as <-.
    cbn [yield consecutive_special ctx generated_ids emitted] in *.
    match type of E2' with loop_body _ ?s1 _ = (?s2, _) =>
      set (st1 := s1) in *; set (st2 := s2) in * end.
    destruct (loop_body_special tokenizer st2 c Hc) as [[E3 _]|(f3 & E3 & L3)].
    2:{ subst st2. cbn [yield consecutive_special] in L3. lia. }
    destruct Hl as [(st3 & E3' & Hl)|(st3 & E3' & _)]; [|congruence].
    split; [exact Hl|].
    subst a b.
    destruct (gen_loop_continue (S (S n3)) step st st1 E1') as [-> _].
    destruct (gen_loop_continue (S n3) (S step) st1 st2 E2') as [-> _].
    rewrite Hxc in E3.
    destruct (gen_loop_break n3 (S (S step)) st2 _ E3) as [-> _].
    destruct (gen_loop_continue 1 step st st1 E1') as [-> _].
    destruct (gen_loop_continue 0 (S step) st1 st2 E2') as [-> _].
    reflexivity.
  - simpl app in Hs. simpl List.length.
    apply sampled_inv in Hs as (n1 & -> & Hx & [(st1 & E1 & Hl)|(st1 & E1 & Hl)]).
    { destruct pre; discriminate. }
    subst x.
    destruct (gen_loop_continue n1 step st st1 E1) as [-> _].
    change (S (List.length pre) + 2)%nat with (S (List.length pre + 2)).
    destruct (gen_loop_continue (List.length pre + 2) step st st1 E1) as [-> _].
    apply (IH n1 (S step) st1 a b c post); auto.
    replace st1 with (fst (loop_body tokenizer st (drawn step st)))
      by now rewrite E1.
    now apply loop_body_counter.
Qed.

(** The loop only ever emits token events. *)
Lemma gen_loop_emitted (n : nat) :
  forall step st,
  List.forallb (fun e => negb (is_error e)) (emitted st) = true ->
  List.forallb (fun e => negb (is_error e))
               (emitted (gen_loop sample tokenizer n step st)) = true.
Proof.
  induction n as [|n IH]; intros step st H; [exact H|].
  assert (Hstep : List.forallb (fun e => negb (is_error e))
            (emitted (fst (loop_body tokenizer st (drawn step st)))) = true).
  { destruct (loop_body_emitted tokenizer st (drawn step st)) as (fr & E & Hfr & _).
    rewrite E, forallb_app, H. simpl.
    rewrite forallb_forall in Hfr |- *. intros e He. apply Hfr in He.
    now destruct e. }
  destruct (loop_body tokenizer st (drawn step st)) as [st' [|]] eqn:E.
  - destruct (gen_loop_continue n step st st' E) as [-> _]. now apply IH.
  - now destruct (gen_loop_break n step st st' E) as [-> _].
Qed.

End LoopFacts.

End GeneratorFacts.

(** * The claims *)

Import BPE Generator.
Import PyStrFacts PyDictFacts BPEFacts CodecFacts.

(** ** Training scenario *)

(** C1, as stated, fails: with a target size of 10 the corpus
    ["ab ab ab cd"] has five base symbols for five free slots, the pruning
    branch of [train] keeps the single most frequent symbol and drops both
    words, and no merge is recorded, so the merge table has no first
    entry. *)
Lemma train_ab_cd_no_first_merge :
  ~ (exists p rest,
       merges (train (BPE.init 10) (lit "ab ab ab cd")) = p :: rest /\
       (p = (lit "a", lit "b") \/ p = (lit "c", lit "d"))).
Proof.
  assert (E : merges (train (BPE.init 10) (lit "ab ab ab cd")) = [])
    by (vm_compute; reflexivity).
  rewrite E. intros (p & rest & H & _). discriminate.
Qed.

(** C1, amended: training on ["ab ab ab cd"] with target size 10 leaves
    the merge table empty; with target size 11, where the five base symbols
    stay below the six free slots and nothing is pruned, the first (and
    only) merge is the pair (a, b). *)
Theorem train_ab_cd_merges :
  merges (train (BPE.init 10) (lit "ab ab ab cd")) = [] /\
  merges (train (BPE.init 11) (lit "ab ab ab cd")) = [(lit "a", lit "b")].
Proof. split; vm_compute; reflexivity. Qed.

(** ** Size of the trained vocabulary *)

(** C7, as stated, fails for a target size below five: the five special
    tokens are always put in the vocabulary. *)
Lemma train_vocab_exceeds_small_target :
  ~ (forall self corpus,
       (len (vocab (train self corpus)) <= vocab_size self)%Z).
Proof.
  intros H. specialize (H (BPE.init 3) (lit "ab ab ab cd")).
  vm_compute in H. now apply H.
Qed.

(** C7, amended: after [train], the vocabulary has at most
    [max(vocab_size, 5)] entries, hence at most [vocab_size] whenever
    [vocab_size] is at least 5; and each of the five special tokens maps to
    its fixed id, which the inverse dictionary of [decode] maps back to
    it. *)
Theorem train_vocab_bound_and_specials (self : BPETokenizer) (corpus : str) :
  (len (vocab (train self corpus)) <= Z.max (vocab_size self) 5)%Z /\
  Forall (fun ti =>
            get str_eqb (vocab (train self corpus)) (fst ti) = Some (snd ti) /\
            get Z.eqb (id_to_token (train self corpus)) (snd ti) = Some (fst ti))
         [ (lit "<PAD>", 0%Z); (lit "<UNK>", 1%Z);
           (EOS_CHAR, 2%Z); (EOP_CHAR, 3%Z); (EOT_CHAR, 4%Z) ].
Proof.
  destruct (train_vocab_shape self corpus) as (extra & E & Hge & Hnd & Hlen).
  split.
  - rewrite E, len_app. change (len special_tokens) with 5%Z. lia.
  - assert (Hfwd : forall tok i, In (tok, i) special_tokens ->
                   get str_eqb (vocab (train self corpus)) tok = Some i).
    { intros tok i Hin. rewrite E, get_app.
      simpl in Hin.
      repeat (destruct Hin as [[= <- <-]|Hin]; [reflexivity|]). destruct Hin. }
    assert (Hinv : forall tok i, In (tok, i) special_tokens ->
                   get Z.eqb (id_to_token (train self corpus)) i = Some tok).
    { intros tok i Hin. apply id_to_token_get; [|now apply Hfwd].
      apply train_vocab_ids_distinct. }
    repeat constructor; try (apply Hfwd; simpl; tauto);
      apply Hinv; simpl; tauto.
Qed.

(** ** Ids emitted by [encode] *)

(** C9, as stated, fails on a tokenizer that has not been trained: its
    vocabulary is empty, [encode] answers with the UNK id, and [decode]
    finds no token for it. *)
Lemma encode_untrained_id_unknown :
  ~ (forall self text i,
       In i (encode self text) ->
       (In i (values special_tokens) \/ In i (values (vocab self))) /\
       get Z.eqb (id_to_token self) i <> None).
Proof.
  intros H. destruct (H (BPE.init 250) (lit "a") 1%Z) as [_ H'].
  - vm_compute. auto.
  - apply H'. reflexivity.
Qed.

(** C9, amended: every id that [encode] returns is a value of the
    special-token table or of the vocabulary (the UNK id standing for
    symbols the vocabulary lacks); when the vocabulary holds the ids of the
    special-token table, as it does after every [train], [decode] finds a
    token for each of them. *)
Theorem encode_ids_in_tables (self : BPETokenizer) (text : str) (i : Z) :
  In i (encode self text) ->
  (In i (values special_tokens) \/ In i (values (vocab self))) /\
  (incl (values special_tokens) (values (vocab self)) ->
   get Z.eqb (id_to_token self) i <> None) /\
  (forall self0 corpus, self = train self0 corpus ->
   get Z.eqb (id_to_token self) i <> None).
Proof.
  intros Hi. pose proof (encode_ids self text i Hi) as Hor.
  assert (Hincl : incl (values special_tokens) (values (vocab self)) ->
                  get Z.eqb (id_to_token self) i <> None).
  { intros Hs. apply id_to_token_defined. destruct Hor; auto. }
  repeat split; auto.
  intros self0 corpus ->. apply Hincl, train_has_specials.
Qed.

Lemma encode_ids_in_tables_witness :
  In 6%Z (encode (train (BPE.init 10) (lit "ab ab ab ba")) (lit "ba")) /\
  get Z.eqb (id_to_token (train (BPE.init 10) (lit "ab ab ab ba"))) 6%Z <> None.
Proof.
  assert (Hin : In 6%Z (encode (train (BPE.init 10) (lit "ab ab ab ba")) (lit "ba")))
    by (vm_compute; auto).
  split; [exact Hin|].
  destruct (encode_ids_in_tables _ _ _ Hin) as (_ & _ & H).
  exact (H (BPE.init 10) (lit "ab ab ab ba") eq_refl).
Defined.

(** ** Text returned by [decode] *)

(** C10, as stated, fails: [decode] drops the end-of-text character after
    it has replaced the end-of-word markers, which can put a marker
    together. *)
Lemma decode_can_return_marker :
  ~ (forall self ids, occurs EOW (decode self ids) = false).
Proof.
  intros H.
  specialize (H (mkBPE 250 [(lit "<", 5%Z); (EOT_CHAR, 4%Z); (lit "/w>", 6%Z)] [])
                [5%Z; 4%Z; 6%Z]).
  vm_compute in H. discriminate.
Qed.

(** The same happens with a trained vocabulary: after training on
    ["zz zz zz </w>x"] with target size 13 the characters of the marker are
    tokens 7 to 10, and 4 is the end-of-text id. *)
Example decode_marker_after_training :
  decode (BPE.train (BPE.init 13) (lit "zz zz zz </w>x")) [7; 4; 8; 9; 10]%Z = EOW.
Proof. vm_compute. reflexivity. Qed.

(** C10, amended: for every vocabulary and list of ids, the text that
    [decode] returns holds none of the three private-use characters, has no
    whitespace at either end, no two spaces in a row and no whitespace
    character other than the space (so no newline); and it holds no
    end-of-word marker when the tokens of the ids hold no end-of-text
    character. *)
Theorem decode_output_shape (self : BPETokenizer) (ids : list Z) :
  let out := decode self ids in
  Forall (fun c => ~ In c out) (EOS_CHAR ++ EOP_CHAR ++ EOT_CHAR) /\
  lstrip out = out /\
  rstrip out = out /\
  occurs [SPACE; SPACE] out = false /\
  (forall c, In c out -> isspace c = true -> c = SPACE) /\
  (~ In 57346%N (List.concat (decode_toks self ids)) -> occurs EOW out = false).
Proof.
  intros out. subst out.
  destruct (decode_words self ids) as (ws & E & Hws).
  split; [|split; [|split; [|split; [|split]]]].
  - apply Forall_forall. intros c Hc. now apply decode_no_special.
  - rewrite E. now apply lstrip_join_words.
  - rewrite E. now apply rstrip_join_words.
  - rewrite E. now apply join_words_single_spaces.
  - rewrite E. intros c. now apply join_words_spaces.
  - apply decode_no_marker.
Qed.

Lemma decode_output_shape_witness :
  ~ In 57346%N
      (List.concat (decode_toks (train (BPE.init 10) (lit "ab ab ab ba")) [5; 2; 3; 7]%Z)) /\
  occurs EOW (decode (train (BPE.init 10) (lit "ab ab ab ba")) [5; 2; 3; 7]%Z) = false.
Proof.
  assert (H : ~ In 57346%N
      (List.concat (decode_toks (train (BPE.init 10) (lit "ab ab ab ba")) [5; 2; 3; 7]%Z))).
  { vm_compute. intuition discriminate. }
  split; [exact H|].
  exact (proj2 (proj2 (proj2 (proj2 (proj2
    (decode_output_shape (train (BPE.init 10) (lit "ab ab ab ba")) [5; 2; 3; 7]%Z))))) H).
Defined.

Import TrigramFacts GeneratorFacts.

(** ** The next-token sampler *)

(** C3: whatever the count tables, the context pair and the random draw,
    [generate_next_token] returns neither the PAD id (0) nor the UNK id
    (1); when no candidate is left after PAD and UNK have been discarded it
    returns the end-of-sentence id 2. *)
Theorem sampler_never_pad_or_unk
  (model : Trigram.TrigramLanguageModel) (context : Z * Z) (u : Q) :
  Trigram.generate_next_token model context u <> Trigram.pad_id /\
  Trigram.generate_next_token model context u <> Trigram.unk_id /\
  (Trigram.candidates model context = [] ->
   Trigram.generate_next_token model context u = Trigram.eos_id).
Proof.
  destruct (sampler_allowed model context u) as [H0 H1].
  repeat split; auto.
  intros Hc.
  destruct (generate_next_token_cases model context u) as [[_ He]|(x & Hin & _)].
  - exact He.
  - rewrite Hc in Hin. destruct Hin.
Qed.

Lemma sampler_never_pad_or_unk_witness :
  Trigram.candidates Trigram.init (7, 9)%Z = [] /\
  Trigram.generate_next_token Trigram.init (7, 9)%Z (1 # 2) = Trigram.eos_id.
Proof.
  assert (H : Trigram.candidates Trigram.init (7, 9)%Z = []) by reflexivity.
  split; [exact H|].
  exact (proj2 (proj2 (sampler_never_pad_or_unk Trigram.init (7, 9)%Z (1 # 2))) H).
Defined.

(** ** The interpolated probability *)

Import Binary64 Binary64Facts.

(** C4: with the weights of the constructor (the binary64 values of 0.1,
    0.3 and 0.6) and count tables whose totals are the sums of their
    counts, [get_interpolated_prob w1 w2 w3] is
    [lambda1 * P(w3) + lambda2 * P(w3 | w2) + lambda3 * P(w3 | w1, w2)]
    evaluated in binary64 arithmetic, each factor being the count over its
    context total, rounded, or 0 when that total is 0.  The value is a
    finite number within 2^-51 of the exact value of the formula with the
    weights 0.1, 0.3 and 0.6; the weights sum to 1, and the value lies
    between 0 and 1. *)
Theorem interpolated_probability
  (model : Trigram.TrigramLanguageModel) (w1 w2 w3 : Z) :
  Trigram.consistent model ->
  Trigram.lambda1 model = Trigram.lambda1 Trigram.init ->
  Trigram.lambda2 model = Trigram.lambda2 Trigram.init ->
  Trigram.lambda3 model = Trigram.lambda3 Trigram.init ->
  let unigram :=
    Trigram.relative_frequency
      (count Z.eqb (Trigram.unigram_counts model) w3)
      (Trigram.total_unigrams model) in
  let bigram :=
    Trigram.relative_frequency
      (count Z.eqb (get_default Z.eqb (Trigram.bigram_counts model) w2 []) w3)
      (get_default Z.eqb (Trigram.total_bigrams model) w2 0%N) in
  let trigram :=
    Trigram.relative_frequency
      (count Z.eqb
         (get_default Trigram.ctx_eqb (Trigram.trigram_counts model) (w1, w2) []) w3)
      (get_default Trigram.ctx_eqb (Trigram.total_trigrams model) (w1, w2) 0%N) in
  exists p,
    Trigram.get_interpolated_prob model w1 w2 w3 = Finite p /\
    Finite p =
      fadd (fadd (fmul (Trigram.lambda1 model) (round unigram))
                 (fmul (Trigram.lambda2 model) (round bigram)))
           (fmul (Trigram.lambda3 model) (round trigram)) /\
    Qabs (p - ((1 # 10) * unigram + (3 # 10) * bigram + (6 # 10) * trigram))
      <= pow2 (-51) /\
    fadd (fadd (Trigram.lambda1 model) (Trigram.lambda2 model))
         (Trigram.lambda3 model) = Finite 1 /\
    0 <= p <= 1.
Proof.
  intros (Huni & Hbi & Htri) L1 L2 L3 unigram bigram trigram.
  assert (B1 : 0 <= unigram <= 1).
  { apply relative_frequency_bounds. rewrite Huni. apply count_le_total. }
  assert (B2 : 0 <= bigram <= 1).
  { apply relative_frequency_bounds. rewrite Hbi. apply count_le_total. }
  assert (B3 : 0 <= trigram <= 1).
  { apply relative_frequency_bounds. rewrite Htri. apply count_le_total. }
  destruct (interpolation_unit unigram bigram trigram B1 B2 B3)
    as (p & E & Hp & Herr & _).
  exists p. rewrite get_interpolated_prob_rounds. fold unigram bigram trigram.
  rewrite L1, L2, L3.
  split; [exact E|]. split; [now rewrite E|]. split; [exact Herr|].
  split; [exact init_weights_sum|exact Hp].
Qed.

Lemma interpolated_probability_witness :
  exists p,
    Trigram.get_interpolated_prob
      (Trigram.train Trigram.init [2; 2; 5; 6; 2; 7; 5; 6]%Z) 2 5 6 = Finite p /\
    0 <= p <= 1.
Proof.
  destruct (interpolated_probability
              (Trigram.train Trigram.init [2; 2; 5; 6; 2; 7; 5; 6]%Z) 2 5 6
              (train_consistent Trigram.init [2; 2; 5; 6; 2; 7; 5; 6]%Z)
              eq_refl eq_refl eq_refl) as (p & E & _ & _ & _ & B).
  exists p. split; assumption.
Defined.

(** The value is the rounded one, not the exact one: with the factors
    1/8, 1/3 and 1 the code returns 1604407367250739 / 2^51
    (0.7124999999999999), the exact value of the formula being 57/80. *)
Example interpolated_probability_rounded :
  Trigram.get_interpolated_prob
    (Trigram.train Trigram.init [7; 5; 6; 5; 9; 5; 9; 9]%Z) 7 5 6
    = Finite (1604407367250739 # 2251799813685248) /\
  ~ (1604407367250739 # 2251799813685248) == (57 # 80).
Proof. split; [vm_compute; reflexivity|discriminate]. Qed.

(** ** The generation loop *)

(** C5: when the sampler returns three end-of-sentence or end-of-paragraph
    ids in a row, the third is the last id sampled, however many steps
    [max_length] would still allow, and the events of the request are those
    of a request cut after the second of the three: nothing but the final
    [done] event follows.  A step that samples an ordinary id sets the
    counter of consecutive special ids back to 0 and continues. *)
Theorem three_consecutive_specials_stop
  (tokenizer : BPETokenizer) (model : Trigram.TrigramLanguageModel)
  (rnd : nat -> Q) (prefix : str) (max_length : Z)
  (pre : list Z) (a b c : Z) (post : list Z) :
  sampled (model_sample model rnd) tokenizer (Z.to_nat max_length) 0
          (start tokenizer prefix) = pre ++ [a; b; c] ++ post ->
  special a -> special b -> special c ->
  post = [] /\
  generate_tokens tokenizer model rnd prefix max_length =
  generate_tokens tokenizer model rnd prefix (Z.of_nat (List.length pre + 2)) /\
  (forall st x, ordinary x ->
     consecutive_special (fst (loop_body tokenizer st x)) = 0%Z /\
     snd (loop_body tokenizer st x) = Continue).
Proof.
  intros Hs Ha Hb Hc.
  destruct (three_specials_stop (model_sample model rnd) tokenizer pre
              (Z.to_nat max_length) 0%nat (start tokenizer prefix) a b c post)
    as [Hpost Hem]; auto.
  { unfold start. simpl. lia. }
  repeat split.
  - exact Hpost.
  - unfold generate_tokens. destruct (Trigram.total_unigrams model =? 0)%N;
      [reflexivity|].
    rewrite Nat2Z.id. now rewrite Hem.
  - now apply loop_body_ordinary.
  - now apply loop_body_ordinary.
Qed.

Lemma three_consecutive_specials_stop_witness :
  generate_tokens (BPE.train (BPE.init 10) (lit "ab ab ab ba"))
                  (Trigram.train Trigram.init [2; 2; 2; 2]%Z)
                  (fun _ => 0) (lit "ab") 10 =
  [Ev_token (lit "ab"); Ev_token SENTENCE_END; Ev_token SENTENCE_END; Ev_done].
Proof.
  assert (Hs : sampled (model_sample (Trigram.train Trigram.init [2; 2; 2; 2]%Z)
                                     (fun _ => 0))
                 (BPE.train (BPE.init 10) (lit "ab ab ab ba")) (Z.to_nat 10) 0
                 (start (BPE.train (BPE.init 10) (lit "ab ab ab ba")) (lit "ab"))
               = [] ++ [2; 2; 2]%Z ++ []) by (vm_compute; reflexivity).
  destruct (three_consecutive_specials_stop _ _ _ _ _ _ _ _ _ _ Hs
              (or_introl eq_refl) (or_introl eq_refl) (or_introl eq_refl))
    as (_ & E & _).
  rewrite E. vm_compute. reflexivity.
Defined.

(** C6: a step in which the sampled id is PAD or UNK leaves the whole loop
    state as it was — the context window, the accumulated ids, the counter
    and the events emitted so far — and the loop goes on with one step
    less to make. *)
Theorem pad_unk_step_is_skipped
  (sample : nat -> Z * Z -> Z) (tokenizer : BPETokenizer)
  (n step : nat) (st : gen_state) :
  let next_id := sample step (from_end (ctx st) 2, from_end (ctx st) 1) in
  next_id = Trigram.pad_id \/ next_id = Trigram.unk_id ->
  loop_body tokenizer st next_id = (st, Continue) /\
  gen_loop sample tokenizer (S n) step st = gen_loop sample tokenizer n (S step) st /\
  sampled sample tokenizer (S n) step st =
    next_id :: sampled sample tokenizer n (S step) st.
Proof.
  intros next_id H. pose proof (loop_body_skip tokenizer st next_id H) as E.
  split; [exact E|]. now apply gen_loop_continue.
Qed.

Lemma pad_unk_step_is_skipped_witness :
  gen_loop (fun _ _ => 1%Z) (BPE.init 250) 3 0 (start (BPE.init 250) (lit "a")) =
  start (BPE.init 250) (lit "a").
Proof.
  destruct (pad_unk_step_is_skipped (fun _ _ => 1%Z) (BPE.init 250) 2 0
              (start (BPE.init 250) (lit "a")) (or_intror eq_refl)) as (_ & E & _).
  rewrite E. reflexivity.
Defined.

(** ** The model-not-loaded event *)

(** C8: when the total unigram count of the model is 0, [generate_tokens]
    yields the single event [error] ("Model not loaded") and nothing else,
    as ordinary output; when the count is positive, none of the events it
    yields is an error event. *)
Theorem model_not_loaded_event
  (tokenizer : BPETokenizer) (model : Trigram.TrigramLanguageModel)
  (rnd : nat -> Q) (prefix : str) (max_length : Z) :
  (Trigram.total_unigrams model = 0%N ->
   generate_tokens tokenizer model rnd prefix max_length =
     [Ev_error MODEL_NOT_LOADED]) /\
  (Trigram.total_unigrams model <> 0%N ->
   List.existsb is_error (generate_tokens tokenizer model rnd prefix max_length)
     = false).
Proof.
  unfold generate_tokens. split; intros H.
  - now rewrite H.
  - apply N.eqb_neq in H. rewrite H.
    rewrite existsb_app. simpl. rewrite orb_false_r.
    pose proof (gen_loop_emitted (model_sample model rnd) tokenizer
                  (Z.to_nat max_length) 0 (start tokenizer prefix) eq_refl) as Hall.
    destruct (List.existsb is_error _) eqn:E; [|reflexivity].
    apply existsb_exists in E as (e & He & Herr).
    rewrite forallb_forall in Hall. apply Hall in He. now rewrite Herr in He.
Qed.

Lemma model_not_loaded_event_witness :
  generate_tokens (BPE.init 250) Trigram.init (fun _ => 0) (lit "a") 5 =
    [Ev_error MODEL_NOT_LOADED] /\
  List.existsb is_error
    (generate_tokens (BPE.train (BPE.init 10) (lit "ab ab ab ba"))
                     (Trigram.train Trigram.init [2; 2; 5; 6; 2; 7; 5; 6]%Z)
                     (fun _ => 0) (lit "ab") 5) = false.
Proof.
  split.
  - exact (proj1 (model_not_loaded_event (BPE.init 250) Trigram.init
                    (fun _ => 0) (lit "a") 5) eq_refl).
  - apply (proj2 (model_not_loaded_event _ _ _ _ _)). vm_compute. discriminate.
Defined.

Import RoundTrip.

(** ** Round trip of a single word *)

(** C2, as stated, fails: every character of a word can be a token of the
    trained vocabulary while a merge of the table turns two of them into a
    token that the vocabulary lacks.  After training on ["ab ab ab ba"]
    with target size 10, the word ["aba"] is encoded with the UNK id and
    decoded to ["<UNK>a"]. *)
Lemma round_trip_fails_on_unmerged_token :
  ~ (forall corpus V w,
       let tk := BPE.train (BPE.init V) corpus in
       word w ->
       (forall c, In c w -> mem str_eqb (vocab tk) [c] = true) ->
       decode tk (encode tk w) = w ++ [SPACE] \/
       decode tk (encode tk w) = join [SPACE] (split (w ++ [SPACE]))).
Proof.
  intros H.
  specialize (H (lit "ab ab ab ba") 10%Z (lit "aba")). cbv zeta in H.
  assert (Hw : word (lit "aba")).
  { split; [discriminate|]. repeat constructor. }
  assert (Hc : forall c, In c (lit "aba") ->
            mem str_eqb (vocab (BPE.train (BPE.init 10) (lit "ab ab ab ba"))) [c] = true).
  { intros c Hc. simpl in Hc.
    destruct Hc as [<-|[<-|[<-|[]]]]; vm_compute; reflexivity. }
  specialize (H Hw Hc). vm_compute in H. destruct H; discriminate.
Qed.

(** C2, amended: after [train], for every single word [w] — non-empty and
    free of whitespace — that holds none of the three special characters,
    none of their legacy aliases and no end-of-word marker, and whose
    tokens under the merge table are all in the vocabulary,
    [decode(encode(w))] is [w]: the word and a trailing space, which the
    final whitespace normalisation of [decode] removes. *)
Theorem round_trip_single_word (self : BPETokenizer) (corpus : str) (w : str) :
  let tk := BPE.train self corpus in
  word w ->
  ~ In 57344%N w -> ~ In 57345%N w -> ~ In 57346%N w ->
  occurs (lit "<EOS>") w = false -> occurs (lit "<EOP>") w = false ->
  occurs (lit "<EOT>") w = false ->
  occurs EOW w = false ->
  Forall (fun tok => mem str_eqb (vocab tk) tok = true) (encode_word tk w) ->
  decode tk (encode tk w) = join [SPACE] (split (w ++ [SPACE])) /\
  decode tk (encode tk w) = w.
Proof.
  intros tk Hw S1 S2 S3 A1 A2 A3 Hm Hvoc.
  assert (Hsplit : join [SPACE] (split (w ++ [SPACE])) = w)
    by now rewrite split_word_space.
  assert (Hdec : decode tk (encode tk w) = w).
  { unfold encode. rewrite separate_specials_plain by assumption.
    rewrite (split_word w Hw). cbn [List.map List.concat]. rewrite app_nil_r.
    rewrite decode_unfold. apply normalise_plain; try assumption.
    destruct (decode_toks_word self corpus w (proj2 Hw) A1 A2 A3 Hvoc) as [E|E];
      fold tk in E; rewrite E.
    - left. apply replace_absent; [discriminate|assumption].
    - right. now apply replace_marker_suffix. }
  now rewrite Hsplit.
Qed.

Lemma round_trip_single_word_witness :
  decode (BPE.train (BPE.init 10) (lit "ab ab ab ba"))
         (encode (BPE.train (BPE.init 10) (lit "ab ab ab ba")) (lit "ba")) = lit "ba".
Proof.
  refine (proj2 (round_trip_single_word (BPE.init 10) (lit "ab ab ab ba") (lit "ba")
                   _ _ _ _ _ _ _ _ _)).
  - split; [discriminate|]. repeat constructor.
  - simpl. intuition discriminate.
  - simpl. intuition discriminate.
  - simpl. intuition discriminate.
  - reflexivity.
  - reflexivity.
  - reflexivity.
  - reflexivity.
  - vm_compute. repeat constructor.
Defined.

(** * Further properties *)

(** ** What [TrigramLanguageModel.train] counts *)

Module TrainCounts.
Import Trigram Counting PyDictFacts TrigramFacts.

Lemma count_add (c : @counter Z) (k k' : Z) (n : N) :
  count Z.eqb (add Z.eqb c k n) k' =
  if Z.eqb k k' then (count Z.eqb c k' + n)%N else count Z.eqb c k'.
Proof.
  unfold add, count, get_default. rewrite (get_set Z.eqb Z.eqb_eq).
  destruct (Z.eqb k k') eqn:E; [|reflexivity].
  apply Z.eqb_eq in E. now subst.
Qed.

Section NestedCounts.
Context {K : Type}.
Variable eqb : K -> K -> bool.
Hypothesis eqb_spec : forall a b, eqb a b = true <-> a = b.

Lemma add_nested_count (c : @dict K (@counter Z)) (k k' : K) (x y : Z) :
  count Z.eqb (get_default eqb (add_nested eqb c k x) k' []) y =
  (count Z.eqb (get_default eqb c k' []) y
   + if eqb k k' && Z.eqb x y then 1 else 0)%N.
Proof.
  unfold add_nested. unfold get_default at 1. rewrite (get_set eqb eqb_spec).
  destruct (eqb k k') eqn:E.
  - apply eqb_spec in E. subst k'. rewrite count_add. simpl andb.
    destruct (Z.eqb x y); lia.
  - cbn [andb]. unfold get_default. now rewrite N.add_0_r.
Qed.

Lemma bump_total (tot : @dict K N) (k k' : K) :
  get_default eqb (bump eqb tot k) k' 0%N =
  (get_default eqb tot k' 0 + if eqb k k' then 1 else 0)%N.
Proof.
  unfold bump. unfold get_default at 1. rewrite (get_set eqb eqb_spec).
  destruct (eqb k k') eqn:E.
  - apply eqb_spec in E. now subst k'.
  - unfold get_default. now rewrite N.add_0_r.
Qed.

End NestedCounts.

Lemma occurrences_cons (w t : Z) (ids : list Z) :
  occurrences w (t :: ids) =
  ((if Z.eqb t w then 1 else 0) + occurrences w ids)%N.
Proof.
  unfold occurrences. simpl. destruct (Z.eq_dec t w) as [->|Hne].
  - rewrite Z.eqb_refl. lia.
  - apply Z.eqb_neq in Hne. rewrite Hne. lia.
Qed.

Lemma train_unigrams_counts (ids : list Z) :
  forall c total c' total',
  train_unigrams ids c total = (c', total') ->
  total' = (total + N.of_nat (List.length ids))%N /\
  forall w, count Z.eqb c' w = (count Z.eqb c w + occurrences w ids)%N.
Proof.
  induction ids as [|t ids IH]; intros c total c' total' E; simpl in E.
  - injection E as <- <-. split; [simpl; lia|]. intros w.
    unfold occurrences. simpl. lia.
  - destruct (IH _ _ _ _ E) as [Ht Hc]. split.
    + rewrite Ht. simpl List.length. lia.
    + intros w. rewrite Hc, count_add, occurrences_cons.
      destruct (Z.eqb t w); lia.
Qed.

Lemma train_bigrams_counts (ids : list Z) :
  forall c tot c' tot',
  train_bigrams ids c tot = (c', tot') ->
  forall w1 w2,
  count Z.eqb (get_default Z.eqb c' w1 []) w2 =
  (count Z.eqb (get_default Z.eqb c w1 []) w2 + pair_occurrences w1 w2 ids)%N.
Proof.
  induction ids as [|a ids IH]; intros c tot c' tot' E w1 w2.
  - injection E as <- <-. simpl. lia.
  - destruct ids as [|b ids].
    + injection E as <- <-. simpl. lia.
    + change (train_bigrams (a :: b :: ids) c tot)
        with (train_bigrams (b :: ids) (add_nested Z.eqb c a b) (bump Z.eqb tot a))
        in E.
      rewrite (IH _ _ _ _ E w1 w2), (add_nested_count Z.eqb Z.eqb_eq).
      change (pair_occurrences w1 w2 (a :: b :: ids))
        with ((if Z.eqb a w1 && Z.eqb b w2 then 1 else 0)
              + pair_occurrences w1 w2 (b :: ids))%N.
      lia.
Qed.

Lemma train_trigrams_counts (ids : list Z) :
  forall c tot c' tot',
  train_trigrams ids c tot = (c', tot') ->
  forall w1 w2 w3,
  count Z.eqb (get_default ctx_eqb c' (w1, w2) []) w3 =
  (count Z.eqb (get_default ctx_eqb c (w1, w2) []) w3
   + triple_occurrences w1 w2 w3 ids)%N.
Proof.
  induction ids as [|a ids IH]; intros c tot c' tot' E w1 w2 w3.
  - injection E as <- <-. simpl. lia.
  - destruct ids as [|b ids]; [injection E as <- <-; simpl; lia|].
    destruct ids as [|d ids]; [injection E as <- <-; simpl; lia|].
    change (train_trigrams (a :: b :: d :: ids) c tot)
      with (train_trigrams (b :: d :: ids) (add_nested ctx_eqb c (a, b) d)
                           (bump ctx_eqb tot (a, b)))
      in E.
    rewrite (IH _ _ _ _ E w1 w2 w3), (add_nested_count ctx_eqb ctx_eqb_spec).
    change (triple_occurrences w1 w2 w3 (a :: b :: d :: ids))
      with ((if Z.eqb a w1 && Z.eqb b w2 && Z.eqb d w3 then 1 else 0)
            + triple_occurrences w1 w2 w3 (b :: d :: ids))%N.
    unfold ctx_eqb. simpl fst. simpl snd. lia.
Qed.

(** The parts of a trained model. *)
Lemma train_parts (self : TrigramLanguageModel) (ids : list Z) :
  exists uni total bi bitot tri tritot,
    train_unigrams ids [] 0%N = (uni, total) /\
    train_bigrams ids [] [] = (bi, bitot) /\
    train_trigrams ids [] [] = (tri, tritot) /\
    train self ids =
      mkLM uni bi tri total bitot tritot
           (lambda1 self) (lambda2 self) (lambda3 self).
Proof.
  unfold train.
  destruct (train_unigrams ids [] 0%N) as [uni total].
  destruct (train_bigrams ids [] []) as [bi bitot].
  destruct (train_trigrams ids [] []) as [tri tritot].
  now exists uni, total, bi, bitot, tri, tritot.
Qed.

Lemma pair_occurrences_absent (w1 w2 : Z) (ids : list Z) :
  ~ In w2 ids -> pair_occurrences w1 w2 ids = 0%N.
Proof.
  induction ids as [|a ids IH]; intros H; [reflexivity|].
  destruct ids as [|b ids]; [reflexivity|].
  change (pair_occurrences w1 w2 (a :: b :: ids))
    with ((if Z.eqb a w1 && Z.eqb b w2 then 1 else 0)
          + pair_occurrences w1 w2 (b :: ids))%N.
  rewrite IH by (simpl in *; tauto).
  destruct (Z.eqb b w2) eqn:E; [|now rewrite andb_false_r].
  apply Z.eqb_eq in E. subst. simpl in H. tauto.
Qed.

Lemma triple_occurrences_absent (w1 w2 w3 : Z) (ids : list Z) :
  ~ In w3 ids -> triple_occurrences w1 w2 w3 ids = 0%N.
Proof.
  induction ids as [|a ids IH]; intros H; [reflexivity|].
  destruct ids as [|b ids]; [reflexivity|].
  destruct ids as [|d ids]; [reflexivity|].
  change (triple_occurrences w1 w2 w3 (a :: b :: d :: ids))
    with ((if Z.eqb a w1 && Z.eqb b w2 && Z.eqb d w3 then 1 else 0)
          + triple_occurrences w1 w2 w3 (b :: d :: ids))%N.
  rewrite IH by (simpl in *; tauto).
  destruct (Z.eqb d w3) eqn:E; [|now rewrite andb_false_r].
  apply Z.eqb_eq in E. subst. simpl in H. tauto.
Qed.

Lemma occurrences_positive (w : Z) (ids : list Z) :
  In w ids <-> (0 < occurrences w ids)%N.
Proof.
  unfold occurrences. rewrite (count_occ_In Z.eq_dec). lia.
Qed.

End TrainCounts.

Import Counting TrainCounts.

(** X1: after [train(token_ids)], the total unigram count is the length
    of the sequence and the unigram count of every id is the number of its
    occurrences in the sequence (0 for an id that does not occur). *)
Theorem train_unigram_counts (self : Trigram.TrigramLanguageModel) (ids : list Z) :
  Trigram.total_unigrams (Trigram.train self ids) = N.of_nat (List.length ids) /\
  forall w,
    count Z.eqb (Trigram.unigram_counts (Trigram.train self ids)) w =
    occurrences w ids.
Proof.
  destruct (train_parts self ids)
    as (uni & total & bi & bitot & tri & tritot & E1 & _ & _ & ->).
  destruct (train_unigrams_counts ids _ _ _ _ E1) as [Ht Hc]. simpl. split.
  - rewrite Ht. lia.
  - intros w. now rewrite Hc.
Qed.

(** X2: after [train(token_ids)], the bigram count of [w2] under [w1] is
    the number of places where [w1] is directly followed by [w2], and the
    trigram count of [w3] under [(w1, w2)] the number of places where the
    three occur in a row; a context never seen reads as an empty counter. *)
Theorem train_bigram_trigram_counts
  (self : Trigram.TrigramLanguageModel) (ids : list Z) (w1 w2 w3 : Z) :
  count Z.eqb
    (get_default Z.eqb (Trigram.bigram_counts (Trigram.train self ids)) w1 []) w2 =
    pair_occurrences w1 w2 ids /\
  count Z.eqb
    (get_default Trigram.ctx_eqb
       (Trigram.trigram_counts (Trigram.train self ids)) (w1, w2) []) w3 =
    triple_occurrences w1 w2 w3 ids.
Proof.
  destruct (train_parts self ids)
    as (uni & total & bi & bitot & tri & tritot & _ & E2 & E3 & ->).
  simpl. split.
  - now rewrite (train_bigrams_counts ids _ _ _ _ E2).
  - now rewrite (train_trigrams_counts ids _ _ _ _ E3).
Qed.

(** X3: in every trained model each total is the sum of the counts below
    it: the unigram total, the bigram total of every first id and the
    trigram total of every context pair (with 0 and the empty counter for
    contexts never seen). *)
Theorem trained_totals_are_sums
  (self : Trigram.TrigramLanguageModel) (ids : list Z) :
  Trigram.consistent (Trigram.train self ids).
Proof. apply train_consistent. Qed.

(** X4: with the weights of the constructor and a training sequence of
    fewer than 2^63 ids (a Python list holds no more), a trained model
    gives an id a positive interpolated probability, in every context,
    exactly when the id occurs in the training sequence; for any other id
    the probability is 0. *)
Theorem trained_probability_support
  (self : Trigram.TrigramLanguageModel) (ids : list Z) (w1 w2 w3 : Z) :
  Trigram.lambda1 self = Trigram.lambda1 Trigram.init ->
  Trigram.lambda2 self = Trigram.lambda2 Trigram.init ->
  Trigram.lambda3 self = Trigram.lambda3 Trigram.init ->
  (Z.of_nat (List.length ids) < 2 ^ 63)%Z ->
  (In w3 ids ->
   exists p,
     Trigram.get_interpolated_prob (Trigram.train self ids) w1 w2 w3 = Finite p /\
     0 < p) /\
  (~ In w3 ids ->
   Trigram.get_interpolated_prob (Trigram.train self ids) w1 w2 w3 = Finite 0).
Proof.
  intros L1 L2 L3 Hlen.
  pose proof (train_consistent self ids) as (Huni & Hbi & Htri).
  destruct (train_parts self ids)
    as (uni & total & bi & bitot & tri & tritot & E1 & E2 & E3 & Em).
  destruct (train_unigrams_counts ids _ _ _ _ E1) as [Htot Hcount].
  pose proof (train_bigrams_counts ids _ _ _ _ E2) as Hb.
  pose proof (train_trigrams_counts ids _ _ _ _ E3) as Ht.
  rewrite get_interpolated_prob_rounds.
  rewrite Em in *.
  cbn [Trigram.lambda1 Trigram.lambda2 Trigram.lambda3 Trigram.unigram_counts
       Trigram.bigram_counts Trigram.trigram_counts Trigram.total_unigrams
       Trigram.total_bigrams Trigram.total_trigrams] in *.
  rewrite L1, L2, L3.
  set (u := Trigram.relative_frequency (count Z.eqb uni w3) total).
  set (b := Trigram.relative_frequency
              (count Z.eqb (get_default Z.eqb bi w2 []) w3)
              (get_default Z.eqb bitot w2 0%N)).
  set (t := Trigram.relative_frequency
              (count Z.eqb (get_default Trigram.ctx_eqb tri (w1, w2) []) w3)
              (get_default Trigram.ctx_eqb tritot (w1, w2) 0%N)).
  assert (Bu : 0 <= u <= 1).
  { apply relative_frequency_bounds. rewrite Huni. apply count_le_total. }
  assert (Bb : 0 <= b <= 1).
  { apply relative_frequency_bounds. rewrite Hbi. apply count_le_total. }
  assert (Bt : 0 <= t <= 1).
  { apply relative_frequency_bounds. rewrite Htri. apply count_le_total. }
  assert (Cu : count Z.eqb uni w3 = occurrences w3 ids).
  { rewrite Hcount. unfold count, get_default. simpl. lia. }
  assert (Tu : total = N.of_nat (List.length ids)) by lia.
  split; intros Hin.
  - destruct (interpolation_unit u b t Bu Bb Bt) as (p & E & _ & _ & Pos).
    exists p. split; [exact E|]. apply Pos.
    unfold u, Trigram.relative_frequency. rewrite Cu, Tu.
    apply occurrences_positive in Hin.
    assert (Hl : (0 < N.of_nat (List.length ids))%N).
    { destruct ids; [unfold occurrences in Hin; simpl in Hin; lia
                    |simpl List.length; lia]. }
    destruct (N.of_nat (List.length ids) =? 0)%N eqn:Ez;
      [apply N.eqb_eq in Ez; lia|].
    assert (Hd : 0 < inject_Z (Z.of_N (N.of_nat (List.length ids)))).
    { change 0 with (inject_Z 0). rewrite <- Zlt_Qlt. lia. }
    apply Qle_shift_div_l; [exact Hd|].
    assert (Hn : 1 <= inject_Z (Z.of_N (occurrences w3 ids))).
    { change 1 with (inject_Z 1). rewrite <- Zle_Qle. lia. }
    assert (Hm : inject_Z (Z.of_N (N.of_nat (List.length ids)))
                 <= inject_Z (2 ^ 63)).
    { rewrite <- Zle_Qle. lia. }
    change (inject_Z (2 ^ 63)) with (9223372036854775808 # 1) in Hm.
    change (pow2 (-63)) with (1 # 9223372036854775808). lra.
  - assert (Ho : occurrences w3 ids = 0%N).
    { destruct (N.eq_dec (occurrences w3 ids) 0) as [?|Hne]; [assumption|].
      exfalso. apply Hin, occurrences_positive. lia. }
    assert (Z0 : forall total', Trigram.relative_frequency 0 total' == 0).
    { intros total'. unfold Trigram.relative_frequency.
      destruct (total' =? 0)%N; [reflexivity|].
      unfold Qdiv. simpl inject_Z. apply Qmult_0_l. }
    assert (Zu : round u = round 0).
    { apply round_comp. unfold u. rewrite Cu, Ho. apply Z0. }
    assert (Zb : round b = round 0).
    { apply round_comp. unfold b. rewrite Hb.
      rewrite pair_occurrences_absent by assumption.
      change (count Z.eqb (get_default Z.eqb [] w2 []) w3) with 0%N. apply Z0. }
    assert (Zt : round t = round 0).
    { apply round_comp. unfold t. rewrite Ht.
      rewrite triple_occurrences_absent by assumption.
      change (count Z.eqb (get_default Trigram.ctx_eqb [] (w1, w2) []) w3)
        with 0%N. apply Z0. }
    rewrite Zu, Zb, Zt. vm_compute. reflexivity.
Qed.

Lemma trained_probability_support_witness :
  (exists p,
     Trigram.get_interpolated_prob
       (Trigram.train Trigram.init [2; 2; 5; 6; 2; 7; 5; 6]%Z) 9 9 7 = Finite p /\
     0 < p) /\
  Trigram.get_interpolated_prob
    (Trigram.train Trigram.init [2; 2; 5; 6; 2; 7; 5; 6]%Z) 2 5 8 = Finite 0.
Proof.
  split.
  - apply (trained_probability_support Trigram.init
             [2; 2; 5; 6; 2; 7; 5; 6]%Z 9 9 7); try reflexivity.
    simpl. tauto.
  - apply (trained_probability_support Trigram.init
             [2; 2; 5; 6; 2; 7; 5; 6]%Z 2 5 8); try reflexivity.
    simpl. intuition discriminate.
Defined.

(** ** Ids that the sampler can return *)

Module SamplerSupport.
Import Trigram PyDictFacts TrigramFacts TrainCounts.

Section SetFacts.
Context {K V : Type}.
Variable eqb : K -> K -> bool.
Hypothesis eqb_spec : forall a b, eqb a b = true <-> a = b.

Lemma in_set (d : @dict K V) (k0 : K) (v0 : V) (k : K) (v : V) :
  In (k, v) (set eqb d k0 v0) -> (k = k0 /\ v = v0) \/ In (k, v) d.
Proof.
  induction d as [|[k' v'] d IH]; simpl.
  - intros [[= <- <-]|[]]. now left.
  - destruct (eqb k' k0) eqn:E; simpl.
    + apply eqb_spec in E. subst k'. intros [[= <- <-]|H]; auto.
    + intros [H|H]; [auto|]. destruct (IH H); auto.
Qed.

End SetFacts.

Section Seen.
Variable P : Z -> Prop.

Lemma add_keys (c : @counter Z) (k : Z) (n : N) :
  P k -> (forall x, In x (keys c) -> P x) ->
  forall x, In x (keys (add Z.eqb c k n)) -> P x.
Proof.
  intros Hk Hc x Hx. unfold keys in Hx. apply in_map_iff in Hx as ([k' v'] & <- & Hin).
  apply (in_set Z.eqb Z.eqb_eq) in Hin as [[-> _]|Hin]; [assumption|].
  apply Hc. unfold keys. change k' with (fst (k', v')). now apply in_map.
Qed.

Lemma add_nested_keys {K} (eqb : K -> K -> bool)
  (eqb_spec : forall a b, eqb a b = true <-> a = b)
  (d : @dict K (@counter Z)) (k : K) (x : Z) :
  P x ->
  (forall k' cnt y, In (k', cnt) d -> In y (keys cnt) -> P y) ->
  forall k' cnt y,
  In (k', cnt) (add_nested eqb d k x) -> In y (keys cnt) -> P y.
Proof.
  intros Hx Hd k' cnt y Hin Hy. unfold add_nested in Hin.
  apply (in_set eqb eqb_spec) in Hin as [[-> ->]|Hin]; [|eauto].
  revert y Hy. apply add_keys; [assumption|].
  intros y Hy. unfold get_default in Hy.
  destruct (get eqb d k) as [c0|] eqn:E; [|destruct Hy].
  apply (get_In eqb eqb_spec) in E. eauto.
Qed.

Lemma train_unigrams_keys (ids : list Z) :
  forall c total, Forall P ids -> (forall x, In x (keys c) -> P x) ->
  forall x, In x (keys (fst (train_unigrams ids c total))) -> P x.
Proof.
  induction ids as [|t ids IH]; intros c total Hall Hc; [exact Hc|].
  inversion Hall; subst. simpl. apply IH; [assumption|].
  now apply add_keys.
Qed.

Lemma train_bigrams_keys (ids : list Z) :
  forall c tot, Forall P ids ->
  (forall k cnt y, In (k, cnt) c -> In y (keys cnt) -> P y) ->
  forall k cnt y,
  In (k, cnt) (fst (train_bigrams ids c tot)) -> In y (keys cnt) -> P y.
Proof.
  induction ids as [|a ids IH]; intros c tot Hall Hc; [exact Hc|].
  destruct ids as [|b ids]; [exact Hc|].
  change (train_bigrams (a :: b :: ids) c tot)
    with (train_bigrams (b :: ids) (add_nested Z.eqb c a b) (bump Z.eqb tot a)).
  inversion Hall as [|? ? _ Hall']; subst.
  apply IH; [assumption|].
  apply (add_nested_keys Z.eqb Z.eqb_eq); [|assumption].
  now inversion Hall'.
Qed.

Lemma train_trigrams_keys (ids : list Z) :
  forall c tot, Forall P ids ->
  (forall k cnt y, In (k, cnt) c -> In y (keys cnt) -> P y) ->
  forall k cnt y,
  In (k, cnt) (fst (train_trigrams ids c tot)) -> In y (keys cnt) -> P y.
Proof.
  induction ids as [|a ids IH]; intros c tot Hall Hc; [exact Hc|].
  destruct ids as [|b ids]; [exact Hc|].
  destruct ids as [|d ids]; [exact Hc|].
  change (train_trigrams (a :: b :: d :: ids) c tot)
    with (train_trigrams (b :: d :: ids) (add_nested ctx_eqb c (a, b) d)
                         (bump ctx_eqb tot (a, b))).
  inversion Hall as [|? ? _ Hall']; subst.
  apply IH; [assumption|].
  apply (add_nested_keys ctx_eqb ctx_eqb_spec); [|assumption].
  inversion Hall' as [|? ? _ Hall'']; subst. now inversion Hall''.
Qed.

End Seen.

Lemma in_insert_desc {K} (x y : K * N) (l : list (K * N)) :
  In y (insert_desc x l) -> y = x \/ In y l.
Proof.
  induction l as [|z l IH]; simpl.
  - intros [<-|[]]. now left.
  - destruct (snd x <? snd z)%N; simpl.
    + intros [<-|H]; [auto|]. destruct (IH H); auto.
    + intros [<-|H]; auto.
Qed.

Lemma in_sort_desc {K} (y : K * N) (l : list (K * N)) :
  In y (sort_desc l) -> In y l.
Proof.
  induction l as [|x l IH]; simpl; [tauto|].
  intros H. apply in_insert_desc in H as [->|H]; auto.
Qed.

Lemma in_most_common (c : @counter Z) (n : nat) (x : Z) :
  In x (List.map fst (most_common c n)) -> In x (keys c).
Proof.
  unfold most_common, keys. rewrite !in_map_iff.
  intros (kv & <- & H). exists kv. split; [reflexivity|].
  apply in_sort_desc. revert H. generalize (sort_desc c). clear.
  induction n as [|n IH]; intros l H; [destruct H|].
  destruct l as [|z l]; [destruct H|]. simpl in H.
  destruct H as [<-|H]; [now left|]. right. now apply IH.
Qed.

Lemma in_set_update (xs s : list Z) (x : Z) :
  In x (set_update s xs) -> In x s \/ In x xs.
Proof.
  unfold set_update. revert s; induction xs as [|y xs IH]; intros s; simpl; [auto|].
  intros H. apply IH in H as [H|H]; [|auto].
  unfold set_insert in H. destruct (existsb (Z.eqb y) s); [auto|].
  apply in_app_iff in H as [H|[<-|[]]]; auto.
Qed.

(** The candidates of a trained model occur in the training sequence. *)
Lemma candidates_seen (self : TrigramLanguageModel) (ids : list Z)
  (context : Z * Z) (x : Z) :
  In x (candidates (train self ids) context) -> In x ids.
Proof.
  destruct (train_parts self ids)
    as (uni & total & bi & bitot & tri & tritot & E1 & E2 & E3 & ->).
  assert (Hall : Forall (fun y => In y ids) ids) by (apply Forall_forall; auto).
  assert (Huni : forall y, In y (keys uni) -> In y ids).
  { replace uni with (fst (train_unigrams ids [] 0%N)) by now rewrite E1.
    apply train_unigrams_keys; [assumption|intros ? []]. }
  assert (Hbi : forall k cnt y, In (k, cnt) bi -> In y (keys cnt) -> In y ids).
  { replace bi with (fst (train_bigrams ids [] [])) by now rewrite E2.
    apply train_bigrams_keys; [assumption|intros ? ? ? []]. }
  assert (Htri : forall k cnt y, In (k, cnt) tri -> In y (keys cnt) -> In y ids).
  { replace tri with (fst (train_trigrams ids [] [])) by now rewrite E3.
    apply train_trigrams_keys; [assumption|intros ? ? ? []]. }
  unfold candidates, set_discard. cbn [trigram_counts bigram_counts unigram_counts].
  rewrite !filter_In. intros [[H _] _].
  apply in_set_update in H as [H|H]; [|now apply Huni, (in_most_common uni 50)].
  destruct (get Z.eqb bi (snd context)) as [cnt2|] eqn:G2.
  - apply in_set_update in H as [H|H].
    + destruct (get ctx_eqb tri context) as [cnt3|] eqn:G3.
      * apply in_set_update in H as [[]|H].
        apply (get_In ctx_eqb ctx_eqb_spec) in G3. eauto.
      * destruct H.
    + apply (get_In Z.eqb Z.eqb_eq) in G2. eauto.
  - destruct (get ctx_eqb tri context) as [cnt3|] eqn:G3.
    + apply in_set_update in H as [[]|H].
      apply (get_In ctx_eqb ctx_eqb_spec) in G3. eauto.
    + destruct H.
Qed.

End SamplerSupport.

Import SamplerSupport.

(** X5: the sampler of a model trained on ids that all fit in 64 signed
    bits only returns ids of the training sequence: for every context and
    every random draw, the id returned by [generate_next_token] occurs in
    [token_ids], unless no candidate is left and the end-of-sentence id is
    returned by default.  (Beyond that range numpy may store the candidate
    ids as float64 and hand back a rounded id.) *)
Theorem sampler_returns_seen_ids
  (self : Trigram.TrigramLanguageModel) (ids : list Z) (context : Z * Z) (u : Q) :
  List.forallb Trigram.in_int64 ids = true ->
  In (Trigram.generate_next_token (Trigram.train self ids) context u) ids \/
  (Trigram.candidates (Trigram.train self ids) context = [] /\
   Trigram.generate_next_token (Trigram.train self ids) context u
     = Trigram.eos_id).
Proof.
  intros Hids.
  destruct (generate_next_token_cases (Trigram.train self ids) context u)
    as [H|(x & Hin & E)]; [now right|].
  left. rewrite E, numpy_int_int64.
  - eapply candidates_seen, Hin.
  - apply forallb_forall. intros y Hy.
    rewrite forallb_forall in Hids. eapply Hids, candidates_seen, Hy.
Qed.

Lemma sampler_returns_seen_ids_witness :
  In (Trigram.generate_next_token
        (Trigram.train Trigram.init [2; 2; 5; 6; 2; 7; 5; 6]%Z) (2, 5)%Z (1 # 2))
     [2; 2; 5; 6; 2; 7; 5; 6]%Z \/
  (Trigram.candidates
     (Trigram.train Trigram.init [2; 2; 5; 6; 2; 7; 5; 6]%Z) (2, 5)%Z = [] /\
   Trigram.generate_next_token
     (Trigram.train Trigram.init [2; 2; 5; 6; 2; 7; 5; 6]%Z) (2, 5)%Z (1 # 2)
     = Trigram.eos_id).
Proof.
  apply sampler_returns_seen_ids. reflexivity.
Defined.

(** Beyond 64 signed bits the returned id need not be a training id:
    after training on 2^63 + 1 and -1, or on 2^63 + 1 and 5, the sampler
    returns 2^63. *)
Example sampler_rounds_wide_ids :
  Trigram.generate_next_token
    (Trigram.train Trigram.init [2 ^ 63 + 1; -1]%Z) (2, 2)%Z 0
    = (2 ^ 63)%Z /\
  Trigram.generate_next_token
    (Trigram.train Trigram.init [2 ^ 63 + 1; 5]%Z) (2, 2)%Z 0
    = (2 ^ 63)%Z.
Proof. split; vm_compute; reflexivity. Qed.

(** ** [generate_story] and [generate_from_prefix] *)

Module StoryFacts.
Import Trigram Generator Story TrigramFacts.

Lemma generate_next_token_allowed (self : TrigramLanguageModel)
  (context : Z * Z) (u : Q) :
  generate_next_token self context u <> pad_id /\
  generate_next_token self context u <> unk_id.
Proof. apply sampler_allowed. Qed.

(** Both loops append the same ids: at most [n], none of them PAD or UNK,
    and end-of-text only as the last one. *)
Lemma loops_generate (self : TrigramLanguageModel) (rnd : nat -> Q) (n : nat) :
  forall step g,
  exists gen,
    story_loop self rnd n step g = g ++ gen /\
    (forall out, prefix_loop self rnd n step g out = out ++ gen) /\
    (List.length gen <= n)%nat /\
    Forall (fun x => x <> pad_id /\ x <> unk_id) gen /\
    ~ In eot_id (List.removelast gen).
Proof.
  induction n as [|n IH]; intros step g.
  - exists []. simpl. rewrite app_nil_r. repeat split; auto.
    intros out. now rewrite app_nil_r.
  - cbn [story_loop prefix_loop].
    set (nxt := generate_next_token self (from_end g 2, from_end g 1) (rnd step)).
    assert (Hok : nxt <> pad_id /\ nxt <> unk_id)
      by apply generate_next_token_allowed.
    destruct (nxt =? eot_id)%Z eqn:E.
    + exists [nxt]. repeat split; auto. simpl. lia.
    + destruct (IH (S step) (g ++ [nxt])) as (gen & Hs & Hp & Hl & Hf & He).
      exists (nxt :: gen). repeat split.
      * rewrite Hs, <- app_assoc. reflexivity.
      * intros out. rewrite Hp, <- app_assoc. reflexivity.
      * simpl. lia.
      * now constructor.
      * apply Z.eqb_neq in E. destruct gen as [|y gen]; [simpl; tauto|].
        change (List.removelast (nxt :: y :: gen))
          with (nxt :: List.removelast (y :: gen)).
        simpl. intros [H|H]; [congruence|]. now apply He.
Qed.

End StoryFacts.

Import Story StoryFacts.

(** X6: [generate_from_prefix] returns the prefix ids, unchanged, followed
    by at most [max_length] generated ids; none of the generated ids is PAD
    or UNK, and the end-of-text id can only be the last of them, since the
    loop stops there.  With [max_length <= 0] the result is the prefix. *)
Theorem generate_from_prefix_shape
  (self : Trigram.TrigramLanguageModel) (rnd : nat -> Q)
  (prefix_ids : list Z) (max_length : Z) :
  exists generated,
    generate_from_prefix self rnd prefix_ids max_length = prefix_ids ++ generated /\
    (List.length generated <= Z.to_nat max_length)%nat /\
    Forall (fun x => x <> Trigram.pad_id /\ x <> Trigram.unk_id) generated /\
    ~ In Trigram.eot_id (List.removelast generated).
Proof.
  unfold generate_from_prefix.
  match goal with |- context [prefix_loop _ _ _ _ ?c _] => set (ctx_seq := c) end.
  destruct (loops_generate self rnd (Z.to_nat max_length) 0%nat ctx_seq)
    as (gen & _ & Hp & Hl & Hf & He).
  exists gen. now rewrite Hp.
Qed.

(** X7: [generate_story(max_length)] returns what
    [generate_from_prefix([], max_length)] returns for the same random
    draws: a story is a continuation of the empty prefix. *)
Theorem generate_story_is_empty_prefix
  (self : Trigram.TrigramLanguageModel) (rnd : nat -> Q) (max_length : Z) :
  generate_story self rnd max_length =
  generate_from_prefix self rnd [] max_length.
Proof.
  unfold generate_story, generate_from_prefix.
  destruct (loops_generate self rnd (Z.to_nat max_length) 0%nat
              [Trigram.eos_id; Trigram.eos_id]) as (gen & Hs & Hp & _).
  now rewrite Hs, Hp.
Qed.

(** ** More on the generation loop of the server *)

Module StreamFacts.
Import BPE Trigram Generator GeneratorFacts.


(** How one step changes the context and the accumulated ids. *)
Lemma loop_body_ids (tokenizer : BPETokenizer) (st : gen_state) (x : Z) :
  ctx (fst (loop_body tokenizer st x)) =
    ctx st ++ (if accepted x then [x] else []) /\
  generated_ids (fst (loop_body tokenizer st x)) =
    generated_ids st ++ (if accepted x then [x] else []).
Proof.
  unfold loop_body, accepted.
  destruct (x =? eot_id)%Z eqn:E4.
  { rewrite orb_true_r. simpl. now rewrite !app_nil_r. }
  destruct (x =? pad_id)%Z eqn:E0; [simpl; now rewrite !app_nil_r|].
  destruct (x =? unk_id)%Z eqn:E1; [simpl; now rewrite !app_nil_r|].
  simpl orb. simpl negb. cbv iota.
  destruct (x =? eos_id)%Z.
  { cbn [set_special consecutive_special].
    destruct (3 <=? _)%Z; auto. }
  destruct (x =? eop_id)%Z.
  { cbn [set_special consecutive_special].
    destruct (3 <=? _)%Z; auto. }
  destruct (strip (decode tokenizer [x])); auto.
Qed.

Section Stream.
Variable sample : nat -> Z * Z -> Z.
Variable tokenizer : BPETokenizer.


(** A sampled end-of-text id ends the loop and leaves the state as it
    was. *)
Lemma eot_stops (pre : list Z) :
  forall n step st post,
  sampled sample tokenizer n step st = pre ++ eot_id :: post ->
  post = [] /\
  gen_loop sample tokenizer n step st =
  gen_loop sample tokenizer (List.length pre) step st.
Proof.
  induction pre as [|x pre IH]; intros n step st post Hs.
  - simpl app in Hs.
    apply sampled_inv in Hs as (n1 & -> & Hx & [(st1 & E1 & Hl)|(st1 & E1 & Hl)]).
    + split; [exact Hl|].
      assert (E : loop_body tokenizer st
                    (sample step (from_end (ctx st) 2, from_end (ctx st) 1))
                  = (st, Break)) by (rewrite <- Hx; apply loop_body_eot).
      now destruct (gen_loop_break sample tokenizer n1 step st st E) as [-> _].
    + rewrite loop_body_eot in E1. discriminate.
  - simpl app in Hs. simpl List.length.
    apply sampled_inv in Hs as (n1 & -> & Hx & [(st1 & E1 & Hl)|(st1 & E1 & Hl)]).
    { destruct pre; discriminate. }
    subst x.
    destruct (gen_loop_continue sample tokenizer n1 step st st1 E1) as [-> _].
    destruct (gen_loop_continue sample tokenizer (List.length pre) step st st1 E1)
      as [-> _].
    now apply IH.
Qed.

Lemma gen_loop_ids (n : nat) :
  forall step st,
  ctx (gen_loop sample tokenizer n step st) =
    ctx st ++ List.filter accepted (sampled sample tokenizer n step st) /\
  generated_ids (gen_loop sample tokenizer n step st) =
    generated_ids st ++ List.filter accepted (sampled sample tokenizer n step st).
Proof.
  induction n as [|n IH]; intros step st.
  - simpl. now rewrite !app_nil_r.
  - set (x := sample step (from_end (ctx st) 2, from_end (ctx st) 1)).
    pose proof (loop_body_ids tokenizer st x) as [Hc Hg].
    destruct (loop_body tokenizer st x) as [st' [|]] eqn:E; simpl fst in *.
    + destruct (gen_loop_continue sample tokenizer n step st st' E) as [-> ->].
      destruct (IH (S step) st') as [Hc' Hg']. rewrite Hc', Hg', Hc, Hg.
      fold x. cbn [List.filter]. destruct (accepted x);
        rewrite <- !app_assoc; simpl; now rewrite ?app_nil_r.
    + destruct (gen_loop_break sample tokenizer n step st st' E) as [-> ->].
      fold x. cbn [List.filter]. rewrite Hc, Hg. now destruct (accepted x).
Qed.

End Stream.

(** *** The window of the last two ids *)

Lemma last_two_app (a b : list Z) :
  (2 <= List.length b)%nat -> last_two (a ++ b) = last_two b.
Proof.
  intros H. unfold last_two. rewrite length_app.
  replace (List.length a + List.length b - 2)%nat
    with (List.length a + (List.length b - 2))%nat by lia.
  rewrite skipn_app.
  replace (List.length a + (List.length b - 2) - List.length a)%nat
    with (List.length b - 2)%nat by lia.
  rewrite skipn_all2 by lia. reflexivity.
Qed.

Lemma last_two_last_two (p l : list Z) :
  (2 <= List.length p)%nat -> last_two (last_two p ++ l) = last_two (p ++ l).
Proof.
  intros H.
  rewrite <- (firstn_skipn (List.length p - 2) p) at 2.
  fold (last_two p). rewrite <- app_assoc. symmetry. apply last_two_app.
  rewrite length_app. unfold last_two. rewrite length_skipn. lia.
Qed.

(** The context of the start state, extended by any ids, ends like
    end-of-sentence, end-of-sentence, the prefix ids and those ids. *)
Lemma start_window (tokenizer : BPETokenizer) (prefix : str) (l : list Z) :
  last_two (ctx (start tokenizer prefix) ++ l) =
  last_two ([eos_id; eos_id] ++ encode tokenizer prefix ++ l).
Proof.
  unfold start. cbn [ctx].
  destruct (encode tokenizer prefix) as [|x [|y p]] eqn:E.
  - reflexivity.
  - change ([eos_id; eos_id] ++ [x] ++ l) with ([eos_id] ++ ([eos_id; x] ++ l)).
    symmetry. apply last_two_app. simpl. lia.
  - rewrite last_two_last_two by (simpl; lia).
    change ([eos_id; eos_id] ++ (x :: y :: p) ++ l)
      with ([eos_id; eos_id] ++ ((x :: y :: p) ++ l)).
    symmetry. apply last_two_app. simpl. lia.
Qed.

End StreamFacts.

Import StreamFacts.



(** X9: a sampled end-of-text id is the last id sampled, whatever
    [max_length] still allows, and yields nothing: the events of the
    request are those of a request whose [max_length] is the number of
    steps made before it. *)
Theorem end_of_text_stops
  (tokenizer : BPETokenizer) (model : Trigram.TrigramLanguageModel)
  (rnd : nat -> Q) (prefix : str) (max_length : Z) (pre post : list Z) :
  sampled (model_sample model rnd) tokenizer (Z.to_nat max_length) 0
          (start tokenizer prefix) = pre ++ Trigram.eot_id :: post ->
  post = [] /\
  generate_tokens tokenizer model rnd prefix max_length =
  generate_tokens tokenizer model rnd prefix (Z.of_nat (List.length pre)).
Proof.
  intros Hs.
  destruct (eot_stops (model_sample model rnd) tokenizer pre _ _ _ _ Hs) as [Hp He].
  split; [exact Hp|]. unfold generate_tokens.
  destruct (Trigram.total_unigrams model =? 0)%N; [reflexivity|].
  now rewrite Nat2Z.id, He.
Qed.

Lemma end_of_text_stops_witness :
  generate_tokens (BPE.train (BPE.init 10) (lit "ab ab ab ba"))
                  (Trigram.train Trigram.init [5; 4; 5; 4]%Z)
                  (fun _ => 1 # 2) (lit "ab") 10 =
  [Ev_token (lit "ab"); Ev_done].
Proof.
  assert (Hs : sampled (model_sample (Trigram.train Trigram.init [5; 4; 5; 4]%Z)
                                     (fun _ => 1 # 2))
                 (BPE.train (BPE.init 10) (lit "ab ab ab ba")) (Z.to_nat 10) 0
                 (start (BPE.train (BPE.init 10) (lit "ab ab ab ba")) (lit "ab"))
               = [] ++ Trigram.eot_id :: []) by (vm_compute; reflexivity).
  destruct (end_of_text_stops _ _ _ _ _ _ _ Hs) as [_ E].
  rewrite E. vm_compute. reflexivity.
Defined.

(** X10: when the loop of [generate_tokens] ends, the accumulated ids are
    the ids of the encoded prefix followed by the sampled ids other than
    PAD, UNK and end-of-text, in order, and the two-id context window is
    the end of the sequence end-of-sentence, end-of-sentence, accumulated
    ids.  This holds for every sampler. *)
Theorem context_follows_accepted_ids
  (sample : nat -> Z * Z -> Z) (tokenizer : BPETokenizer)
  (prefix : str) (n : nat) :
  let final := gen_loop sample tokenizer n 0 (start tokenizer prefix) in
  generated_ids final =
    encode tokenizer prefix
    ++ List.filter accepted (sampled sample tokenizer n 0 (start tokenizer prefix)) /\
  last_two (ctx final) =
    last_two ([Trigram.eos_id; Trigram.eos_id] ++ generated_ids final).
Proof.
  intros final. subst final.
  destruct (gen_loop_ids sample tokenizer n 0%nat (start tokenizer prefix))
    as [Hc Hg].
  rewrite Hc, Hg. split; [reflexivity|].
  rewrite start_window. reflexivity.
Qed.

(** ** More on [split] and [replace] *)

Module PyStrMore.
Import PyStrFacts.

Lemma split_blank (s : str) : blank s -> split s = [].
Proof.
  intros H. induction H as [|c s Hc Hs IH]; [reflexivity|].
  simpl. now rewrite Hc.
Qed.

Lemma split_cons_space (c : char) (s : str) :
  isspace c = true -> split (c :: s) = split s.
Proof. intros H. simpl. now rewrite H. Qed.

(** [split] works on the two sides of a whitespace character
    separately. *)
Lemma split_app_sep (a : str) (c : char) (b : str) :
  isspace c = true -> split (a ++ c :: b) = split a ++ split b.
Proof.
  intros Hc. induction a as [|x a IH].
  - simpl app. now apply split_cons_space.
  - destruct (isspace x) eqn:Ex.
    + change (split (x :: (a ++ c :: b)) = split (x :: a) ++ split b).
      rewrite (split_cons_space x (a ++ c :: b)), (split_cons_space x a)
        by assumption.
      exact IH.
    + destruct a as [|y a].
      * change (split (x :: c :: b) = split [x] ++ split b).
        rewrite split_eq, Ex, Hc.
        rewrite (split_cons_space c) by assumption.
        simpl split at 2. now rewrite Ex.
      * change (split (x :: y :: (a ++ c :: b)) = split (x :: y :: a) ++ split b).
        change (split ((y :: a) ++ c :: b) = split (y :: a) ++ split b) in IH.
        rewrite !split_eq, Ex.
        change (y :: a ++ c :: b) with ((y :: a) ++ c :: b).
        destruct (isspace y) eqn:Ey.
        -- now rewrite IH.
        -- rewrite IH. destruct (split (y :: a)) as [|w ws] eqn:E.
           ++ exfalso. now apply (split_nonempty y a).
           ++ reflexivity.
Qed.

(** [replace] works on the two sides of a character foreign to the
    pattern separately. *)
Lemma replace_app_sep (old new a : str) (c : char) (b : str) :
  old <> [] -> ~ In c old ->
  replace old new (a ++ c :: b) = replace old new a ++ c :: replace old new b.
Proof.
  intros Hold Hc. revert a.
  refine (replace_ind old _ Hold _ _ _); cbv beta.
  - simpl app. rewrite replace_nil by assumption. simpl app.
    apply replace_miss; [assumption|].
    destruct old as [|x old]; [congruence|]. cbn [startswith].
    replace (N.eqb x c) with false; [reflexivity|].
    symmetry. apply N.eqb_neq. intros <-. simpl in Hc. tauto.
  - intros rest IH. destruct old as [|x old]; [congruence|].
    rewrite <- app_assoc, !replace_hit, IH, <- app_assoc. reflexivity.
  - intros x s Hm IH. simpl app.
    rewrite !(replace_miss old new x); try assumption.
    + now rewrite IH.
    + destruct (startswith old (x :: s ++ c :: b)) eqn:E; [|reflexivity].
      apply (startswith_before old (x :: s) c b) in E; [congruence|assumption].
Qed.

(** A pattern has no occurrence in a text that shares no character with
    it. *)
Lemma occurs_foreign (p s : str) :
  p <> [] -> (forall c, In c s -> ~ In c p) -> occurs p s = false.
Proof.
  intros Hp H. destruct (occurs p s) eqn:E; [|reflexivity].
  apply occurs_iff in E as (before & after & ->).
  destruct p as [|x p]; [congruence|]. exfalso.
  apply (H x); [|now left]. rewrite !in_app_iff. right. left. now left.
Qed.

Lemma replace_foreign (old new s : str) :
  old <> [] -> (forall c, In c s -> ~ In c old) -> replace old new s = s.
Proof. intros Ho H. apply replace_absent; [assumption|now apply occurs_foreign]. Qed.

Lemma replace_char_app (x : char) (new a b : str) :
  replace [x] new (a ++ b) = replace [x] new a ++ replace [x] new b.
Proof. rewrite !replace_char. apply flat_map_app. Qed.

End PyStrMore.

(** ** [encode] across separators *)

Module EncodeFacts.
Import BPE PyStrFacts PyStrMore.

(** The two phases of [_separate_specials]. *)
Lemma separate_specials_phases (text : str) :
  _separate_specials text =
  replace EOT_CHAR ([SPACE] ++ EOT_CHAR ++ [SPACE])
    (replace EOP_CHAR ([SPACE] ++ EOP_CHAR ++ [SPACE])
       (replace EOS_CHAR ([SPACE] ++ EOS_CHAR ++ [SPACE])
          (replace (lit "<EOT>") EOT_CHAR
             (replace (lit "<EOP>") EOP_CHAR
                (replace (lit "<EOS>") EOS_CHAR text))))).
Proof. reflexivity. Qed.

(** A character that is in none of the legacy aliases splits the work of
    [_separate_specials]; [s] is what the second phase makes of it. *)
Lemma separate_specials_app (a : str) (c : char) (b : str) :
  ~ In c (lit "<EOSPT>") ->
  _separate_specials (a ++ c :: b) =
  _separate_specials a ++ _separate_specials [c] ++ _separate_specials b.
Proof.
  intros Hc. rewrite !separate_specials_phases.
  assert (H1 : ~ In c (lit "<EOS>")) by (simpl in *; tauto).
  assert (H2 : ~ In c (lit "<EOP>")) by (simpl in *; tauto).
  assert (H3 : ~ In c (lit "<EOT>")) by (simpl in *; tauto).
  rewrite (replace_app_sep (lit "<EOS>")) by (discriminate || assumption).
  rewrite (replace_app_sep (lit "<EOP>")) by (discriminate || assumption).
  rewrite (replace_app_sep (lit "<EOT>")) by (discriminate || assumption).
  rewrite (replace_foreign (lit "<EOS>") _ [c])
    by (discriminate || (intros d [<-|[]]; assumption)).
  rewrite (replace_foreign (lit "<EOP>") _ [c])
    by (discriminate || (intros d [<-|[]]; assumption)).
  rewrite (replace_foreign (lit "<EOT>") _ [c])
    by (discriminate || (intros d [<-|[]]; assumption)).
  match goal with |- context [?x ++ c :: ?y] =>
    change (x ++ c :: y) with (x ++ [c] ++ y) end.
  unfold EOS_CHAR, EOP_CHAR, EOT_CHAR.
  now rewrite !(replace_char_app 57344%N), !(replace_char_app 57345%N),
              !(replace_char_app 57346%N).
Qed.

Lemma whitespace_not_in_alias (c : char) :
  isspace c = true -> ~ In c (lit "<EOSPT>").
Proof.
  intros Hc H. simpl in H.
  repeat (destruct H as [<-|H]; [discriminate|]). destruct H.
Qed.

Lemma separate_specials_space (c : char) :
  isspace c = true -> _separate_specials [c] = [c].
Proof.
  intros Hc. rewrite separate_specials_phases.
  pose proof (whitespace_not_in_alias c Hc) as Ha.
  rewrite (replace_foreign (lit "<EOS>") _ [c])
    by (discriminate || (intros d [<-|[]]; simpl in *; tauto)).
  rewrite (replace_foreign (lit "<EOP>") _ [c])
    by (discriminate || (intros d [<-|[]]; simpl in *; tauto)).
  rewrite (replace_foreign (lit "<EOT>") _ [c])
    by (discriminate || (intros d [<-|[]]; simpl in *; tauto)).
  rewrite (replace_foreign EOS_CHAR _ [c])
    by (discriminate || (intros d [<-|[]] [<-|[]]; discriminate)).
  rewrite (replace_foreign EOP_CHAR _ [c])
    by (discriminate || (intros d [<-|[]] [<-|[]]; discriminate)).
  rewrite (replace_foreign EOT_CHAR _ [c])
    by (discriminate || (intros d [<-|[]] [<-|[]]; discriminate)).
  reflexivity.
Qed.

Lemma encode_concat (self : BPETokenizer) (text : str) :
  encode self text =
  List.concat (List.map (encode_unit self) (split (_separate_specials text))).
Proof. reflexivity. Qed.

Lemma encode_app_space (self : BPETokenizer) (a : str) (c : char) (b : str) :
  isspace c = true ->
  encode self (a ++ c :: b) = encode self a ++ encode self b.
Proof.
  intros Hc. rewrite !encode_concat.
  rewrite separate_specials_app by now apply whitespace_not_in_alias.
  rewrite separate_specials_space by assumption.
  simpl app. rewrite split_app_sep by assumption.
  now rewrite map_app, concat_app.
Qed.

Lemma encode_app_special (self : BPETokenizer) (a : str) (e : char) (b : str)
  (i : Z) :
  In ([e], i) [(EOS_CHAR, 2%Z); (EOP_CHAR, 3%Z); (EOT_CHAR, 4%Z)] ->
  encode self (a ++ e :: b) = encode self a ++ [i] ++ encode self b.
Proof.
  intros Hin. rewrite !encode_concat.
  assert (He : ~ In e (lit "<EOSPT>")).
  { simpl in Hin. destruct Hin as [[= <- <-]|[[= <- <-]|[[= <- <-]|[]]]];
      simpl; intuition discriminate. }
  rewrite separate_specials_app by assumption.
  assert (Hs : _separate_specials [e] = [SPACE; e; SPACE]).
  { simpl in Hin. destruct Hin as [[= <- <-]|[[= <- <-]|[[= <- <-]|[]]]];
      vm_compute; reflexivity. }
  rewrite Hs.
  change (_separate_specials a ++ [SPACE; e; SPACE] ++ _separate_specials b)
    with (_separate_specials a ++ SPACE :: ([e] ++ SPACE :: _separate_specials b)).
  rewrite !split_app_sep by reflexivity.
  rewrite !map_app, !concat_app. f_equal. f_equal.
  simpl in Hin. destruct Hin as [[= <- <-]|[[= <- <-]|[[= <- <-]|[]]]];
    reflexivity.
Qed.

End EncodeFacts.

Import PyStrMore EncodeFacts RoundTrip.

(** X11: for every tokenizer state, [encode] of a text made only of
    whitespace characters (the empty text included) is the empty list. *)
Theorem encode_blank_text (self : BPETokenizer) (text : str) :
  blank text -> encode self text = [].
Proof.
  intros H. induction H as [|c s Hc Hs IH]; [reflexivity|].
  change (c :: s) with ([] ++ c :: s).
  now rewrite encode_app_space, IH.
Qed.

Lemma encode_blank_text_witness :
  encode (BPE.train (BPE.init 10) (lit "ab ab ab ba")) [SPACE; 10%N; 9%N] = [].
Proof.
  apply encode_blank_text. repeat constructor.
Defined.

(** X12: [encode] works word by word: for every tokenizer state, the ids
    of a text cut at a whitespace character are the ids of the part before
    it followed by the ids of the part after it. *)
Theorem encode_splits_at_whitespace
  (self : BPETokenizer) (a : str) (c : char) (b : str) :
  isspace c = true ->
  encode self (a ++ [c] ++ b) = encode self a ++ encode self b.
Proof. intros Hc. now apply encode_app_space. Qed.

Lemma encode_splits_at_whitespace_witness :
  encode (BPE.train (BPE.init 10) (lit "ab ab ab ba")) (lit "ab" ++ [SPACE] ++ lit "ba") =
  encode (BPE.train (BPE.init 10) (lit "ab ab ab ba")) (lit "ab")
  ++ encode (BPE.train (BPE.init 10) (lit "ab ab ab ba")) (lit "ba").
Proof.
  apply encode_splits_at_whitespace. reflexivity.
Defined.

(** X13: wherever one of the three special characters stands in a text,
    even inside a word, [encode] gives its fixed id (2, 3 or 4) between the
    ids of the text before it and the ids of the text after it. *)
Theorem encode_special_character (self : BPETokenizer) (a b : str) :
  encode self (a ++ EOS_CHAR ++ b) = encode self a ++ [2%Z] ++ encode self b /\
  encode self (a ++ EOP_CHAR ++ b) = encode self a ++ [3%Z] ++ encode self b /\
  encode self (a ++ EOT_CHAR ++ b) = encode self a ++ [4%Z] ++ encode self b.
Proof.
  repeat split; apply encode_app_special; simpl; auto.
Qed.

(** X14: whatever the merge table, the tokens that [encode_word] returns
    for a word without whitespace are non-empty, free of whitespace, and
    put end to end they spell the word followed by the end-of-word
    marker: merging never loses or reorders a character. *)
Theorem encode_word_spells_word (self : BPETokenizer) (w : str) :
  nospace w ->
  List.concat (encode_word self w) = w ++ EOW /\
  Forall word (encode_word self w) /\
  encode_word self w <> [].
Proof.
  intros H. pose proof (encode_word_concat self w H) as E.
  split; [exact E|]. split; [apply split_words|]. intros Hnil.
  rewrite Hnil in E. simpl in E. destruct w; discriminate.
Qed.

Lemma encode_word_spells_word_witness :
  List.concat (encode_word (BPE.train (BPE.init 10) (lit "ab ab ab ba")) (lit "abba"))
  = lit "abba" ++ EOW.
Proof.
  apply encode_word_spells_word. repeat constructor.
Defined.

(** ** [decode] and ids without a token *)

Module DecodeFacts.
Import BPE PyStrFacts PyStrMore PyDictFacts BPEFacts CodecFacts.

Lemma decode_toks_known (self : BPETokenizer) (ids : list Z) :
  List.concat
    (decode_toks self (List.filter (mem Z.eqb (id_to_token self)) ids)) =
  List.concat (decode_toks self ids).
Proof.
  unfold decode_toks. induction ids as [|i ids IH]; [reflexivity|].
  simpl. unfold mem at 1, get_default at 2.
  destruct (get Z.eqb (id_to_token self) i) as [tok|] eqn:E.
  - simpl. unfold get_default at 1. now rewrite E, IH.
  - simpl. exact IH.
Qed.

Lemma decode_of_text (self : BPETokenizer) (ids ids' : list Z) :
  List.concat (decode_toks self ids) = List.concat (decode_toks self ids') ->
  decode self ids = decode self ids'.
Proof. intros H. rewrite !decode_unfold. now rewrite H. Qed.

(** The inverse dictionary of a trained tokenizer on the special ids. *)
Lemma train_special_inverse (self : BPETokenizer) (corpus : str)
  (tok : str) (i : Z) :
  In (tok, i) special_tokens ->
  get Z.eqb (id_to_token (train self corpus)) i = Some tok.
Proof.
  intros Hin. apply id_to_token_get; [apply train_vocab_ids_distinct|].
  destruct (train_vocab_shape self corpus) as (extra & E & _).
  rewrite E, get_app. simpl in Hin.
  repeat (destruct Hin as [[= <- <-]|Hin]; [reflexivity|]). destruct Hin.
Qed.

End DecodeFacts.

Import DecodeFacts.

(** X15: [decode] skips the ids that have no token in the vocabulary:
    removing them from the list does not change the decoded text. *)
Theorem decode_skips_unknown_ids (self : BPETokenizer) (ids : list Z) :
  decode self (List.filter (mem Z.eqb (id_to_token self)) ids) = decode self ids.
Proof. apply decode_of_text, decode_toks_known. Qed.

(** X16: after [train], a list made only of end-of-paragraph (3) and
    end-of-text (4) ids decodes to the empty text: the double line break
    written for a paragraph end does not survive the final whitespace
    normalisation of [decode]. *)
Theorem decode_loses_paragraph_breaks
  (self : BPETokenizer) (corpus : str) (ids : list Z) :
  Forall (fun i => i = 3%Z \/ i = 4%Z) ids ->
  decode (train self corpus) ids = [].
Proof.
  intros Hids. rewrite decode_unfold.
  set (tk := train self corpus).
  assert (Ht0 : Forall (fun c => c = 57345%N \/ c = 57346%N)
                       (List.concat (decode_toks tk ids))).
  { subst tk. unfold decode_toks.
    induction Hids as [|i ids Hi Hids IH]; [constructor|].
    simpl. apply Forall_app. split; [|exact IH].
    unfold get_default. destruct Hi as [-> | ->].
    - rewrite (train_special_inverse self corpus EOP_CHAR 3%Z) by (simpl; tauto).
      unfold EOP_CHAR. constructor; [now left|constructor].
    - rewrite (train_special_inverse self corpus EOT_CHAR 4%Z) by (simpl; tauto).
      unfold EOT_CHAR. constructor; [now right|constructor]. }
  set (t0 := List.concat (decode_toks tk ids)) in *.
  rewrite Forall_forall in Ht0.
  rewrite (replace_foreign EOW _ t0).
  2: discriminate.
  2:{ intros c Hc Hin. destruct (Ht0 c Hc) as [-> | ->];
        vm_compute in Hin; intuition discriminate. }
  rewrite (replace_foreign EOS_CHAR _ t0).
  2: discriminate.
  2:{ intros c Hc Hin. destruct (Ht0 c Hc) as [-> | ->];
        vm_compute in Hin; intuition discriminate. }
  rewrite split_blank; [reflexivity|].
  apply Forall_forall. intros c Hc.
  apply in_replace_char in Hc as [[]|[H3 Hc]].
  apply in_replace_char in Hc as [Hc|[H2 Hc]].
  - simpl in Hc. destruct Hc as [<-|[<-|[]]]; reflexivity.
  - destruct (Ht0 c Hc); congruence.
Qed.

Lemma decode_loses_paragraph_breaks_witness :
  decode (BPE.train (BPE.init 10) (lit "ab ab ab ba")) [3; 4; 3]%Z = [].
Proof.
  apply decode_loses_paragraph_breaks.
  constructor; [now left|]. constructor; [now right|].
  constructor; [now left|]. constructor.
Defined.

(** ** More on [BPETokenizer.train] *)

Module TrainFacts.
Import BPE PyStrFacts PyStrMore PyDictFacts BPEFacts SamplerSupport.

Lemma pair_eqb_spec (p q : pair) : pair_eqb p q = true <-> p = q.
Proof.
  destruct p as [a b], q as [c d]. unfold pair_eqb. simpl.
  rewrite andb_true_iff, !str_eqb_eq.
  split; [intros [-> ->]|intros [= -> ->]]; auto.
Qed.

Lemma merge_loop_empty (n : nat) (ms : list pair) :
  merge_loop n [] ms = ([], ms).
Proof. destruct n; reflexivity. Qed.

(** *** Keys of the counters built by folding [add] *)

Section FoldKeys.
Context {K A : Type}.
Variable eqb : K -> K -> bool.
Hypothesis eqb_spec : forall a b, eqb a b = true <-> a = b.
Variable P : K -> Prop.

Lemma add_key (c : @counter K) (k : K) (n : N) :
  P k -> Forall P (keys c) -> Forall P (keys (add eqb c k n)).
Proof.
  intros Hk Hc. rewrite Forall_forall in *. intros x Hx.
  unfold keys in Hx. apply in_map_iff in Hx as ([k' v'] & <- & Hin).
  apply (in_set eqb eqb_spec) in Hin as [[-> _]|Hin]; [assumption|].
  apply Hc. unfold keys. change k' with (fst (k', v')). now apply in_map.
Qed.

Lemma fold_add_keys (ks : list K) (n : N) (c : @counter K) :
  Forall P ks -> Forall P (keys c) ->
  Forall P (keys (List.fold_left (fun c k => add eqb c k n) ks c)).
Proof.
  revert c. induction ks as [|k ks IH]; intros c Hks Hc; [exact Hc|].
  inversion Hks; subst. simpl. apply IH; [assumption|]. now apply add_key.
Qed.

Lemma fold_fold_add_keys (items : list (A * N)) (f : A -> list K) (c : @counter K) :
  (forall a, Forall P (f a)) -> Forall P (keys c) ->
  Forall P (keys (List.fold_left
                    (fun c wf => List.fold_left (fun c k => add eqb c k (snd wf))
                                                (f (fst wf)) c)
                    items c)).
Proof.
  intros Hf. revert c. induction items as [|[a n] items IH]; intros c Hc; [exact Hc|].
  simpl. apply IH. now apply fold_add_keys.
Qed.

End FoldKeys.

Lemma adjacent_in (l : list str) (a b : str) :
  In (a, b) (adjacent l) -> In a l /\ In b l.
Proof.
  induction l as [|x l IH]; [intros []|].
  destruct l as [|y l]; [intros []|].
  change (adjacent (x :: y :: l)) with ((x, y) :: adjacent (y :: l)).
  intros [[= <- <-]|H].
  - simpl. auto.
  - destruct (IH H). simpl in *. tauto.
Qed.

(** The pairs that [_get_pair_stats] counts are pairs of words. *)
Lemma pair_stats_keys (words : @dict str N) :
  Forall (fun p => word (fst p) /\ word (snd p)) (keys (_get_pair_stats words)).
Proof.
  unfold _get_pair_stats.
  apply (fold_fold_add_keys pair_eqb pair_eqb_spec
           (fun p => word (fst p) /\ word (snd p)) words
           (fun w => adjacent (split w))); [|constructor].
  intros w. apply Forall_forall. intros [a b] H.
  apply adjacent_in in H as [Ha Hb].
  pose proof (split_words w) as Hw. rewrite Forall_forall in Hw.
  split; simpl; auto.
Qed.

(** The tokens that [train] counts for the vocabulary are words. *)
Lemma symbol_freq_keys (words : @dict str N) :
  Forall word (keys (symbol_freq words)).
Proof.
  unfold symbol_freq.
  apply (fold_fold_add_keys str_eqb str_eqb_eq word words split); [|constructor].
  intros w. apply split_words.
Qed.

Lemma max_from_in {K} (l : list (K * N)) :
  forall best, In (max_from best l) (fst best :: List.map fst l).
Proof.
  induction l as [|kv l IH]; intros best; [now left|].
  simpl. destruct (snd best <? snd kv)%N.
  - right. apply IH.
  - destruct (IH best) as [H|H]; auto.
Qed.

Lemma max_key_in {K} (c : @counter K) (k : K) :
  max_key c = Some k -> In k (keys c).
Proof.
  destruct c as [|kv l]; [discriminate|]. intros [= <-]. apply max_from_in.
Qed.

(** The merge loop keeps the merges it is given and appends at most [n]
    pairs of words. *)
Lemma merge_loop_shape (n : nat) :
  forall words ms,
  exists new,
    snd (merge_loop n words ms) = ms ++ new /\
    (List.length new <= n)%nat /\
    Forall (fun p => word (fst p) /\ word (snd p)) new.
Proof.
  induction n as [|n IH]; intros words ms.
  - exists []. simpl. rewrite app_nil_r. auto.
  - cbn [merge_loop].
    destruct (max_key (_get_pair_stats words)) as [best|] eqn:E.
    + destruct (IH (_merge_vocab best words) (ms ++ [best])) as (new & Hs & Hl & Hw).
      exists (best :: new). rewrite Hs, <- app_assoc. repeat split.
      * simpl. lia.
      * constructor; [|assumption].
        apply max_key_in in E. pose proof (pair_stats_keys words) as Hk.
        rewrite Forall_forall in Hk. now apply Hk.
    + exists []. simpl. rewrite app_nil_r. repeat split; auto. lia.
Qed.

(** *** The entries that the final loop of [train] adds *)

Lemma fill_vocab_dense (P : str -> Prop) (size : Z) (toks : list (str * N)) :
  Forall P (List.map fst toks) ->
  forall voc next_id slots,
  exists extra,
    fill_vocab size toks voc next_id slots = voc ++ extra /\
    values extra =
      List.map (fun j => (next_id + Z.of_nat j)%Z) (seq 0 (List.length extra)) /\
    Forall P (keys extra).
Proof.
  induction toks as [|[tok n] rest IH]; intros Hall voc next_id slots.
  - exists []. rewrite app_nil_r. repeat split. constructor.
  - inversion Hall as [|? ? Htok Hrest]; subst. cbn [fill_vocab].
    destruct (negb (mem str_eqb voc tok) && (0 <? slots)%Z) eqn:Efresh.
    + apply andb_true_iff in Efresh as [Hmem _].
      assert (Hset : set str_eqb voc tok next_id = voc ++ [(tok, next_id)]).
      { apply set_absent. unfold mem in Hmem.
        destruct (get str_eqb voc tok); [discriminate|reflexivity]. }
      rewrite Hset.
      destruct (size <=? len (voc ++ [(tok, next_id)]))%Z.
      * exists [(tok, next_id)]. repeat split.
        -- simpl. now rewrite Z.add_0_r.
        -- now repeat constructor.
      * destruct (IH Hrest (voc ++ [(tok, next_id)]) (next_id + 1)%Z (slots - 1)%Z)
          as (extra & E & Hv & Hk).
        exists ((tok, next_id) :: extra). repeat split.
        -- now rewrite E, <- app_assoc.
        -- cbn [values List.map List.length seq]. fold (values extra).
           rewrite Hv, Z.add_0_r. f_equal.
           rewrite <- seq_shift, map_map. apply map_ext. intros j. lia.
        -- now constructor.
    + destruct (size <=? len voc)%Z.
      * exists []. rewrite app_nil_r. repeat split. constructor.
      * apply IH. assumption.
Qed.

(** The parts of [train]: the merge loop that gives the merge table and
    the frequency table that gives the vocabulary. *)
Lemma bpe_train_parts (self : BPETokenizer) (corpus : str) :
  exists words1 words n,
    (Z.of_nat n <= Z.max 1 (vocab_size self - 5))%Z /\
    merge_loop n words1 (merges self) = (words, merges (train self corpus)) /\
    vocab (train self corpus) =
      fill_vocab (vocab_size self) (most_common_all (symbol_freq words))
                 special_tokens 5 (vocab_size self - 5).
Proof.
  unfold train.
  destruct (if (vocab_size self - len special_tokens <=? _)%Z then _ else _)
    as [vocab_words1 symbols].
  cbv zeta.
  match goal with
  | |- context [merge_loop (Z.to_nat ?k) vocab_words1 (merges self)] =>
      set (num := k)
  end.
  destruct (merge_loop (Z.to_nat num) vocab_words1 (merges self))
    as [vocab_words ms] eqn:E.
  exists vocab_words1, vocab_words, (Z.to_nat num). cbn [merges vocab].
  split; [|split; [exact E|reflexivity]].
  subst num. change (len special_tokens) with 5%Z.
  pose proof (len_nonneg symbols).
  destruct (_ <=? 0)%Z eqn:Ez; lia.
Qed.

End TrainFacts.

Import TrainFacts.

(** X17: training on a corpus made only of whitespace (the empty corpus
    included) gives the degenerate tokenizer: the vocabulary is exactly the
    five special tokens, whatever the target size, and no merge is
    added. *)
Theorem train_blank_corpus (self : BPETokenizer) (corpus : str) :
  blank corpus ->
  train self corpus = mkBPE (vocab_size self) special_tokens (merges self).
Proof.
  intros H. unfold train. rewrite (split_blank corpus H).
  cbn [count_all List.fold_left List.map of_items keys List.concat set_of].
  destruct (vocab_size self - len special_tokens <=? len [])%Z;
    cbn [symbol_freq List.fold_left List.filter];
    rewrite merge_loop_empty; reflexivity.
Qed.

Lemma train_blank_corpus_witness :
  train (BPE.init 10) [SPACE; 10%N] = mkBPE 10 special_tokens [].
Proof.
  apply (train_blank_corpus (BPE.init 10)). repeat constructor.
Defined.

(** X18: after [train], the vocabulary is the special-token table followed
    by entries whose ids are 5, 6, 7, ... without a gap, in that order, and
    whose tokens are non-empty and free of whitespace. *)
Theorem train_vocab_dense (self : BPETokenizer) (corpus : str) :
  exists extra,
    vocab (train self corpus) = special_tokens ++ extra /\
    values extra =
      List.map (fun j => (5 + Z.of_nat j)%Z) (seq 0 (List.length extra)) /\
    Forall word (keys extra).
Proof.
  destruct (bpe_train_parts self corpus)
    as (words1 & words & n & _ & _ & ->).
  apply fill_vocab_dense.
  pose proof (symbol_freq_keys words) as Hk. rewrite Forall_forall in *.
  intros tok Htok. apply Hk. unfold keys.
  apply in_map_iff in Htok as (kv & <- & Hin).
  apply in_map. unfold most_common_all in Hin. now apply in_sort_desc in Hin.
Qed.

(** X19: [train] keeps the merges the tokenizer already has and appends at
    most [max(1, vocab_size - 5)] new ones, each a pair of non-empty
    symbols free of whitespace. *)
Theorem train_merges_shape (self : BPETokenizer) (corpus : str) :
  exists new,
    merges (train self corpus) = merges self ++ new /\
    (Z.of_nat (List.length new) <= Z.max 1 (vocab_size self - 5))%Z /\
    Forall (fun p => word (fst p) /\ word (snd p)) new.
Proof.
  destruct (bpe_train_parts self corpus)
    as (words1 & words & n & Hn & E & _).
  destruct (merge_loop_shape n words1 (merges self)) as (new & Hs & Hl & Hw).
  rewrite E in Hs. simpl in Hs. exists new. repeat split; auto. lia.
Qed.

(** ** The merges file *)

Module MergesFacts.
Import BPE MergesFile PyStrFacts PyStrMore.

Lemma universal_newlines_plain (s : str) :
  ~ In CR s -> universal_newlines s = s.
Proof.
  induction s as [|c s IH]; intros H; [reflexivity|].
  cbn [universal_newlines]. destruct (N.eqb c CR) eqn:E.
  - apply N.eqb_eq in E. subst. exfalso. apply H. now left.
  - rewrite IH; [reflexivity|]. intros Hin. apply H. now right.
Qed.

Lemma file_lines_line (line rest : str) :
  ~ In LF line ->
  file_lines (line ++ LF :: rest) = (line ++ [LF]) :: file_lines rest.
Proof.
  induction line as [|c line IH]; intros H.
  - reflexivity.
  - simpl app. cbn [file_lines].
    replace (N.eqb c LF) with false.
    + rewrite IH; [reflexivity|]. intros Hin. apply H. now right.
    + symmetry. apply N.eqb_neq. intros ->. apply H. now left.
Qed.

Lemma word_no_char (w : str) (c : char) :
  word w -> isspace c = true -> ~ In c w.
Proof.
  intros [_ Hns] Hc Hin. unfold nospace in Hns. rewrite Forall_forall in Hns.
  rewrite (Hns c Hin) in Hc. discriminate.
Qed.

Lemma lstrip_word (w t : str) : word w -> lstrip (w ++ t) = w ++ t.
Proof.
  intros [Hne Hns]. destruct w as [|c w]; [congruence|].
  inversion Hns as [|? ? Hc _]; subst. simpl. now rewrite Hc.
Qed.

(** One line of the merges file, as [load] reads it. *)
Lemma line_parts (a b : str) :
  word a -> word b ->
  split (strip (a ++ [SPACE] ++ b ++ [LF])) = [a; b].
Proof.
  intros Ha Hb. unfold strip. rewrite lstrip_word by assumption.
  unfold rstrip.
  replace (a ++ [SPACE] ++ b ++ [LF]) with ((a ++ [SPACE] ++ b) ++ [LF])
    by now rewrite <- !app_assoc.
  rewrite rev_app_distr. simpl List.rev at 2. simpl app at 1.
  cbn [lstrip]. change (isspace LF) with true. cbv iota.
  change (a ++ SPACE :: b) with (a ++ [SPACE] ++ b).
  rewrite (app_assoc a), (rev_app_distr (a ++ [SPACE]) b).
  rewrite lstrip_rev_word by assumption.
  rewrite <- rev_app_distr, rev_involutive, <- app_assoc.
  simpl app. rewrite split_app_sep by reflexivity.
  now rewrite !split_word.
Qed.

Lemma load_merges_text (ms : list pair) :
  Forall (fun p => word (fst p) /\ word (snd p)) ms ->
  load_merges
    (List.concat (List.map (fun ab => fst ab ++ [SPACE] ++ snd ab ++ [LF]) ms)) = ms.
Proof.
  intros H. unfold load_merges.
  set (text := List.concat _).
  assert (Hcr : ~ In CR text).
  { subst text. intros Hin. apply in_concat in Hin as (l & Hl & Hin).
    apply in_map_iff in Hl as ([a b] & <- & Hab).
    rewrite Forall_forall in H. destruct (H _ Hab) as [Ha Hb]. simpl in *.
    pose proof (word_no_char a CR Ha eq_refl).
    pose proof (word_no_char b CR Hb eq_refl).
    repeat (rewrite in_app_iff in Hin || simpl in Hin).
    unfold SPACE, LF, CR in *. intuition discriminate. }
  rewrite universal_newlines_plain by assumption. subst text. clear Hcr.
  induction H as [|[a b] ms [Ha Hb] Hms IH]; [reflexivity|].
  cbn [List.map List.concat fst snd] in *.
  replace ((a ++ [SPACE] ++ b ++ [LF]) ++
           List.concat (List.map (fun ab => fst ab ++ [SPACE] ++ snd ab ++ [LF]) ms))
    with ((a ++ [SPACE] ++ b) ++ LF ::
          List.concat (List.map (fun ab => fst ab ++ [SPACE] ++ snd ab ++ [LF]) ms))
    by (now rewrite <- !app_assoc).
  rewrite file_lines_line.
  - cbn [List.flat_map]. rewrite IH.
    replace ((a ++ [SPACE] ++ b) ++ [LF]) with (a ++ [SPACE] ++ b ++ [LF])
      by (now rewrite <- !app_assoc).
    now rewrite line_parts.
  - pose proof (word_no_char a LF Ha eq_refl).
    pose proof (word_no_char b LF Hb eq_refl).
    intros Hin. repeat (rewrite in_app_iff in Hin || simpl in Hin).
    unfold SPACE, LF in *. intuition discriminate.
Qed.

End MergesFacts.

Import MergesFile MergesFacts.

(** X20: the merges file round-trips: when every symbol of the merge
    table is non-empty, free of whitespace and free of surrogate code
    points, [save] writes a text from which [load] reads the same merge
    table, in the same order.  By X19 the merges that [train] adds have
    such symbols when the corpus has no surrogates. *)
Theorem merges_file_round_trip (self : BPETokenizer) :
  Forall (fun p => word (fst p) /\ word (snd p)) (merges self) ->
  Forall (fun p => List.forallb encodable (fst p ++ snd p) = true) (merges self) ->
  exists text, save_merges self = Some text /\ load_merges text = merges self.
Proof.
  intros Hw He. exists (merges_text self). split.
  - unfold save_merges.
    replace (List.forallb encodable (merges_text self)) with true; [reflexivity|].
    symmetry. apply forallb_forall. intros c Hc.
    unfold merges_text in Hc. apply in_concat in Hc as (l & Hl & Hc).
    apply in_map_iff in Hl as ([a b] & <- & Hab).
    rewrite Forall_forall in He. specialize (He _ Hab). simpl in *.
    rewrite forallb_forall in He.
    repeat (rewrite in_app_iff in Hc || simpl in Hc).
    destruct Hc as [Hc|[Hc|[Hc|[Hc|[]]]]].
    + apply He. rewrite in_app_iff. auto.
    + now subst c.
    + apply He. rewrite in_app_iff. auto.
    + now subst c.
  - now apply load_merges_text.
Qed.

Lemma merges_file_round_trip_witness :
  exists text,
    save_merges (train (BPE.init 10) (lit "ab ab ab ba")) = Some text /\
    load_merges text = merges (train (BPE.init 10) (lit "ab ab ab ba")).
Proof.
  assert (E : merges (train (BPE.init 10) (lit "ab ab ab ba")) =
              [(lit "a", lit "b"); (lit "ab", EOW)]) by (vm_compute; reflexivity).
  apply merges_file_round_trip; rewrite E.
  - constructor; [|constructor; [|constructor]];
      (split; (split; [discriminate|])); cbn [fst snd];
      apply Forall_forall; intros c Hc; vm_compute in Hc;
      repeat (destruct Hc as [<-|Hc]; [reflexivity|]); destruct Hc.
  - constructor; [reflexivity|]. constructor; [reflexivity|]. constructor.
Defined.

(** ** Before any training *)

Module UntrainedFacts.
Import BPE Trigram Story Generator PyStrFacts PyStrMore RoundTrip.

Lemma str_eqb_neq' (a b : str) : a <> b -> str_eqb a b = false.
Proof.
  intros H. destruct (str_eqb a b) eqn:E; [|reflexivity].
  apply str_eqb_eq in E. contradiction.
Qed.

Lemma spell_cons (c d : char) (w : str) :
  spell (c :: d :: w) = [c] ++ SPACE :: spell (d :: w).
Proof. reflexivity. Qed.

(** Without merges a word is cut into its characters and the marker. *)
Lemma split_spell (w : str) : nospace w -> split (spell w) = chars w ++ [EOW].
Proof.
  intros H. induction H as [|c w Hc Hw IH]; [reflexivity|].
  destruct w as [|d w].
  - change (spell [c]) with ([c] ++ SPACE :: EOW).
    rewrite split_app_sep by reflexivity.
    rewrite (split_word [c]) by (split; [discriminate|now repeat constructor]).
    reflexivity.
  - rewrite spell_cons, split_app_sep by reflexivity.
    rewrite IH, (split_word [c]) by (split; [discriminate|now repeat constructor]).
    reflexivity.
Qed.

Lemma story_loop_eos (self : TrigramLanguageModel) (rnd : nat -> Q) (n : nat) :
  (forall context u, generate_next_token self context u = eos_id) ->
  forall step g, story_loop self rnd n step g = g ++ List.repeat eos_id n.
Proof.
  intros H. induction n as [|n IH]; intros step g.
  - simpl. now rewrite app_nil_r.
  - cbn [story_loop]. rewrite H. simpl Z.eqb. cbv iota.
    rewrite IH, <- app_assoc. reflexivity.
Qed.

End UntrainedFacts.

Import UntrainedFacts.

(** X21: a tokenizer that was only constructed knows no token: [encode]
    raises no error and gives the UNK id for every character of a plain
    word and for its end-of-word marker, so a word of [n] characters
    becomes [n + 1] ids equal to 1.  (Plain: non-empty, free of whitespace,
    of the special characters and of their aliases, and not the name of a
    special token.) *)
Theorem untrained_encode_gives_unk (vocab_size : Z) (w : str) :
  word w ->
  ~ In 57344%N w -> ~ In 57345%N w -> ~ In 57346%N w ->
  occurs (lit "<EOS>") w = false -> occurs (lit "<EOP>") w = false ->
  occurs (lit "<EOT>") w = false ->
  w <> lit "<PAD>" -> w <> lit "<UNK>" ->
  encode (BPE.init vocab_size) w = List.repeat 1%Z (List.length w + 1).
Proof.
  intros Hw S1 S2 S3 A1 A2 A3 N0 N1.
  unfold encode. rewrite separate_specials_plain by assumption.
  rewrite (split_word w Hw). cbn [List.map List.concat]. rewrite app_nil_r.
  unfold encode_unit. rewrite legacy_alias_plain by assumption.
  assert (Hs : get str_eqb special_tokens w = None).
  { unfold special_tokens. cbn [get].
    rewrite (str_eqb_neq' (lit "<PAD>") w), (str_eqb_neq' (lit "<UNK>") w)
      by congruence.
    replace (str_eqb EOS_CHAR w) with false.
    replace (str_eqb EOP_CHAR w) with false.
    replace (str_eqb EOT_CHAR w) with false.
    - reflexivity.
    - symmetry. apply occurs_false_neq. now apply not_occurs_char.
    - symmetry. apply occurs_false_neq. now apply not_occurs_char.
    - symmetry. apply occurs_false_neq. now apply not_occurs_char. }
  rewrite Hs. unfold encode_word. cbn [merges BPE.init List.fold_left].
  fold (spell w). rewrite split_spell by apply Hw.
  unfold chars. rewrite map_app, map_map. cbn [vocab BPE.init get_default get].
  rewrite repeat_app. f_equal.
  clear. induction w as [|c w IH]; [reflexivity|]. simpl. now rewrite IH.
Qed.

Lemma untrained_encode_gives_unk_witness :
  encode (BPE.init 250) (lit "kitab") = [1; 1; 1; 1; 1; 1]%Z.
Proof.
  apply (untrained_encode_gives_unk 250 (lit "kitab")); try reflexivity;
    try discriminate.
  - split; [discriminate|]. repeat constructor.
  - simpl. intuition discriminate.
  - simpl. intuition discriminate.
  - simpl. intuition discriminate.
Defined.

(** X22: a model trained on the empty sequence has no candidate in any
    context: the sampler always returns the end-of-sentence id, and
    [generate_story(max_length)] is [max_length] copies of it. *)
Theorem empty_model_generates_eos
  (self : Trigram.TrigramLanguageModel) (rnd : nat -> Q) (max_length : Z) :
  (forall context u,
     Trigram.generate_next_token (Trigram.train self []) context u
       = Trigram.eos_id) /\
  generate_story (Trigram.train self []) rnd max_length =
    List.repeat Trigram.eos_id (Z.to_nat max_length).
Proof.
  assert (H : forall context u,
            Trigram.generate_next_token (Trigram.train self []) context u
              = Trigram.eos_id).
  { intros [w1 w2] u. reflexivity. }
  split; [exact H|].
  unfold generate_story. now rewrite story_loop_eos.
Qed.

(** ** The [/generate] endpoint *)

Module EndpointFacts.


Lemma lstrip_head (s : str) : isspace (List.hd SPACE (lstrip s)) = true -> lstrip s = [].
Proof.
  induction s as [|c s IH]; [reflexivity|]. simpl.
  destruct (isspace c) eqn:Ec; [exact IH|]. simpl. congruence.
Qed.

Lemma lstrip_blank (s : str) :
  lstrip s = [] <-> List.forallb isspace s = true.
Proof.
  induction s as [|c s IH]; [now split|]. simpl.
  destruct (isspace c); [exact IH|]. now split.
Qed.

Lemma forallb_rev (f : char -> bool) (s : str) :
  List.forallb f (List.rev s) = List.forallb f s.
Proof.
  induction s as [|c s IH]; [reflexivity|]. simpl.
  rewrite forallb_app, IH. simpl. rewrite andb_true_r. apply andb_comm.
Qed.


Lemma rstrip_blank (s : str) :
  rstrip s = [] <-> List.forallb isspace s = true.
Proof.
  unfold rstrip. rewrite <- (forallb_rev isspace s), <- lstrip_blank. split.
  - intros H. apply (f_equal (@List.rev char)) in H.
    now rewrite rev_involutive in H.
  - now intros ->.
Qed.



Lemma strip_blank (s : str) : strip s = [] <-> List.forallb isspace s = true.
Proof.
  unfold strip. rewrite rstrip_blank. split.
  - intros H. destruct (lstrip s) as [|c t] eqn:E; [now apply lstrip_blank|].
    exfalso. assert (Hc : isspace (List.hd SPACE (lstrip s)) = true).
    { rewrite E. simpl in *. now apply andb_prop in H. }
    apply lstrip_head in Hc. congruence.
  - intros H. apply lstrip_blank in H. now rewrite H.
Qed.


End EndpointFacts.

Import Endpoint EndpointFacts.

(** X23: [generate] raises the HTTP error 400 "Prefix cannot be empty."
    exactly when the prefix is empty or consists of whitespace only, and
    such a request never reaches the generator; for any other prefix it
    returns the event stream of [generate_tokens] on the trimmed prefix. *)
Theorem generate_rejects_blank_prefix
  (tokenizer : BPETokenizer) (model : Trigram.TrigramLanguageModel)
  (rnd : nat -> Q) (prefix : str) (max_length : Z) :
  generate tokenizer model rnd prefix max_length =
    if List.forallb isspace prefix
    then Http_error 400 (lit "Prefix cannot be empty.")
    else Event_stream
           (generate_tokens tokenizer model rnd (strip prefix) max_length).
Proof.
  unfold generate. pose proof (strip_blank prefix) as H.
  destruct (strip prefix) as [|c t].
  - now rewrite (proj1 H eq_refl).
  - destruct (List.forallb isspace prefix); [|reflexivity].
    now discriminate (proj2 H eq_refl).
Qed.


